(** * Arcade Jigsaw: the puzzle-state core of [src/App.tsx]

    A shallow embedding of the sliding-puzzle logic of the React component:
    board generation with the parity test, move validation, solve detection,
    the ranking list and the session state machine, followed by the
    properties of the specification that were checked against it.

    Conventions.
    - JavaScript numbers that the program uses are integers of small
      magnitude; they are modelled by [Z].  [Math.floor (a / b)] is [a / b]
      on [Z] (floor division) and [a % b] is [Z.rem a b] (the sign follows
      the dividend).  Grid sizes are never [0] in the program (the catalog
      holds 3, 4 and 5); the model of a division by [0] is not meaningful.
    - [Math.random ()] is a draw from the rationals of the interval [0, 1).
    - An array is a list of elements; an element is a number, [undefined]
      or a hole of a sparse array. *)

From Stdlib Require Import ZArith List Permutation Lia Bool String Ascii.
From Stdlib Require Import QArith Qround Sorted Finite.
Import ListNotations.
Local Open Scope Z_scope.

(** ** JavaScript arrays of numbers *)

Module JS.

Inductive elem : Type :=
| Num (n : Z)
| Undefined
| Hole.

Definition array : Type := list elem.

Definition length (a : array) : Z := Z.of_nat (List.length a).

(** [value === n] for a number [n]. *)
Definition strict_eq (v : elem) (n : Z) : bool :=
  match v with
  | Num m => m =? n
  | _ => false
  end.

(** [a > b]; a comparison with [undefined] is false. *)
Definition gt (a b : elem) : bool :=
  match a, b with
  | Num x, Num y => y <? x
  | _, _ => false
  end.

(** [a[i]]: reading a hole, or outside the elements, gives [undefined]. *)
Definition get (a : array) (i : Z) : elem :=
  if (0 <=? i) && (i <? length a) then
    match nth (Z.to_nat i) a Undefined with
    | Hole => Undefined
    | v => v
    end
  else Undefined.

Fixpoint update (a : array) (n : nat) (v : elem) : array :=
  match a, n with
  | [], _ => []
  | _ :: t, O => v :: t
  | h :: t, S k => h :: update t k v
  end.

(** [a[i] = v].  Inside the array the element is replaced; at or past the
    end the array grows, the gap being holes; a negative [i] names a
    property that is not an element, so the elements are left alone. *)
Definition set (a : array) (i : Z) (v : elem) : array :=
  if i <? 0 then a
  else if i <? length a then update a (Z.to_nat i) v
  else a ++ repeat Hole (Z.to_nat (i - length a)) ++ [v].

(** [[...a]]: the copy is dense, holes are read as [undefined]. *)
Definition spread (a : array) : array :=
  map (fun v => match v with Hole => Undefined | _ => v end) a.

Fixpoint indexOf_from (a : array) (n : Z) (i : Z) : Z :=
  match a with
  | [] => -1
  | v :: t => if strict_eq v n then i else indexOf_from t n (i + 1)
  end.

(** [a.indexOf(n)]: the first index holding [n], or [-1]. *)
Definition indexOf (a : array) (n : Z) : Z := indexOf_from a n 0.

Fixpoint every_from (p : elem -> Z -> bool) (a : array) (i : Z) : bool :=
  match a with
  | [] => true
  | Hole :: t => every_from p t (i + 1)
  | v :: t => p v i && every_from p t (i + 1)
  end.

(** [a.every((value, index) => p)]: holes are skipped. *)
Definition every (p : elem -> Z -> bool) (a : array) : bool :=
  every_from p a 0.

End JS.

(** ** Board functions *)

(** [Array.from({ length: size * size }, (_, index) => index)] *)
Definition createSolvedBoard (size : Z) : JS.array :=
  map (fun index => JS.Num (Z.of_nat index)) (seq 0 (Z.to_nat (size * size))).

Definition countInversions (tiles : JS.array) (blankValue : Z) : Z :=
  let n := List.length tiles in
  fold_left
    (fun inversions i =>
       fold_left
         (fun inversions j =>
            let current := JS.get tiles (Z.of_nat i) in
            let next := JS.get tiles (Z.of_nat j) in
            if JS.strict_eq current blankValue || JS.strict_eq next blankValue
            then inversions
            else if JS.gt current next then inversions + 1 else inversions)
         (seq (i + 1) (n - (i + 1))) inversions)
    (seq 0 n) 0.

Definition isSolvable (tiles : JS.array) (size : Z) : bool :=
  let blankValue := JS.length tiles - 1 in
  let inversions := countInversions tiles blankValue in
  let blankIndex := JS.indexOf tiles blankValue in
  let blankRowFromBottom := size - blankIndex / size in
  if Z.rem size 2 =? 1 then Z.rem inversions 2 =? 0
  else if Z.rem blankRowFromBottom 2 =? 0 then Z.rem inversions 2 =? 1
  else Z.rem inversions 2 =? 0.

Definition isAdjacent (indexA indexB size : Z) : bool :=
  let rowA := indexA / size in
  let colA := Z.rem indexA size in
  let rowB := indexB / size in
  let colB := Z.rem indexB size in
  let rowMatch := (rowA =? rowB) && (Z.abs (colA - colB) =? 1) in
  let colMatch := (colA =? colB) && (Z.abs (rowA - rowB) =? 1) in
  rowMatch || colMatch.

Definition isSolved (tiles : JS.array) : bool :=
  JS.every (fun value index => JS.strict_eq value index) tiles.

(** ** Completions, the environment and the platform *)

(** The outcome of a call that may throw. *)
Inductive completion (A : Type) : Type :=
| Normal (a : A)
| Throw (message : string).
Arguments Normal {A} a.
Arguments Throw {A} message.

Definition bind {A B} (c : completion A) (k : A -> completion B) : completion B :=
  match c with
  | Normal a => k a
  | Throw m => Throw m
  end.

(** [try { body } catch (error) { handler }] *)
Definition try_catch {A} (body : completion A) (handler : string -> completion A)
  : completion A :=
  match body with
  | Normal a => Normal a
  | Throw m => handler m
  end.

(** One value of [Math.random ()]: a rational of [0, 1). *)
Record Draw : Type := {
  draw_value : Q;
  draw_range : Qle_bool 0 draw_value && negb (Qle_bool 1 draw_value) = true
}.

(** What the program reads from outside: the successive values of
    [Math.random ()] and of [Date.now ()]. *)
Record World : Type := {
  randoms : nat -> Draw;
  clock : nat -> Z
}.

Definition Math_random (w : World) : Q * World :=
  (draw_value (randoms w 0%nat),
   {| randoms := fun n => randoms w (S n); clock := clock w |}).

Definition Date_now (w : World) : Z * World :=
  (clock w 0%nat,
   {| randoms := randoms w; clock := fun n => clock w (S n) |}).

Module JSON.

#[local] Unset Elimination Schemes.
Inductive value : Type :=
| Null
| Bool (b : bool)
| Number (q : Q)
| String (s : string)
| Array (items : list value)
| Object (members : list (string * value)).
#[local] Set Elimination Schemes.

End JSON.

(** The built-ins whose result the language leaves to the engine, or that
    work on floating-point text.
    - [sort_random w a] is [a.sort(() => Math.random() - 0.5)]: with a
      comparator that is not a consistent order, the order of the result is
      implementation-defined.
    - [toString36 x] is [x.toString(36)].
    - [JSON_parse text] is [JSON.parse(text)], which throws on a text that
      is not JSON. *)
Record Platform : Type := {
  sort_random : World -> JS.array -> JS.array * World;
  toString36 : Q -> string;
  JSON_parse : string -> completion JSON.value
}.

(** Whatever the comparator answers, sorting rearranges the elements. *)
Definition sort_rearranges (P : Platform) : Prop :=
  forall w a, Permutation (fst (sort_random P w a)) a.

(** ** The catalogs *)

Inductive PuzzleStatus : Type := idle | playing | solved.

Module DemonImage.
Record t : Type := {
  id : string;
  label : string;
  description : string;
  file : string
}.
End DemonImage.

Module DifficultyOption.
Record t : Type := {
  id : string;
  label : string;
  size : Z
}.
End DifficultyOption.

Module ScoreEntry.
Record t : Type := {
  id : string;
  imageId : string;
  imageLabel : string;
  difficultyId : string;
  difficultyLabel : string;
  size : Z;
  moves : Z;
  finishedAt : Z
}.
End ScoreEntry.

Definition SCORE_KEY : string := "demonHunterRankings".

Definition starlit_reaper : DemonImage.t :=
  {| DemonImage.id := "starlit-reaper";
     DemonImage.label := "Starlit Reaper";
     DemonImage.description := "Neon twin-scythe idol hunter";
     DemonImage.file := "/images/starlit-reaper.svg" |}.

Definition midnight_sigil : DemonImage.t :=
  {| DemonImage.id := "midnight-sigil";
     DemonImage.label := "Midnight Sigil";
     DemonImage.description := "Blue fire rune shield";
     DemonImage.file := "/images/midnight-sigil.svg" |}.

Definition crimson_halo : DemonImage.t :=
  {| DemonImage.id := "crimson-halo";
     DemonImage.label := "Crimson Halo";
     DemonImage.description := "Laser halo bow archer";
     DemonImage.file := "/images/crimson-halo.svg" |}.

Definition demonImages : list DemonImage.t :=
  [starlit_reaper; midnight_sigil; crimson_halo].

Definition easy : DifficultyOption.t :=
  {| DifficultyOption.id := "easy";
     DifficultyOption.label := "Easy · 3 × 3";
     DifficultyOption.size := 3 |}.

Definition standard : DifficultyOption.t :=
  {| DifficultyOption.id := "standard";
     DifficultyOption.label := "Standard · 4 × 4";
     DifficultyOption.size := 4 |}.

Definition expert : DifficultyOption.t :=
  {| DifficultyOption.id := "expert";
     DifficultyOption.label := "Expert · 5 × 5";
     DifficultyOption.size := 5 |}.

Definition difficulties : list DifficultyOption.t := [easy; standard; expert].

(** ** The ranking store *)

(** What [window.localStorage.getItem] may do: throw, or give the stored
    text, [None] being [null] for a key that is not there. *)
Record Browser : Type := {
  has_window : bool;
  getItem : string -> completion (option string)
}.

(** What [console.warn] prints in the [catch]. *)
Definition parse_warning : list string := ["Failed to parse rankings"%string].

(** The result is the array as parsed: the cast [as ScoreEntry[]] checks
    nothing.  The second component is what [console.warn] printed. *)
Definition loadRankings (P : Platform) (B : Browser)
  : completion (list JSON.value * list string) :=
  if negb (has_window B) then Normal ([], [])
  else
    try_catch
      (bind (getItem B SCORE_KEY) (fun raw =>
         match raw with
         | None => Normal ([], [])
         | Some EmptyString => Normal ([], [])
         | Some text =>
             bind (JSON_parse P text) (fun parsed =>
               match parsed with
               | JSON.Array items => Normal (items, [])
               | _ => Normal ([], [])
               end)
         end))
      (fun error => Normal ([], parse_warning)).

(** [sorted] is in order; [entry] goes before the first element that the
    comparator [(a, b) => a.moves - b.moves] puts after it. *)
Fixpoint insert_by_moves (entry : ScoreEntry.t) (sorted : list ScoreEntry.t)
  : list ScoreEntry.t :=
  match sorted with
  | [] => [entry]
  | x :: rest =>
      if ScoreEntry.moves entry - ScoreEntry.moves x <? 0
      then entry :: x :: rest
      else x :: insert_by_moves entry rest
  end.

(** [entries.sort((a, b) => a.moves - b.moves)].  The comparator is a
    consistent order and [Array.prototype.sort] is stable, so the result is
    the stable sort of the entries, whatever algorithm the engine runs; it
    is computed here by insertion from left to right. *)
Definition sort_by_moves (entries : list ScoreEntry.t) : list ScoreEntry.t :=
  fold_left (fun sorted entry => insert_by_moves entry sorted) entries [].

(** The list update of [persistRanking]:
    [[...previous, entry].sort((a, b) => a.moves - b.moves).slice(0, 8)]. *)
Definition recordResult (previous : list ScoreEntry.t) (entry : ScoreEntry.t)
  : list ScoreEntry.t :=
  firstn 8 (sort_by_moves (previous ++ [entry])).

(** ** Shuffling and random selection *)

(** [a === b] on two elements. *)
Definition elem_strict_eq (a b : JS.elem) : bool :=
  match a, b with
  | JS.Num x, JS.Num y => x =? y
  | JS.Num _, _ => false
  | _, JS.Num _ => false
  | _, _ => true
  end.

(** The condition of the [do ... while] of [shuffleBoard]. *)
Definition shuffle_again (candidate solved : JS.array) (size blankValue : Z) : bool :=
  negb (isSolvable candidate size)
  || JS.every (fun value idx => elem_strict_eq value (JS.get solved idx)) candidate
  || JS.strict_eq (JS.get candidate 0) blankValue.

(** The loop of [shuffleBoard], run for at most [fuel] rounds; [None] when
    the loop has not left after that many. *)
Fixpoint shuffle_loop (P : Platform) (fuel : nat) (w : World)
         (solved : JS.array) (size blankValue : Z) : option (JS.array * World) :=
  match fuel with
  | O => None
  | S fuel' =>
      let (candidate, w') := sort_random P w (JS.spread solved) in
      if shuffle_again candidate solved size blankValue
      then shuffle_loop P fuel' w' solved size blankValue
      else Some (candidate, w')
  end.

(** The world that the loop of [shuffleBoard] has reached after [k]
    rounds. *)
Fixpoint world_after (P : Platform) (k : nat) (w : World) (solved : JS.array) : World :=
  match k with
  | O => w
  | S k' => world_after P k' (snd (sort_random P w (JS.spread solved))) solved
  end.

Definition shuffleBoard (P : Platform) (fuel : nat) (w : World) (size : Z)
  : option (JS.array * World) :=
  let solved := createSolvedBoard size in
  let blankValue := JS.length solved - 1 in
  shuffle_loop P fuel w solved size blankValue.

(** [randomFrom(items, excludeId)]; [getId] reads the optional [id] of an
    entry.  The result is [None] when the indexed read gives [undefined]. *)
Definition randomFrom {T : Type} (getId : T -> option string) (items : list T)
           (excludeId : option string) (w : World) : completion (option T * World) :=
  if Z.of_nat (List.length items) =? 0
  then Throw "Cannot select from an empty array"
  else
    let filtered :=
      match excludeId with
      | Some (String c s) =>
          if 1 <? Z.of_nat (List.length items)
          then filter (fun entry =>
                         match getId entry with
                         | Some i => negb (String.eqb i (String c s))
                         | None => true
                         end) items
          else items
      | _ => items
      end in
    let (r, w') := Math_random w in
    let index := Qfloor (r * inject_Z (Z.of_nat (List.length filtered))) in
    Normal (nth_error filtered (Z.to_nat index), w').

(** The [id] of an image, as [randomFrom] reads it. *)
Definition image_id (entry : DemonImage.t) : option string :=
  Some (DemonImage.id entry).

(** [Math.floor(Math.random() * n)] for the next draw of [w].  The product
    is taken exactly.  The engine rounds it to a double before the floor,
    which can move the index at a draw next to a multiple of [1 / n] when
    [n] is no power of two; the index is below [n] either way. *)
Definition picked_index (w : World) (n : nat) : nat :=
  Z.to_nat (Qfloor (fst (Math_random w) * inject_Z (Z.of_nat n))).

(** [`${Date.now().toString(36)}-${Math.random().toString(36).slice(2, 7)}`] *)
Definition createId (P : Platform) (w : World) : string * World :=
  let (now, w1) := Date_now w in
  let (r, w2) := Math_random w1 in
  ((toString36 P (inject_Z now) ++ "-" ++ substring 2 5 (toString36 P r))%string,
   w2).

(** ** The component state and its handlers *)

Record App : Type := {
  difficultyId : string;
  currentImage : DemonImage.t;
  tiles : JS.array;
  moveCount : Z;
  status : PuzzleStatus;
  rankings : list ScoreEntry.t
}.

(** A handler runs to completion on the state of the last render, and the
    updates that it queues are applied together before the next event is
    handled: a handler is a function from the state to the next state.  An
    updater given to a setter is taken to run once.

    What a handler asks of its collaborators:
    [window.localStorage.setItem(key, JSON.stringify(entries))], the focus
    of the board that [focusBoard] defers, and [event.preventDefault ()]. *)
Inductive effect : Type :=
| SetItem (key : string) (entries : list ScoreEntry.t)
| FocusBoard
| PreventDefault.

(** [storeRankings(entries)], in a browser: the window is there. *)
Definition storeRankings (entries : list ScoreEntry.t) : list effect :=
  [SetItem SCORE_KEY entries].

Definition focusBoard : list effect := [FocusBoard].

(** The outcome of a handler that may run the shuffle loop. *)
Inductive run (A : Type) : Type :=
| Finished (a : A)
| Raised (message : string)
| Unfinished.
Arguments Finished {A} a.
Arguments Raised {A} message.
Arguments Unfinished {A}.

Definition find_difficulty (targetId : option string) : option DifficultyOption.t :=
  match targetId with
  | Some i => find (fun entry => String.eqb (DifficultyOption.id entry) i) difficulties
  | None => None
  end.

(** [difficulties.find((entry) => entry.id === difficultyId) ?? difficulties[0]] *)
Definition activeDifficulty (st : App) : DifficultyOption.t :=
  match find_difficulty (Some (difficultyId st)) with
  | Some entry => entry
  | None => easy
  end.

Definition tileCount (st : App) : Z :=
  DifficultyOption.size (activeDifficulty st) * DifficultyOption.size (activeDifficulty st).

Definition blankValue (st : App) : Z := tileCount st - 1.

Record StartOptions : Type := {
  randomImage : option bool;
  targetDifficultyId : option string
}.

Definition no_options : StartOptions :=
  {| randomImage := None; targetDifficultyId := None |}.

(** [startPuzzle(options)].  Should [randomFrom] give [undefined], the next
    render reads a property of it and raises. *)
Definition startPuzzle (P : Platform) (fuel : nat) (st : App) (options : StartOptions)
           (w : World) : run (App * World * list effect) :=
  let targetDifficulty :=
    match find_difficulty (targetDifficultyId options) with
    | Some entry => entry
    | None => activeDifficulty st
    end in
  let chosen :=
    match randomImage options with
    | Some true =>
        randomFrom image_id demonImages
                   (Some (DemonImage.id (currentImage st))) w
    | _ => Normal (Some (currentImage st), w)
    end in
  match chosen with
  | Throw m => Raised m
  | Normal (None, _) => Raised "currentImage is undefined"
  | Normal (Some nextImage, w1) =>
      match shuffleBoard P fuel w1 (DifficultyOption.size targetDifficulty) with
      | None => Unfinished
      | Some (board, w2) =>
          Finished ({| difficultyId := DifficultyOption.id targetDifficulty;
                       currentImage := nextImage;
                       tiles := board;
                       moveCount := 0;
                       status := playing;
                       rankings := rankings st |},
                    w2, focusBoard)
      end
  end.

(** The entry that [persistRanking(moves)] builds. *)
Definition new_entry (P : Platform) (st : App) (moves : Z) (w : World)
  : ScoreEntry.t * World :=
  let (entryId, w1) := createId P w in
  let (now, w2) := Date_now w1 in
  ({| ScoreEntry.id := entryId;
      ScoreEntry.imageId := DemonImage.id (currentImage st);
      ScoreEntry.imageLabel := DemonImage.label (currentImage st);
      ScoreEntry.difficultyId := DifficultyOption.id (activeDifficulty st);
      ScoreEntry.difficultyLabel := DifficultyOption.label (activeDifficulty st);
      ScoreEntry.size := DifficultyOption.size (activeDifficulty st);
      ScoreEntry.moves := moves;
      ScoreEntry.finishedAt := now |}, w2).

(** [persistRanking(moves)]: the new ranking list and the write to the store. *)
Definition persistRanking (P : Platform) (st : App) (moves : Z) (w : World)
  : list ScoreEntry.t * World * list effect :=
  let (entry, w') := new_entry P st moves w in
  let updated := recordResult (rankings st) entry in
  (updated, w', storeRankings updated).

(** [[a[i], a[j]] = [a[j], a[i]]]: both reads come first, then the write at
    [i], then the write at [j]. *)
Definition swap (a : JS.array) (i j : Z) : JS.array :=
  let first := JS.get a j in
  let second := JS.get a i in
  JS.set (JS.set a i first) j second.

Definition attemptMove (P : Platform) (st : App) (tileIndex : Z) (w : World)
  : App * World * list effect :=
  match status st with
  | playing =>
      let emptyIndex := JS.indexOf (tiles st) (blankValue st) in
      if negb (isAdjacent tileIndex emptyIndex (DifficultyOption.size (activeDifficulty st)))
      then (st, w, [])
      else
        let nextTiles := swap (JS.spread (tiles st)) tileIndex emptyIndex in
        let isDone := isSolved nextTiles in
        let updated := moveCount st + 1 in
        if isDone then
          let '(ranking, w', stored) := persistRanking P st updated w in
          ({| difficultyId := difficultyId st;
              currentImage := currentImage st;
              tiles := nextTiles;
              moveCount := updated;
              status := solved;
              rankings := ranking |}, w', stored)
        else
          ({| difficultyId := difficultyId st;
              currentImage := currentImage st;
              tiles := nextTiles;
              moveCount := updated;
              status := playing;
              rankings := rankings st |}, w, [])
  | _ => (st, w, [])
  end.

Definition handleTileClick (P : Platform) (st : App) (index : Z) (w : World)
  : App * World * list effect :=
  attemptMove P st index w.

Inductive key_action : Type :=
| SlideUp | SlideDown | SlideLeft | SlideRight | Restart | Ignored.

(** The [case] labels of the [switch (event.key)]. *)
Definition key_action_of (key : string) : key_action :=
  if String.eqb key "ArrowUp" || String.eqb key "w" || String.eqb key "W" then SlideUp
  else if String.eqb key "ArrowDown" || String.eqb key "s" || String.eqb key "S" then SlideDown
  else if String.eqb key "ArrowLeft" || String.eqb key "a" || String.eqb key "A" then SlideLeft
  else if String.eqb key "ArrowRight" || String.eqb key "d" || String.eqb key "D" then SlideRight
  else if String.eqb key " " || String.eqb key "Enter" then Restart
  else Ignored.

(** The tile the key slides, [-1] when the blank is at the edge. *)
Definition key_target (action : key_action) (emptyIndex size : Z) : Z :=
  let row := emptyIndex / size in
  let col := Z.rem emptyIndex size in
  match action with
  | SlideUp => if row <? size - 1 then emptyIndex + size else -1
  | SlideDown => if 0 <? row then emptyIndex - size else -1
  | SlideLeft => if col <? size - 1 then emptyIndex + 1 else -1
  | SlideRight => if 0 <? col then emptyIndex - 1 else -1
  | _ => -1
  end.

Definition handleKeyDown (P : Platform) (fuel : nat) (st : App) (key : string)
           (w : World) : run (App * World * list effect) :=
  match status st with
  | playing =>
      let emptyIndex := JS.indexOf (tiles st) (blankValue st) in
      let size := DifficultyOption.size (activeDifficulty st) in
      match key_action_of key with
      | Restart =>
          match startPuzzle P fuel st no_options w with
          | Finished (st', w', effects) => Finished (st', w', PreventDefault :: effects)
          | other => other
          end
      | Ignored => Finished (st, w, [])
      | action =>
          let target := key_target action emptyIndex size in
          if 0 <=? target then
            let '(st', w', effects) := attemptMove P st target w in
            Finished (st', w', PreventDefault :: effects)
          else Finished (st, w, [])
      end
  | _ => Finished (st, w, [])
  end.

Definition onDifficultyChange (P : Platform) (fuel : nat) (st : App) (targetId : string)
           (w : World) : run (App * World * list effect) :=
  startPuzzle P fuel st {| randomImage := None; targetDifficultyId := Some targetId |} w.

(** The click on the button "Random Demon Hunter". *)
Definition onRandomClick (P : Platform) (fuel : nat) (st : App) (w : World)
  : run (App * World * list effect) :=
  startPuzzle P fuel st {| randomImage := Some true; targetDifficultyId := None |} w.

(** The state of [App] at its first render, given the rankings loaded:
    [loaded] are the score entries of the array that [loadRankings]
    returned.  An array that holds something else has no state here. *)
Definition initialApp (loaded : list ScoreEntry.t) : App :=
  {| difficultyId := DifficultyOption.id easy;
     currentImage := starlit_reaper;
     tiles := [];
     moveCount := 0;
     status := idle;
     rankings := loaded |}.

(** ** Sessions *)

(** What the user can do: activate the tile drawn at [index], press a key
    on the board, choose a difficulty, press "Random Demon Hunter". *)
Inductive event : Type :=
| TileClick (index : Z)
| KeyDown (key : string)
| DifficultyChange (targetId : string)
| RandomClick.

Definition handle (P : Platform) (fuel : nat) (st : App) (e : event) (w : World)
  : run (App * World * list effect) :=
  match e with
  | TileClick index => Finished (handleTileClick P st index w)
  | KeyDown key => handleKeyDown P fuel st key w
  | DifficultyChange targetId => onDifficultyChange P fuel st targetId w
  | RandomClick => onRandomClick P fuel st w
  end.

Definition state_of (r : App * World * list effect) : App := fst (fst r).
Definition world_of (r : App * World * list effect) : World := snd (fst r).
Definition effects_of (r : App * World * list effect) : list effect := snd r.

(** The states of a session: what [startPuzzle] leaves, and what
    [attemptMove] makes of such a state when it is called with an index
    that [allowed] admits. *)
Inductive reachable (P : Platform) (allowed : App -> Z -> Prop) : App -> Prop :=
| reach_start (fuel : nat) (st : App) (options : StartOptions) (w : World)
              (st' : App) (w' : World) (effects : list effect) :
    startPuzzle P fuel st options w = Finished (st', w', effects) ->
    reachable P allowed st'
| reach_move (st : App) (tileIndex : Z) (w : World) :
    reachable P allowed st ->
    allowed st tileIndex ->
    reachable P allowed (state_of (attemptMove P st tileIndex w)).

Definition any_index (st : App) (tileIndex : Z) : Prop := True.

(** The indices of the cells of the board. *)
Definition board_index (st : App) (tileIndex : Z) : Prop :=
  0 <= tileIndex < tileCount st.

(** ** A reference platform

    One platform, on which the program can be run on concrete inputs: a
    JSON reader after the grammar of the standard, the insertion sort that
    engines use on short arrays, and base-36 text of rationals.  The
    properties below hold for every platform; this one serves the closed
    examples. *)

Module Reference.

Definition code (c : ascii) : Z := Z.of_N (N_of_ascii c).

Definition char_of (n : Z) : ascii := ascii_of_N (Z.to_N n).

Definition is_space (c : ascii) : bool :=
  (code c =? 32) || (code c =? 9) || (code c =? 10) || (code c =? 13).

Fixpoint skip_space (cs : list ascii) : list ascii :=
  match cs with
  | c :: t => if is_space c then skip_space t else cs
  | [] => []
  end.

Definition digit_of (c : ascii) : option Z :=
  if (48 <=? code c) && (code c <=? 57) then Some (code c - 48) else None.

Definition hex_of (c : ascii) : option Z :=
  if (48 <=? code c) && (code c <=? 57) then Some (code c - 48)
  else if (97 <=? code c) && (code c <=? 102) then Some (code c - 87)
  else if (65 <=? code c) && (code c <=? 70) then Some (code c - 55)
  else None.

(** The digits at the head of [cs]: their value after [acc], how many, and
    what follows. *)
Fixpoint take_digits (cs : list ascii) (acc : Z) (count : nat)
  : Z * nat * list ascii :=
  match cs with
  | c :: t =>
      match digit_of c with
      | Some d => take_digits t (acc * 10 + d) (S count)
      | None => (acc, count, cs)
      end
  | [] => (acc, count, [])
  end.

Definition parse_int (cs : list ascii) : option (Z * list ascii) :=
  match cs with
  | c :: t =>
      if code c =? 48 then Some (0, t)
      else match take_digits cs 0 0 with
           | (_, O, _) => None
           | (n, _, rest) => Some (n, rest)
           end
  | [] => None
  end.

Definition parse_frac (cs : list ascii) : option (Q * list ascii) :=
  match cs with
  | c :: t =>
      if code c =? 46 then
        match take_digits t 0 0 with
        | (_, O, _) => None
        | (n, count, rest) =>
            Some (Qmake n (Z.to_pos (10 ^ Z.of_nat count)), rest)
        end
      else Some (0%Q, cs)
  | [] => Some (0%Q, [])
  end.

Definition parse_exp (cs : list ascii) : option (Z * list ascii) :=
  match cs with
  | c :: t =>
      if (code c =? 101) || (code c =? 69) then
        let (negative, t') :=
          match t with
          | s :: u => if code s =? 45 then (true, u)
                      else if code s =? 43 then (false, u) else (false, t)
          | [] => (false, t)
          end in
        match take_digits t' 0 0 with
        | (_, O, _) => None
        | (n, _, rest) => Some (if negative then - n else n, rest)
        end
      else Some (0, cs)
  | [] => Some (0, [])
  end.

Definition scale (q : Q) (e : Z) : Q :=
  if 0 <=? e then (q * inject_Z (10 ^ e))%Q
  else (q / inject_Z (10 ^ (- e)))%Q.

Definition parse_number (cs : list ascii) : option (Q * list ascii) :=
  let (negative, cs1) :=
    match cs with
    | c :: t => if code c =? 45 then (true, t) else (false, cs)
    | [] => (false, cs)
    end in
  match parse_int cs1 with
  | None => None
  | Some (n, cs2) =>
      match parse_frac cs2 with
      | None => None
      | Some (f, cs3) =>
          match parse_exp cs3 with
          | None => None
          | Some (e, cs4) =>
              let q := scale (inject_Z n + f)%Q e in
              Some (Qred (if negative then - q else q)%Q, cs4)
          end
      end
  end.

(** A code unit as the bytes of its UTF-8 form. *)
Definition utf8 (u : Z) : list ascii :=
  if u <? 128 then [char_of u]
  else if u <? 2048 then [char_of (192 + u / 64); char_of (128 + u mod 64)]
  else [char_of (224 + u / 4096); char_of (128 + (u / 64) mod 64);
        char_of (128 + u mod 64)].

Definition simple_escape (c : ascii) : option ascii :=
  if code c =? 34 then Some (char_of 34)
  else if code c =? 92 then Some (char_of 92)
  else if code c =? 47 then Some (char_of 47)
  else if code c =? 98 then Some (char_of 8)
  else if code c =? 102 then Some (char_of 12)
  else if code c =? 110 then Some (char_of 10)
  else if code c =? 114 then Some (char_of 13)
  else if code c =? 116 then Some (char_of 9)
  else None.

(** The characters of a string, after the opening quote, up to the closing
    one; [acc] holds the characters read, last first. *)
Fixpoint parse_chars (cs : list ascii) (acc : list ascii)
  : option (string * list ascii) :=
  match cs with
  | [] => None
  | c :: t =>
      if code c =? 34 then Some (string_of_list_ascii (rev acc), t)
      else if code c =? 92 then
        match t with
        | e :: t1 =>
            if code e =? 117 then
              match t1 with
              | h1 :: h2 :: h3 :: h4 :: t2 =>
                  match hex_of h1, hex_of h2, hex_of h3, hex_of h4 with
                  | Some a, Some b, Some c', Some d =>
                      parse_chars t2
                        (rev (utf8 (((a * 16 + b) * 16 + c') * 16 + d)) ++ acc)
                  | _, _, _, _ => None
                  end
              | _ => None
              end
            else match simple_escape e with
                 | Some x => parse_chars t1 (x :: acc)
                 | None => None
                 end
        | [] => None
        end
      else if code c <? 32 then None
      else parse_chars t (c :: acc)
  end.

Definition expect (word : string) (cs : list ascii) : option (list ascii) :=
  let w := list_ascii_of_string word in
  if list_eq_dec ascii_dec (firstn (List.length w) cs) w
  then Some (skipn (List.length w) cs) else None.

Fixpoint parse_value (fuel : nat) (cs : list ascii) : option (JSON.value * list ascii) :=
  match fuel with
  | O => None
  | S fuel' =>
      match skip_space cs with
      | [] => None
      | c :: t =>
          if code c =? 110 then
            option_map (fun r => (JSON.Null, r)) (expect "null" (c :: t))
          else if code c =? 116 then
            option_map (fun r => (JSON.Bool true, r)) (expect "true" (c :: t))
          else if code c =? 102 then
            option_map (fun r => (JSON.Bool false, r)) (expect "false" (c :: t))
          else if code c =? 34 then
            option_map (fun '(s, r) => (JSON.String s, r)) (parse_chars t [])
          else if code c =? 91 then
            match skip_space t with
            | c' :: t' =>
                if code c' =? 93 then Some (JSON.Array [], t')
                else option_map (fun '(items, r) => (JSON.Array items, r))
                                (parse_elements fuel' t [])
            | [] => None
            end
          else if code c =? 123 then
            match skip_space t with
            | c' :: t' =>
                if code c' =? 125 then Some (JSON.Object [], t')
                else option_map (fun '(members, r) => (JSON.Object members, r))
                                (parse_members fuel' t [])
            | [] => None
            end
          else
            option_map (fun '(q, r) => (JSON.Number q, r)) (parse_number (c :: t))
      end
  end

with parse_elements (fuel : nat) (cs : list ascii) (acc : list JSON.value)
  : option (list JSON.value * list ascii) :=
  match fuel with
  | O => None
  | S fuel' =>
      match parse_value fuel' cs with
      | None => None
      | Some (v, rest) =>
          match skip_space rest with
          | c :: t =>
              if code c =? 44 then parse_elements fuel' t (v :: acc)
              else if code c =? 93 then Some (rev (v :: acc), t)
              else None
          | [] => None
          end
      end
  end

with parse_members (fuel : nat) (cs : list ascii) (acc : list (string * JSON.value))
  : option (list (string * JSON.value) * list ascii) :=
  match fuel with
  | O => None
  | S fuel' =>
      match skip_space cs with
      | q :: t =>
          if code q =? 34 then
            match parse_chars t [] with
            | None => None
            | Some (name, rest) =>
                match skip_space rest with
                | colon :: rest' =>
                    if code colon =? 58 then
                      match parse_value fuel' rest' with
                      | None => None
                      | Some (v, rest'') =>
                          match skip_space rest'' with
                          | c :: t' =>
                              if code c =? 44
                              then parse_members fuel' t' ((name, v) :: acc)
                              else if code c =? 125
                                   then Some (rev ((name, v) :: acc), t')
                                   else None
                          | [] => None
                          end
                      end
                    else None
                | [] => None
                end
            end
          else None
      | [] => None
      end
  end.

Definition parse (text : string) : option JSON.value :=
  let cs := list_ascii_of_string text in
  match parse_value (2 * List.length cs + 2) cs with
  | Some (v, rest) =>
      match skip_space rest with
      | [] => Some v
      | _ => None
      end
  | None => None
  end.


(** [JSON.parse]: a text that is not JSON throws.  Strings are kept as the
    bytes of their UTF-8 form, the members of an object in the order of the
    text. *)
Definition JSON_parse (text : string) : completion JSON.value :=
  match parse text with
  | Some v => Normal v
  | None => Throw "SyntaxError"
  end.

(** The inner loop of the insertion sort: [element] moves down past every
    [tmp] for which the comparator answers a positive number.  [before]
    holds the elements already placed, the nearest first. *)
Fixpoint insert_random (w : World) (element : JS.elem) (before : list JS.elem)
  : list JS.elem * World :=
  match before with
  | [] => ([element], w)
  | tmp :: rest =>
      let (r, w') := Math_random w in
      if Qlt_le_dec 0 (r - (1 # 2)) then
        let (rest', w'') := insert_random w' element rest in
        (tmp :: rest', w'')
      else (element :: tmp :: rest, w')
  end.

Fixpoint insertion_sort_random (w : World) (pending : list JS.elem)
         (before : list JS.elem) : list JS.elem * World :=
  match pending with
  | [] => (rev before, w)
  | element :: rest =>
      let (before', w') := insert_random w element before in
      insertion_sort_random w' rest before'
  end.

Definition is_number (v : JS.elem) : bool :=
  match v with JS.Num _ => true | _ => false end.

Definition is_undefined (v : JS.elem) : bool :=
  match v with JS.Undefined => true | _ => false end.

Definition is_hole (v : JS.elem) : bool :=
  match v with JS.Hole => true | _ => false end.

(** [a.sort(() => Math.random() - 0.5)]: the comparator is called on the
    numbers only; [undefined] goes behind them and the holes last. *)
Definition sort_random (w : World) (a : JS.array) : JS.array * World :=
  let (numbers, w') := insertion_sort_random w (filter is_number a) [] in
  (numbers ++ filter is_undefined a ++ filter is_hole a, w').

Definition digit36 (d : Z) : ascii :=
  if d <? 10 then char_of (48 + d) else char_of (87 + d).

Fixpoint integer36 (fuel : nat) (n : Z) (acc : string) : string :=
  match fuel with
  | O => acc
  | S fuel' =>
      let acc' := String.String (digit36 (n mod 36)) acc in
      if n / 36 =? 0 then acc' else integer36 fuel' (n / 36) acc'
  end.

Fixpoint fraction36 (fuel : nat) (q : Q) : string :=
  match fuel with
  | O => EmptyString
  | S fuel' =>
      if Qeq_bool q 0 then EmptyString
      else
        let d := Qfloor (q * 36) in
        String.String (digit36 d) (fraction36 fuel' (Qred (q * 36 - inject_Z d)))
  end.

(** [x.toString(36)] of a rational: the whole part, then at most eleven
    digits of the fraction. *)
Definition toString36 (x : Q) : string :=
  let negative := negb (Qle_bool 0 x) in
  let a := Qred (if negative then - x else x) in
  let whole := Qfloor a in
  let digits := integer36 (S (Z.to_nat (Z.log2 whole))) whole EmptyString in
  let frac := fraction36 11 (Qred (a - inject_Z whole)) in
  ((if negative then "-" else EmptyString)
   ++ digits
   ++ (match frac with EmptyString => EmptyString | _ => "." ++ frac end))%string.

Definition platform : Platform :=
  Build_Platform sort_random toString36 JSON_parse.

(** The draw of value [q], or of value [0] when [q] is not in [0, 1). *)
Definition draw_of (q : Q) : Draw :=
  match Sumbool.sumbool_of_bool (Qle_bool 0 q && negb (Qle_bool 1 q)) with
  | left H => {| draw_value := q; draw_range := H |}
  | right _ => {| draw_value := 0; draw_range := eq_refl |}
  end.

(** A session on the board [zs], with no move made and no result yet. *)
Definition session (difficulty : DifficultyOption.t) (zs : list Z) (s : PuzzleStatus)
  : App :=
  {| difficultyId := DifficultyOption.id difficulty;
     currentImage := starlit_reaper;
     tiles := map JS.Num zs;
     moveCount := 0;
     status := s;
     rankings := [] |}.

(** The session on the board 1 0 3 / 4 5 6 / 7 _ 2. *)
Definition sample_session : App := session easy [1; 0; 3; 4; 5; 6; 7; 8; 2] playing.

(** A browser whose store holds [text] under every key. *)
Definition browser_with (text : string) : Browser :=
  {| has_window := true; getItem := fun _ => Normal (Some text) |}.

(** The result of a game of [m] moves that ended at time [t]. *)
Definition result (name : string) (m t : Z) : ScoreEntry.t :=
  {| ScoreEntry.id := name;
     ScoreEntry.imageId := DemonImage.id starlit_reaper;
     ScoreEntry.imageLabel := DemonImage.label starlit_reaper;
     ScoreEntry.difficultyId := DifficultyOption.id easy;
     ScoreEntry.difficultyLabel := DifficultyOption.label easy;
     ScoreEntry.size := 3;
     ScoreEntry.moves := m;
     ScoreEntry.finishedAt := t |}.

(** The world whose random draws repeat [draws] for ever and whose clock
    shows [times], then [0]. *)
Definition world (draws : list Q) (times : list Z) : World :=
  {| randoms := fun n => draw_of (nth (n mod List.length draws) draws 0%Q);
     clock := fun n => nth n times 0 |}.

Definition sample_world : World :=
  world [3 # 4; 1 # 4] [1700000000000; 1700000000001].

End Reference.

(** ** The parity rule in the words of the specification *)

Module Spec.

(** The numbers [0 .. size² - 1] in ascending order. *)
Definition solved_numbers (size : Z) : list Z :=
  map Z.of_nat (seq 0 (Z.to_nat (size * size))).

(** A board of the data model: each of [0 .. size² - 1] exactly once. *)
Definition board (size : Z) (zs : list Z) : Prop :=
  Permutation zs (solved_numbers size).

Definition is_inversion (zs : list Z) (blank : Z) (p : nat * nat) : bool :=
  let (i, j) := p in
  (i <? j)%nat
  && negb (nth i zs 0 =? blank) && negb (nth j zs 0 =? blank)
  && (nth j zs 0 <? nth i zs 0).

(** The number of pairs of non-empty tiles that are out of order. *)
Definition inversions (zs : list Z) (blank : Z) : nat :=
  let idx := seq 0 (List.length zs) in
  List.length (filter (is_inversion zs blank) (list_prod idx idx)).

Definition parity_rule (size : Z) (inv : nat) (blankRowFromBottom : Z) : Prop :=
  (Z.Odd size -> Nat.Even inv) /\
  (Z.Even size ->
   (Z.Even blankRowFromBottom -> Nat.Odd inv) /\
   (Z.Odd blankRowFromBottom -> Nat.Even inv)).

(** [board], decided. *)
Definition is_board (size : Z) (zs : list Z) : bool :=
  (Z.of_nat (List.length zs) =? size * size)
  && forallb (fun v => existsb (Z.eqb v) zs) (solved_numbers size).

(** [index] is the cell of the grid at [row] and [col]. *)
Definition cell (size index row col : Z) : Prop :=
  0 <= row < size /\ 0 <= col < size /\ index = row * size + col.

(** Two cells are orthogonally adjacent: the same row and columns that
    differ by one, or the same column and rows that differ by one. *)
Definition adjacent (size a b : Z) : Prop :=
  exists ra ca rb cb,
    cell size a ra ca /\ cell size b rb cb /\
    ((ra = rb /\ Z.abs (ca - cb) = 1) \/ (ca = cb /\ Z.abs (ra - rb) = 1)).

(** The value of the member [name] of an object; of several members of
    that name the last one counts. *)
Definition member (name : string) (members : list (string * JSON.value))
  : option JSON.value :=
  fold_left (fun found m => if String.eqb (fst m) name then Some (snd m) else found)
            members None.

Definition is_text (v : option JSON.value) : bool :=
  match v with Some (JSON.String _) => true | _ => false end.

Definition is_count (v : option JSON.value) : bool :=
  match v with Some (JSON.Number _) => true | _ => false end.

(** A record with the fields of a score entry. *)
Definition is_score_entry (v : JSON.value) : bool :=
  match v with
  | JSON.Object members =>
      forallb (fun name => is_text (member name members))
              ["id"; "imageId"; "imageLabel"; "difficultyId"; "difficultyLabel"]%string
      && forallb (fun name => is_count (member name members))
                 ["size"; "moves"; "finishedAt"]%string
  | _ => false
  end.

(** The payload of the persisted state: an array of score entries. *)
Definition well_formed_payload (v : JSON.value) : bool :=
  match v with
  | JSON.Array items => forallb is_score_entry items
  | _ => false
  end.


Definition by_moves (a b : ScoreEntry.t) : Prop :=
  ScoreEntry.moves a <= ScoreEntry.moves b.

Definition has_moves (m : Z) (a : ScoreEntry.t) : bool := ScoreEntry.moves a =? m.

(** [kept] is what the ranking retains of the results [all], recorded in
    that order: at most eight of them, in ascending order of their moves,
    none with more moves than a result that was dropped, and the results
    with the same number of moves in the order in which they came, the
    earlier ones being the ones retained. *)
Definition keeps_lowest (all kept : list ScoreEntry.t) : Prop :=
  List.length kept = Nat.min 8 (List.length all) /\
  StronglySorted by_moves kept /\
  (exists dropped,
      Permutation (kept ++ dropped) all /\
      forall x y, In x kept -> In y dropped -> by_moves x y) /\
  (forall m, exists later,
      filter (has_moves m) all = filter (has_moves m) kept ++ later).

(** The state holds a board of the size of its difficulty. *)
Definition holds_board (st : App) (zs : list Z) : Prop :=
  tiles st = map JS.Num zs /\
  board (DifficultyOption.size (activeDifficulty st)) zs.

(** The board with the tiles at positions [i] and [j] exchanged. *)
Definition swapped (zs : list Z) (i j : nat) : list Z :=
  map (fun k => nth (if (k =? i)%nat then j else if (k =? j)%nat then i else k) zs 0)
      (seq 0 (List.length zs)).

End Spec.

(** ** Further definitions

    What the properties of the last part are stated with. *)

(** The array that holds [k], [k + 1], ... in [n] elements. *)
Definition ascending_from (k : nat) (n : nat) : JS.array :=
  map (fun i => JS.Num (Z.of_nat i)) (seq k n).

(** The tiles of [l] that are smaller than the tile [x]; the blank is no
    tile. *)
Definition smaller (blank x : Z) (l : list Z) : nat :=
  if x =? blank then 0%nat
  else List.length (filter (fun y => negb (y =? blank) && (y <? x)) l).

(** The tiles of [l] that are greater than the tile [x]. *)
Definition greater (blank x : Z) (l : list Z) : nat :=
  List.length (filter (fun y => negb (y =? blank) && (x <? y)) l).

(** The inversions of a list, counted from its head: each tile with the
    smaller tiles behind it. *)
Fixpoint inversions_of (blank : Z) (l : list Z) : nat :=
  match l with
  | [] => 0%nat
  | x :: rest => (smaller blank x rest + inversions_of blank rest)%nat
  end.

(** The inversions between a tile of [front] and a tile of [back]. *)
Fixpoint inversions_across (blank : Z) (front back : list Z) : nat :=
  match front with
  | [] => 0%nat
  | x :: rest => (smaller blank x back + inversions_across blank rest back)%nat
  end.

(** The answer of [isSolvable] for a board of [size] with [inv] inversions
    and its blank at [blankIndex]. *)
Definition solvable_by (size inv blankIndex : Z) : bool :=
  if Z.rem size 2 =? 1 then Z.rem inv 2 =? 0
  else if Z.rem (size - blankIndex / size) 2 =? 0 then Z.rem inv 2 =? 1
  else Z.rem inv 2 =? 0.

(** The tiles that are drawn, each with a button: [tiles.map(...)]. *)
Definition rendered (st : App) (index : Z) : Prop :=
  0 <= index < JS.length (tiles st).

(** The events that can come: a click needs the button of a tile. *)
Definition possible (st : App) (e : event) : Prop :=
  match e with
  | TileClick index => rendered st index
  | _ => True
  end.

(** The states of the component in the browser: the first puzzle, started
    by the effect of the first render from the rankings loaded, and what
    the handlers make of a state for the events that can come. *)
Inductive in_session (P : Platform) (loaded : list ScoreEntry.t) : App -> Prop :=
| session_mount (fuel : nat) (w : World) (st' : App) (w' : World)
                (effects : list effect) :
    startPuzzle P fuel (initialApp loaded) no_options w = Finished (st', w', effects) ->
    in_session P loaded st'
| session_event (fuel : nat) (st : App) (e : event) (w : World)
                (st' : App) (w' : World) (effects : list effect) :
    in_session P loaded st ->
    possible st e ->
    handle P fuel st e w = Finished (st', w', effects) ->
    in_session P loaded st'.

(** The difficulty that [startPuzzle(options)] takes. *)
Definition targetDifficulty (st : App) (options : StartOptions) : DifficultyOption.t :=
  match find_difficulty (targetDifficultyId options) with
  | Some entry => entry
  | None => activeDifficulty st
  end.

(** What holds of every state of a session. *)
Definition session_invariant (st : App) : Prop :=
  (exists zs, Spec.holds_board st zs) /\
  isSolvable (tiles st) (DifficultyOption.size (activeDifficulty st)) = true /\
  (status st = solved <-> isSolved (tiles st) = true) /\
  status st <> idle /\
  In (currentImage st) demonImages /\
  0 <= moveCount st.

(** The ranking lists that the effects of a handler write to the store. *)
Definition stored (effects : list effect) : list (list ScoreEntry.t) :=
  flat_map (fun e => match e with SetItem _ entries => [entries] | _ => [] end) effects.

(** A key that slides a tile. *)
Definition slides (action : key_action) : Prop :=
  action = SlideUp \/ action = SlideDown \/ action = SlideLeft \/ action = SlideRight.

(** What the board draws for the tile [value]: the row and the column of
    its piece of the image, and whether it is the empty space.  The text
    of the styles and of the labels is left out. *)
Record TileView : Type := {
  solvedRow : Z;
  solvedCol : Z;
  isBlank : bool
}.

Definition tileView (st : App) (value : Z) : TileView :=
  {| solvedRow := value / DifficultyOption.size (activeDifficulty st);
     solvedCol := Z.rem value (DifficultyOption.size (activeDifficulty st));
     isBlank := value =? blankValue st |}.

(** [tiles.map((value, index) => ...)]: the buttons of the board, in the
    order of the array.  An element that is no number has no piece of the
    image: its row and column are not numbers. *)
Definition renderTiles (st : App) : list (option TileView) :=
  map (fun e => match e with
                | JS.Num value => Some (tileView st value)
                | _ => None
                end) (tiles st).

(** The events whose handler starts a puzzle: the keys that restart, the
    choice of a difficulty, the button "Random Demon Hunter". *)
Definition starts_puzzle (e : event) : Prop :=
  match e with
  | TileClick _ => False
  | KeyDown key => key_action_of key = Restart
  | DifficultyChange _ => True
  | RandomClick => True
  end.

(** The value that [JSON.parse] reads for a score entry as
    [JSON.stringify] writes it: the members in the order of the object
    literal of [persistRanking]. *)
Definition entry_value (entry : ScoreEntry.t) : JSON.value :=
  JSON.Object
    [("id"%string, JSON.String (ScoreEntry.id entry));
     ("imageId"%string, JSON.String (ScoreEntry.imageId entry));
     ("imageLabel"%string, JSON.String (ScoreEntry.imageLabel entry));
     ("difficultyId"%string, JSON.String (ScoreEntry.difficultyId entry));
     ("difficultyLabel"%string, JSON.String (ScoreEntry.difficultyLabel entry));
     ("size"%string, JSON.Number (inject_Z (ScoreEntry.size entry)));
     ("moves"%string, JSON.Number (inject_Z (ScoreEntry.moves entry)));
     ("finishedAt"%string, JSON.Number (inject_Z (ScoreEntry.finishedAt entry)))].

(** [useState(() => loadRankings())] in the browser [B]: the array loaded
    holds the score entries [loaded], and nothing else. *)
Definition loads (P : Platform) (B : Browser) (loaded : list ScoreEntry.t) : Prop :=
  exists log, loadRankings P B = Normal (map entry_value loaded, log).

(** Draws for which the reference sort leaves 0 1 2 / 3 4 5 / 6 _ 7. *)
Definition near_solved_world : World :=
  Reference.world [1 # 4; 1 # 4; 1 # 4; 1 # 4; 1 # 4; 1 # 4; 1 # 4; 3 # 4; 1 # 4]
                  [1700000000000; 1700000000001].

(** ** Properties *)

Section Counting.

Lemma fold_count_inner (c : nat -> bool) (f : Z -> nat -> Z) (l : list nat) :
  (forall acc j, In j l -> f acc j = if c j then acc + 1 else acc) ->
  forall init,
    fold_left f l init = init + Z.of_nat (List.length (filter c l)).
Proof.
  induction l as [|j l IH]; intros Hf init; simpl.
  - lia.
  - rewrite IH by (intros; apply Hf; now right).
    rewrite Hf by now left. destruct (c j); simpl; lia.
Qed.

Lemma fold_count_outer (g : nat -> nat) (f : Z -> nat -> Z) (l : list nat) :
  (forall acc i, In i l -> f acc i = acc + Z.of_nat (g i)) ->
  forall init,
    fold_left f l init = init + Z.of_nat (list_sum (map g l)).
Proof.
  induction l as [|i l IH]; intros Hf init; simpl.
  - lia.
  - rewrite IH by (intros; apply Hf; now right).
    rewrite Hf by now left. lia.
Qed.

Lemma length_filter_list_prod {A B} (f : A * B -> bool) (l1 : list A) (l2 : list B) :
  List.length (filter f (list_prod l1 l2)) =
  list_sum (map (fun a => List.length (filter (fun b => f (a, b)) l2)) l1).
Proof.
  induction l1 as [|a l1 IH]; simpl; [reflexivity|].
  rewrite filter_app, length_app, IH. f_equal.
  clear. induction l2 as [|b l2 IH]; simpl; [reflexivity|].
  destruct (f (a, b)); simpl; now rewrite IH.
Qed.

Lemma filter_ext_in_length {A} (f g : A -> bool) (l : list A) :
  (forall a, In a l -> f a = g a) ->
  List.length (filter f l) = List.length (filter g l).
Proof.
  intros H. now rewrite (filter_ext_in _ _ _ H).
Qed.

Lemma filter_none {A} (f : A -> bool) (l : list A) :
  (forall a, In a l -> f a = false) -> filter f l = [].
Proof.
  induction l as [|a l IH]; intros H; simpl; [reflexivity|].
  rewrite (H a) by now left. apply IH. intros; apply H; now right.
Qed.

End Counting.

Section Inversions.

Lemma get_numbers (zs : list Z) (i : nat) :
  (i < List.length zs)%nat ->
  JS.get (map JS.Num zs) (Z.of_nat i) = JS.Num (nth i zs 0).
Proof.
  intros Hi. unfold JS.get, JS.length. rewrite length_map, Nat2Z.id.
  replace ((0 <=? Z.of_nat i) && (Z.of_nat i <? Z.of_nat (List.length zs)))
    with true by (symmetry; apply andb_true_iff; split; [apply Z.leb_le | apply Z.ltb_lt]; lia).
  rewrite (nth_indep _ JS.Undefined (JS.Num 0)) by now rewrite length_map.
  now rewrite (map_nth JS.Num).
Qed.

Lemma seq_split_at (i n : nat) :
  (i < n)%nat -> seq 0 n = seq 0 (i + 1) ++ seq (i + 1) (n - (i + 1)).
Proof.
  intros Hi. replace n with ((i + 1) + (n - (i + 1)))%nat at 1 by lia.
  now rewrite seq_app.
Qed.

Lemma countInversions_numbers (zs : list Z) (blank : Z) :
  countInversions (map JS.Num zs) blank = Z.of_nat (Spec.inversions zs blank).
Proof.
  unfold countInversions, Spec.inversions. rewrite length_map.
  set (n := List.length zs).
  rewrite length_filter_list_prod.
  rewrite (fold_count_outer
             (fun i => List.length
                         (filter (fun j => Spec.is_inversion zs blank (i, j)) (seq 0 n)))).
  - reflexivity.
  - intros acc i Hi. apply in_seq in Hi.
    assert (Hin : (i < n)%nat) by lia.
    rewrite (fold_count_inner
               (fun j => negb (nth i zs 0 =? blank) && negb (nth j zs 0 =? blank)
                         && (nth j zs 0 <? nth i zs 0))).
    + f_equal. f_equal. symmetry.
      rewrite (seq_split_at i n Hin), filter_app, length_app.
      rewrite (filter_none _ (seq 0 (i + 1))).
      * simpl. apply filter_ext_in_length. intros j Hj. apply in_seq in Hj.
        unfold Spec.is_inversion.
        replace (i <? j)%nat with true by (symmetry; apply Nat.ltb_lt; lia).
        reflexivity.
      * intros j Hj. apply in_seq in Hj. unfold Spec.is_inversion.
        replace (i <? j)%nat with false by (symmetry; apply Nat.ltb_ge; lia).
        reflexivity.
    + intros acc' j Hj. apply in_seq in Hj.
      rewrite !get_numbers by (fold n; lia). simpl.
      destruct (nth i zs 0 =? blank), (nth j zs 0 =? blank); reflexivity.
Qed.

Lemma indexOf_from_numbers (zs : list Z) (v : Z) :
  NoDup zs ->
  forall (k : nat) (i : Z),
    nth_error zs k = Some v ->
    JS.indexOf_from (map JS.Num zs) v i = i + Z.of_nat k.
Proof.
  induction 1 as [|z zs Hz Hnd IH]; intros k i Hk.
  - destruct k; discriminate.
  - destruct k as [|k]; simpl in *.
    + injection Hk as ->. rewrite Z.eqb_refl. lia.
    + destruct (Z.eqb_spec z v) as [->|_].
      * exfalso. apply Hz. eapply nth_error_In; eauto.
      * rewrite (IH k (i + 1) Hk). lia.
Qed.

Lemma indexOf_numbers (zs : list Z) (v : Z) (k : nat) :
  NoDup zs -> nth_error zs k = Some v ->
  JS.indexOf (map JS.Num zs) v = Z.of_nat k.
Proof.
  intros Hnd Hk. unfold JS.indexOf. now rewrite (indexOf_from_numbers zs v Hnd k 0 Hk).
Qed.

Lemma rem2_is_1 (x : Z) : 0 <= x -> (Z.rem x 2 =? 1) = true <-> Z.Odd x.
Proof.
  intros Hx. rewrite Z.rem_mod_nonneg, Z.eqb_eq by lia.
  pose proof (Z.div_mod x 2 ltac:(lia)). pose proof (Z.mod_pos_bound x 2 ltac:(lia)).
  split.
  - intros E. exists (x / 2). lia.
  - intros [m Hm]. lia.
Qed.

Lemma rem2_is_0 (x : Z) : 0 <= x -> (Z.rem x 2 =? 0) = true <-> Z.Even x.
Proof.
  intros Hx. rewrite Z.rem_mod_nonneg, Z.eqb_eq by lia.
  pose proof (Z.div_mod x 2 ltac:(lia)). pose proof (Z.mod_pos_bound x 2 ltac:(lia)).
  split.
  - intros E. exists (x / 2). lia.
  - intros [m Hm]. lia.
Qed.

Lemma Even_of_nat (n : nat) : Z.Even (Z.of_nat n) <-> Nat.Even n.
Proof.
  split; intros [m Hm].
  - exists (Z.to_nat m). lia.
  - exists (Z.of_nat m). lia.
Qed.

Lemma Odd_of_nat (n : nat) : Z.Odd (Z.of_nat n) <-> Nat.Odd n.
Proof.
  split; intros [m Hm].
  - exists (Z.to_nat m). lia.
  - exists (Z.of_nat m). lia.
Qed.

Lemma Z_Even_or_Odd_excl (x : Z) : (Z.Even x /\ ~ Z.Odd x) \/ (Z.Odd x /\ ~ Z.Even x).
Proof.
  destruct (Z.Even_or_Odd x) as [[m Hm]|[m Hm]]; [left|right]; split;
    try (now exists m); intros [k Hk]; lia.
Qed.

Lemma solved_numbers_NoDup (size : Z) : NoDup (Spec.solved_numbers size).
Proof.
  unfold Spec.solved_numbers. apply Injective_map_NoDup.
  - intros a b. apply Nat2Z.inj.
  - apply seq_NoDup.
Qed.

Lemma board_NoDup (size : Z) (zs : list Z) : Spec.board size zs -> NoDup zs.
Proof.
  intros Hb. eapply Permutation_NoDup; [symmetry; exact Hb|apply solved_numbers_NoDup].
Qed.

Lemma board_length (size : Z) (zs : list Z) :
  0 <= size -> Spec.board size zs -> Z.of_nat (List.length zs) = size * size.
Proof.
  intros Hs Hb. rewrite (Permutation_length Hb).
  unfold Spec.solved_numbers. rewrite length_map, length_seq. nia.
Qed.

(** C2.  On a board of the data model the code's [isSolvable] decides the
    parity rule of the specification: with the inversions counted over the
    pairs of non-empty tiles and the blank row counted from the bottom as
    [size - row blankIndex], an odd size is solvable iff the inversions are
    even, and an even size iff an even blank row goes with odd inversions
    and an odd blank row with even inversions. *)
Theorem isSolvable_parity_rule (size : Z) (zs : list Z) (blankIndex : nat) :
  0 < size ->
  Spec.board size zs ->
  nth_error zs blankIndex = Some (size * size - 1) ->
  isSolvable (map JS.Num zs) size = true <->
  Spec.parity_rule size (Spec.inversions zs (size * size - 1))
                   (size - Z.of_nat blankIndex / size).
Proof.
  intros Hs Hb Hk.
  pose proof (board_length size zs ltac:(lia) Hb) as Hlen.
  assert (Hlt : Z.of_nat blankIndex < size * size).
  { rewrite <- Hlen. apply Nat2Z.inj_lt. apply nth_error_Some. congruence. }
  assert (Hrow : 0 <= Z.of_nat blankIndex / size < size).
  { split; [apply Z.div_pos; lia | apply Z.div_lt_upper_bound; lia]. }
  unfold isSolvable, JS.length. rewrite length_map, Hlen.
  rewrite countInversions_numbers.
  rewrite (indexOf_numbers zs _ blankIndex (board_NoDup size zs Hb) Hk).
  set (inv := Spec.inversions zs (size * size - 1)).
  set (brow := size - Z.of_nat blankIndex / size).
  unfold Spec.parity_rule.
  pose proof (rem2_is_1 size ltac:(lia)) as Hodd.
  pose proof (rem2_is_0 brow ltac:(unfold brow; lia)) as Hbrow.
  pose proof (rem2_is_0 (Z.of_nat inv) ltac:(lia)) as Hinv0.
  pose proof (rem2_is_1 (Z.of_nat inv) ltac:(lia)) as Hinv1.
  rewrite Even_of_nat in Hinv0. rewrite Odd_of_nat in Hinv1.
  destruct (Z_Even_or_Odd_excl size) as [[Hse Hnso]|[Hso Hnse]].
  - destruct (Z.rem size 2 =? 1) eqn:E1; [exfalso; apply Hnso, Hodd; reflexivity|].
    destruct (Z_Even_or_Odd_excl brow) as [[Hbe Hnbo]|[Hbo Hnbe]].
    + destruct (Z.rem brow 2 =? 0) eqn:E2;
        [|exfalso; assert (false = true) by (apply Hbrow; exact Hbe); discriminate].
      rewrite Hinv1. split.
      * intros Hi. split; [intros; contradiction|]. split; [auto|intros; contradiction].
      * intros [_ H]. apply H; assumption.
    + destruct (Z.rem brow 2 =? 0) eqn:E2;
        [exfalso; apply Hnbe, Hbrow; reflexivity|].
      rewrite Hinv0. split.
      * intros Hi. split; [intros; contradiction|]. split; [intros; contradiction|auto].
      * intros [_ H]. apply H; assumption.
  - destruct (Z.rem size 2 =? 1) eqn:E1;
      [|exfalso; assert (false = true) by (apply Hodd; exact Hso); discriminate].
    rewrite Hinv0. split.
    + intros Hi. split; [auto|intros; contradiction].
    + intros [H _]. apply H; assumption.
Qed.

End Inversions.

Section Generator.

Lemma createSolvedBoard_numbers (size : Z) :
  createSolvedBoard size = map JS.Num (Spec.solved_numbers size).
Proof.
  unfold createSolvedBoard, Spec.solved_numbers. now rewrite map_map.
Qed.

Lemma spread_numbers (zs : list Z) : JS.spread (map JS.Num zs) = map JS.Num zs.
Proof.
  unfold JS.spread. rewrite map_map. reflexivity.
Qed.

Lemma solved_numbers_length (size : Z) :
  0 <= size -> Z.of_nat (List.length (Spec.solved_numbers size)) = size * size.
Proof.
  intros Hs. unfold Spec.solved_numbers. rewrite length_map, length_seq. nia.
Qed.

Lemma get_solved (size idx : Z) :
  0 <= idx < size * size -> JS.get (createSolvedBoard size) idx = JS.Num idx.
Proof.
  intros Hi. rewrite createSolvedBoard_numbers.
  rewrite <- (Z2Nat.id idx) at 1 by lia.
  assert (Hlt : (Z.to_nat idx < Z.to_nat (size * size))%nat) by lia.
  rewrite get_numbers
    by (unfold Spec.solved_numbers; now rewrite length_map, length_seq).
  unfold Spec.solved_numbers.
  rewrite (nth_indep _ 0 (Z.of_nat 0))
    by now rewrite length_map, length_seq.
  rewrite map_nth, seq_nth by exact Hlt. f_equal. lia.
Qed.

Lemma every_from_ext (p q : JS.elem -> Z -> bool) (a : JS.array) :
  forall i,
    (forall v idx, i <= idx < i + JS.length a -> p v idx = q v idx) ->
    JS.every_from p a i = JS.every_from q a i.
Proof.
  unfold JS.length. induction a as [|v a IH]; intros i H; simpl; [reflexivity|].
  rewrite (IH (i + 1)) by (intros; apply H; simpl List.length; lia).
  rewrite (H v i) by (simpl List.length; lia).
  reflexivity.
Qed.

Lemma shuffle_loop_exit (P : Platform) (solved : JS.array) (size blank : Z) :
  forall fuel w candidate w',
    shuffle_loop P fuel w solved size blank = Some (candidate, w') ->
    shuffle_again candidate solved size blank = false /\
    exists w0, candidate = fst (sort_random P w0 (JS.spread solved)).
Proof.
  induction fuel as [|fuel IH]; intros w candidate w' H; simpl in H; [discriminate|].
  destruct (sort_random P w (JS.spread solved)) as [c w1] eqn:Es.
  destruct (shuffle_again c solved size blank) eqn:Ea.
  - eapply IH; eauto.
  - injection H as <- <-. split; [assumption|].
    exists w. now rewrite Es.
Qed.

(** The result of the loop does not depend on the number of rounds
    allowed, once that number is enough. *)
Lemma shuffle_loop_more_fuel (P : Platform) (solved : JS.array) (size blank : Z) :
  forall fuel fuel' w r,
    (fuel <= fuel')%nat ->
    shuffle_loop P fuel w solved size blank = Some r ->
    shuffle_loop P fuel' w solved size blank = Some r.
Proof.
  induction fuel as [|fuel IH]; intros fuel' w r Hle H; simpl in H; [discriminate|].
  destruct fuel' as [|fuel']; [lia|]. simpl.
  destruct (sort_random P w (JS.spread solved)) as [c w1].
  destruct (shuffle_again c solved size blank).
  - apply IH; [lia|assumption].
  - assumption.
Qed.

(** The loop returns as soon as a candidate passes the three tests: if
    the candidate of round [k] does, any fuel above [k] gives a result. *)
Lemma shuffle_loop_returns (P : Platform) (solved : JS.array) (size blank : Z) :
  forall k fuel w,
    (k < fuel)%nat ->
    shuffle_again (fst (sort_random P (world_after P k w solved) (JS.spread solved)))
                  solved size blank = false ->
    exists r, shuffle_loop P fuel w solved size blank = Some r.
Proof.
  induction k as [|k IH]; intros fuel w Hlt Hacc;
    (destruct fuel as [|fuel]; [lia|]); simpl in *.
  - destruct (sort_random P w (JS.spread solved)) as [c w1]. simpl in Hacc.
    rewrite Hacc. now eexists.
  - destruct (sort_random P w (JS.spread solved)) as [c w1] eqn:Es. simpl in Hacc.
    destruct (shuffle_again c solved size blank); [|now eexists].
    apply IH; [lia|assumption].
Qed.

Lemma shuffleBoard_exit
      (P : Platform) (fuel : nat) (w w' : World) (size : Z) (board : JS.array) :
  sort_rearranges P ->
  0 < size ->
  shuffleBoard P fuel w size = Some (board, w') ->
  (exists zs, board = map JS.Num zs /\ Spec.board size zs) /\
  isSolvable board size = true /\
  isSolved board = false /\
  board <> createSolvedBoard size /\
  JS.get board 0 <> JS.Num (size * size - 1).
Proof.
  intros Hsort Hpos Hrun.
  unfold shuffleBoard in Hrun.
  apply shuffle_loop_exit in Hrun as [Hexit [w0 Hc]].
  assert (Hperm : Permutation board (createSolvedBoard size)).
  { pose proof (Hsort w0 (JS.spread (createSolvedBoard size))) as H.
    rewrite <- Hc in H.
    rewrite createSolvedBoard_numbers, spread_numbers in H.
    now rewrite createSolvedBoard_numbers. }
  rewrite createSolvedBoard_numbers in Hperm.
  destruct (Permutation_map_inv _ _ Hperm) as [zs [Hb Hzs]].
  assert (Hboard : Spec.board size zs) by (unfold Spec.board; now symmetry).
  pose proof (board_length size zs ltac:(lia) Hboard) as Hlen.
  unfold shuffle_again in Hexit.
  apply orb_false_iff in Hexit as [Hexit Hblank].
  apply orb_false_iff in Hexit as [Hsolv Hsame].
  apply negb_false_iff in Hsolv.
  assert (Hnot : isSolved board = false).
  { rewrite <- Hsame. unfold isSolved, JS.every. apply every_from_ext.
    intros v idx Hidx. rewrite get_solved.
    - destruct v; reflexivity.
    - unfold JS.length in Hidx. rewrite Hb, length_map in Hidx. lia. }
  repeat split.
  - exists zs. split; assumption.
  - assumption.
  - assumption.
  - intros E. rewrite E in Hnot. revert Hnot.
    unfold isSolved, JS.every. rewrite createSolvedBoard_numbers.
    unfold Spec.solved_numbers. clear.
    assert (G : forall n k, JS.every_from
                              (fun value index => JS.strict_eq value index)
                              (map JS.Num (map Z.of_nat (seq k n))) (Z.of_nat k) = true).
    { induction n as [|n IH]; intros k; simpl; [reflexivity|].
      rewrite Z.eqb_refl. simpl.
      replace (Z.of_nat k + 1) with (Z.of_nat (S k)) by lia. apply IH. }
    rewrite (G _ 0%nat). discriminate.
  - intros E. rewrite E in Hblank. simpl in Hblank.
    unfold JS.length in Hblank. rewrite createSolvedBoard_numbers, length_map in Hblank.
    rewrite solved_numbers_length in Hblank by lia.
    rewrite Z.eqb_refl in Hblank. discriminate.
Qed.

(** C1.  A board that [shuffleBoard] returns for a size of the catalog is a
    permutation of [0 .. size² - 1], passes [isSolvable], is not the solved
    board, and does not hold the blank [size² - 1] at index [0]. *)
Theorem shuffleBoard_returns_playable_board
        (P : Platform) (fuel : nat) (w w' : World) (size : Z) (board : JS.array) :
  sort_rearranges P ->
  In size [3; 4; 5] ->
  shuffleBoard P fuel w size = Some (board, w') ->
  (exists zs, board = map JS.Num zs /\ Spec.board size zs) /\
  isSolvable board size = true /\
  isSolved board = false /\
  board <> createSolvedBoard size /\
  JS.get board 0 <> JS.Num (size * size - 1).
Proof.
  intros Hsort Hsize. apply shuffleBoard_exit; [assumption|].
  simpl in Hsize. lia.
Qed.

End Generator.

Section Boards.

Lemma is_board_sound (size : Z) (zs : list Z) :
  0 <= size -> Spec.is_board size zs = true -> Spec.board size zs.
Proof.
  intros Hs H. apply andb_true_iff in H as [Hlen Hall].
  apply Z.eqb_eq in Hlen. unfold Spec.board. symmetry.
  apply NoDup_Permutation_bis.
  - apply solved_numbers_NoDup.
  - pose proof (solved_numbers_length size Hs). lia.
  - intros v Hv. rewrite forallb_forall in Hall. specialize (Hall v Hv).
    apply existsb_exists in Hall as [x [Hx E]]. apply Z.eqb_eq in E. now subst.
Qed.

Lemma map_Num_inj (xs ys : list Z) : map JS.Num xs = map JS.Num ys -> xs = ys.
Proof.
  revert ys. induction xs as [|x xs IH]; intros [|y ys] E; simpl in E;
    try discriminate; [reflexivity|].
  injection E as -> E. f_equal. now apply IH.
Qed.

Lemma update_length (a : JS.array) (n : nat) (v : JS.elem) :
  List.length (JS.update a n v) = List.length a.
Proof.
  revert n. induction a as [|h a IH]; intros [|n]; simpl; auto.
Qed.

Lemma nth_update (a : JS.array) (n k : nat) (v d : JS.elem) :
  (n < List.length a)%nat ->
  nth k (JS.update a n v) d = if (k =? n)%nat then v else nth k a d.
Proof.
  revert n k. induction a as [|h a IH]; intros n k Hn; simpl in Hn; [lia|].
  destruct n as [|n], k as [|k]; simpl; try reflexivity.
  apply IH. lia.
Qed.

Lemma set_in_range (a : JS.array) (i : nat) (v : JS.elem) :
  (i < List.length a)%nat -> JS.set a (Z.of_nat i) v = JS.update a i v.
Proof.
  intros Hi. unfold JS.set, JS.length.
  destruct (Z.ltb_spec (Z.of_nat i) 0); [lia|].
  destruct (Z.ltb_spec (Z.of_nat i) (Z.of_nat (List.length a))); [|lia].
  now rewrite Nat2Z.id.
Qed.

Lemma swapped_length (zs : list Z) (i j : nat) :
  List.length (Spec.swapped zs i j) = List.length zs.
Proof.
  unfold Spec.swapped. now rewrite length_map, length_seq.
Qed.

Lemma nth_swapped (zs : list Z) (i j k : nat) :
  (k < List.length zs)%nat ->
  nth k (Spec.swapped zs i j) 0 =
  nth (if (k =? i)%nat then j else if (k =? j)%nat then i else k) zs 0.
Proof.
  intros Hk. unfold Spec.swapped.
  rewrite (nth_indep _ 0 (nth (if (0 =? i)%nat then j else if (0 =? j)%nat then i else 0%nat) zs 0))
    by now rewrite length_map, length_seq.
  rewrite (map_nth (fun k => nth (if (k =? i)%nat then j else if (k =? j)%nat then i else k) zs 0)).
  now rewrite seq_nth.
Qed.

Lemma swap_numbers (zs : list Z) (i j : nat) :
  (i < List.length zs)%nat -> (j < List.length zs)%nat ->
  swap (JS.spread (map JS.Num zs)) (Z.of_nat i) (Z.of_nat j) =
  map JS.Num (Spec.swapped zs i j).
Proof.
  intros Hi Hj. rewrite spread_numbers. unfold swap.
  rewrite !get_numbers by assumption.
  rewrite (set_in_range (map JS.Num zs) i) by now rewrite length_map.
  rewrite set_in_range by now rewrite update_length, length_map.
  apply (nth_ext _ _ JS.Undefined (JS.Num 0)).
  - now rewrite !update_length, !length_map, swapped_length.
  - intros k Hk. rewrite !update_length, length_map in Hk.
    rewrite nth_update by now rewrite update_length, length_map.
    rewrite nth_update by now rewrite length_map.
    rewrite (map_nth JS.Num), nth_swapped by assumption.
    destruct (Nat.eqb_spec k j) as [->|Hkj].
    + destruct (Nat.eqb_spec j i) as [->|_]; reflexivity.
    + destruct (Nat.eqb_spec k i) as [->|_]; [reflexivity|].
      rewrite (nth_indep _ JS.Undefined (JS.Num 0)) by now rewrite length_map.
      now rewrite (map_nth JS.Num).
Qed.

Lemma swapped_involutive (zs : list Z) (i j : nat) :
  (i < List.length zs)%nat -> (j < List.length zs)%nat ->
  Spec.swapped (Spec.swapped zs i j) j i = zs.
Proof.
  intros Hi Hj. apply (nth_ext _ _ 0 0).
  - now rewrite !swapped_length.
  - intros k Hk. rewrite !swapped_length in Hk.
    rewrite nth_swapped by now rewrite swapped_length.
    destruct (Nat.eqb_spec k j) as [->|Hkj].
    + rewrite nth_swapped by assumption. now rewrite Nat.eqb_refl.
    + destruct (Nat.eqb_spec k i) as [->|Hki].
      * rewrite nth_swapped by assumption.
        destruct (Nat.eqb_spec j i) as [->|_]; [reflexivity|].
        now rewrite Nat.eqb_refl.
      * rewrite nth_swapped by assumption.
        destruct (Nat.eqb_spec k i); [contradiction|].
        destruct (Nat.eqb_spec k j); [contradiction|reflexivity].
Qed.

Lemma swapped_Permutation (zs : list Z) (i j : nat) :
  (i < List.length zs)%nat -> (j < List.length zs)%nat ->
  Permutation zs (Spec.swapped zs i j).
Proof.
  intros Hi Hj. apply Permutation_nth_error. split.
  - symmetry. apply swapped_length.
  - exists (fun k => if (k =? i)%nat then j else if (k =? j)%nat then i else k).
    split.
    + intros x y.
      destruct (Nat.eqb_spec x i), (Nat.eqb_spec y i),
               (Nat.eqb_spec x j), (Nat.eqb_spec y j); lia.
    + intros k. destruct (Nat.lt_ge_cases k (List.length zs)) as [Hk|Hk].
      * rewrite (nth_error_nth' _ 0) by now rewrite swapped_length.
        rewrite nth_swapped by assumption.
        symmetry. apply nth_error_nth'.
        destruct (Nat.eqb_spec k i); [assumption|].
        destruct (Nat.eqb_spec k j); assumption.
      * destruct (Nat.eqb_spec k i); [lia|].
        destruct (Nat.eqb_spec k j); [lia|].
        transitivity (@None Z); [|symmetry]; apply nth_error_None;
          rewrite ?swapped_length; assumption.
Qed.

Lemma swapped_board (size : Z) (zs : list Z) (i j : nat) :
  Spec.board size zs ->
  (i < List.length zs)%nat -> (j < List.length zs)%nat ->
  Spec.board size (Spec.swapped zs i j).
Proof.
  intros Hb Hi Hj. unfold Spec.board in *.
  rewrite <- Hb. symmetry. now apply swapped_Permutation.
Qed.

Lemma swapped_differs (zs : list Z) (i j : nat) :
  NoDup zs -> (i < List.length zs)%nat -> (j < List.length zs)%nat -> i <> j ->
  Spec.swapped zs i j <> zs.
Proof.
  intros Hnd Hi Hj Hij E.
  assert (H : nth i (Spec.swapped zs i j) 0 = nth i zs 0) by now rewrite E.
  rewrite nth_swapped, Nat.eqb_refl in H by assumption.
  rewrite NoDup_nth in Hnd. specialize (Hnd j i Hj Hi H). lia.
Qed.

End Boards.

Section Moves.

Lemma isAdjacent_sym (a b size : Z) : isAdjacent a b size = isAdjacent b a size.
Proof.
  unfold isAdjacent.
  rewrite (Z.eqb_sym (a / size) (b / size)), (Z.eqb_sym (Z.rem a size) (Z.rem b size)).
  replace (Z.rem b size - Z.rem a size) with (- (Z.rem a size - Z.rem b size)) by ring.
  replace (b / size - a / size) with (- (a / size - b / size)) by ring.
  now rewrite !Z.abs_opp.
Qed.

Lemma isAdjacent_irrefl (a size : Z) : isAdjacent a a size = false.
Proof.
  unfold isAdjacent. rewrite !Z.sub_diag. simpl. now rewrite !andb_false_r.
Qed.

Lemma cell_unique (size index row col : Z) :
  Spec.cell size index row col -> row = index / size /\ col = Z.rem index size.
Proof.
  intros (Hr & Hc & ->).
  assert (Hq : row = (row * size + col) / size)
    by (apply (Z.div_unique _ size row col); lia).
  split; [exact Hq|].
  rewrite Z.rem_mod_nonneg by nia.
  apply (Z.mod_unique _ size row col); lia.
Qed.

Lemma cell_of_index (size index : Z) :
  0 < size -> 0 <= index < size * size ->
  Spec.cell size index (index / size) (Z.rem index size).
Proof.
  intros Hs Hi. rewrite Z.rem_mod_nonneg by lia.
  pose proof (Z.div_mod index size ltac:(lia)).
  pose proof (Z.mod_pos_bound index size Hs).
  repeat split; try lia.
  - apply Z.div_pos; lia.
  - apply Z.div_lt_upper_bound; lia.
Qed.

Lemma adjacent_in_range (size a b : Z) :
  Spec.adjacent size a b -> 0 <= a < size * size /\ 0 <= b < size * size.
Proof.
  intros (ra & ca & rb & cb & (Hra & Hca & ->) & (Hrb & Hcb & ->) & _). nia.
Qed.

Lemma isAdjacent_cells (size a b : Z) :
  0 < size -> 0 <= a < size * size -> 0 <= b < size * size ->
  isAdjacent a b size = true <-> Spec.adjacent size a b.
Proof.
  intros Hs Ha Hb. split.
  - intros H. exists (a / size), (Z.rem a size), (b / size), (Z.rem b size).
    split; [now apply cell_of_index|]. split; [now apply cell_of_index|].
    unfold isAdjacent in H. apply orb_true_iff in H as [H|H];
      apply andb_true_iff in H as [H1 H2];
      apply Z.eqb_eq in H1; apply Z.eqb_eq in H2; [left|right]; now split.
  - intros (ra & ca & rb & cb & Hca & Hcb & H).
    apply cell_unique in Hca as [-> ->]. apply cell_unique in Hcb as [-> ->].
    unfold isAdjacent. apply orb_true_iff.
    destruct H as [[H1 H2]|[H1 H2]]; [left|right];
      apply andb_true_iff; split; now apply Z.eqb_eq.
Qed.

Lemma activeDifficulty_cases (st : App) :
  activeDifficulty st = easy \/ activeDifficulty st = standard \/
  activeDifficulty st = expert.
Proof.
  unfold activeDifficulty, find_difficulty, difficulties, find.
  destruct (String.eqb (DifficultyOption.id easy) (difficultyId st)); [now left|].
  destruct (String.eqb (DifficultyOption.id standard) (difficultyId st)); [now right; left|].
  destruct (String.eqb (DifficultyOption.id expert) (difficultyId st)); [now right; right|].
  now left.
Qed.

Lemma activeDifficulty_size (st : App) :
  In (DifficultyOption.size (activeDifficulty st)) [3; 4; 5].
Proof.
  destruct (activeDifficulty_cases st) as [-> | [-> | ->]]; simpl; auto.
Qed.

Lemma blank_position (size : Z) (zs : list Z) :
  0 < size -> Spec.board size zs ->
  exists e, nth_error zs e = Some (size * size - 1) /\ (e < List.length zs)%nat.
Proof.
  intros Hs Hb.
  assert (Hin : In (size * size - 1) zs).
  { apply (Permutation_in _ (Permutation_sym Hb)).
    unfold Spec.solved_numbers. apply in_map_iff.
    exists (Z.to_nat (size * size - 1)). split; [nia|]. apply in_seq. nia. }
  apply In_nth_error in Hin as [e He]. exists e. split; [assumption|].
  apply nth_error_Some. congruence.
Qed.

Lemma attemptMove_rejects (P : Platform) (st : App) (tileIndex : Z) (w : World) :
  status st = playing ->
  isAdjacent tileIndex (JS.indexOf (tiles st) (blankValue st))
             (DifficultyOption.size (activeDifficulty st)) = false ->
  attemptMove P st tileIndex w = (st, w, []).
Proof.
  intros Hst Hadj. unfold attemptMove. now rewrite Hst, Hadj.
Qed.

Lemma attemptMove_not_playing (P : Platform) (st : App) (tileIndex : Z) (w : World) :
  status st <> playing -> attemptMove P st tileIndex w = (st, w, []).
Proof.
  intros Hst. unfold attemptMove. destruct (status st); congruence.
Qed.

Lemma attemptMove_accepts (P : Platform) (st : App) (tileIndex : Z) (w : World) :
  status st = playing ->
  isAdjacent tileIndex (JS.indexOf (tiles st) (blankValue st))
             (DifficultyOption.size (activeDifficulty st)) = true ->
  let next := swap (JS.spread (tiles st)) tileIndex
                   (JS.indexOf (tiles st) (blankValue st)) in
  let entry := new_entry P st (moveCount st + 1) w in
  attemptMove P st tileIndex w =
  if isSolved next
  then ({| difficultyId := difficultyId st;
           currentImage := currentImage st;
           tiles := next;
           moveCount := moveCount st + 1;
           status := solved;
           rankings := recordResult (rankings st) (fst entry) |},
        snd entry,
        storeRankings (recordResult (rankings st) (fst entry)))
  else ({| difficultyId := difficultyId st;
           currentImage := currentImage st;
           tiles := next;
           moveCount := moveCount st + 1;
           status := playing;
           rankings := rankings st |}, w, []).
Proof.
  intros Hst Hadj. unfold attemptMove. rewrite Hst, Hadj. simpl.
  unfold persistRanking.
  destruct (new_entry P st (moveCount st + 1) w) as [entry w'].
  reflexivity.
Qed.

End Moves.

Section MoveValidator.

Variable P : Platform.

Lemma board_setup (st : App) (zs : list Z) :
  Spec.holds_board st zs ->
  0 < DifficultyOption.size (activeDifficulty st) /\
  Z.of_nat (List.length zs) = tileCount st /\
  exists e, (e < List.length zs)%nat /\
            nth_error zs e = Some (blankValue st) /\
            JS.indexOf (tiles st) (blankValue st) = Z.of_nat e.
Proof.
  intros [Ht Hb].
  assert (Hs : 0 < DifficultyOption.size (activeDifficulty st)).
  { pose proof (activeDifficulty_size st) as H. simpl in H. lia. }
  split; [exact Hs|]. split.
  - unfold tileCount. apply board_length; [lia|assumption].
  - destruct (blank_position _ zs Hs Hb) as [e [He Hlt]].
    exists e. split; [assumption|]. split; [exact He|].
    rewrite Ht. apply indexOf_numbers; [eapply board_NoDup; eauto|exact He].
Qed.

Lemma attemptMove_tiles (st : App) (zs : list Z) (tileIndex : Z) (w : World) (e : nat) :
  status st = playing ->
  Spec.holds_board st zs ->
  board_index st tileIndex ->
  JS.indexOf (tiles st) (blankValue st) = Z.of_nat e ->
  (e < List.length zs)%nat ->
  isAdjacent tileIndex (Z.of_nat e) (DifficultyOption.size (activeDifficulty st)) = true ->
  tiles (state_of (attemptMove P st tileIndex w)) =
  map JS.Num (Spec.swapped zs (Z.to_nat tileIndex) e).
Proof.
  intros Hst Hb Hidx He Hlt Hadj.
  destruct (board_setup st zs Hb) as (Hs & Hlen & _).
  destruct Hb as [Ht Hb]. unfold board_index in Hidx.
  rewrite <- He in Hadj.
  rewrite (attemptMove_accepts P st tileIndex w Hst Hadj).
  rewrite He, Ht.
  assert (Hsw : swap (JS.spread (map JS.Num zs)) tileIndex (Z.of_nat e) =
                map JS.Num (Spec.swapped zs (Z.to_nat tileIndex) e)).
  { rewrite <- (Z2Nat.id tileIndex) at 1 by lia. apply swap_numbers; lia. }
  rewrite Hsw. destruct (isSolved _); reflexivity.
Qed.

(** The tile that a key slides is a cell of the board next to the blank. *)
Lemma key_target_adjacent (st : App) (zs : list Z) (action : key_action) :
  Spec.holds_board st zs ->
  let size := DifficultyOption.size (activeDifficulty st) in
  let emptyIndex := JS.indexOf (tiles st) (blankValue st) in
  0 <= key_target action emptyIndex size ->
  Spec.adjacent size (key_target action emptyIndex size) emptyIndex /\
  board_index st (key_target action emptyIndex size).
Proof.
  intros Hb size emptyIndex Ht.
  destruct (board_setup st zs Hb) as (Hs & Hlen & e & Hlt & He & Hix).
  fold size in Hs. unfold tileCount in Hlen. fold size in Hlen.
  subst emptyIndex. rewrite Hix in *.
  assert (Hcell : Spec.cell size (Z.of_nat e) (Z.of_nat e / size) (Z.rem (Z.of_nat e) size))
    by (apply cell_of_index; lia).
  assert (Hadj : Spec.adjacent size (key_target action (Z.of_nat e) size) (Z.of_nat e)).
  { pose proof Hcell as (Hr & Hc & Hi).
    set (row := Z.of_nat e / size) in *. set (col := Z.rem (Z.of_nat e) size) in *.
    unfold key_target in *. fold row col in Ht |- *.
    destruct action.
    - destruct (Z.ltb_spec row (size - 1)); [|lia].
      exists (row + 1), col, row, col.
      split; [repeat split; lia|]. split; [exact Hcell|]. right. split; lia.
    - destruct (Z.ltb_spec 0 row); [|lia].
      exists (row - 1), col, row, col.
      split; [repeat split; lia|]. split; [exact Hcell|]. right. split; lia.
    - destruct (Z.ltb_spec col (size - 1)); [|lia].
      exists row, (col + 1), row, col.
      split; [repeat split; lia|]. split; [exact Hcell|]. left. split; lia.
    - destruct (Z.ltb_spec 0 col); [|lia].
      exists row, (col - 1), row, col.
      split; [repeat split; lia|]. split; [exact Hcell|]. left. split; lia.
    - lia.
    - lia. }
  split; [exact Hadj|].
  apply adjacent_in_range in Hadj. unfold board_index, tileCount. fold size. lia.
Qed.

(** C3, as the code has it.  On a board of the data model and for the
    index of one of its cells: while the session is playing, [attemptMove]
    changes the board iff the cell is orthogonally adjacent to the cell of
    the blank, the new board is then the old one with the two positions
    exchanged, and otherwise nothing at all changes; while the session is
    not playing, nothing changes either. *)
Theorem attemptMove_swaps_iff_adjacent_while_playing
        (st : App) (zs : list Z) (tileIndex : Z) (w : World) :
  Spec.holds_board st zs ->
  board_index st tileIndex ->
  let size := DifficultyOption.size (activeDifficulty st) in
  let emptyIndex := JS.indexOf (tiles st) (blankValue st) in
  let r := attemptMove P st tileIndex w in
  (status st = playing ->
   (tiles (state_of r) <> tiles st <-> Spec.adjacent size tileIndex emptyIndex) /\
   (Spec.adjacent size tileIndex emptyIndex ->
    tiles (state_of r) =
    map JS.Num (Spec.swapped zs (Z.to_nat tileIndex) (Z.to_nat emptyIndex))) /\
   (~ Spec.adjacent size tileIndex emptyIndex -> r = (st, w, []))) /\
  (status st <> playing -> r = (st, w, [])).
Proof.
  intros Hb Hidx size emptyIndex r.
  split; [|intros Hst; subst r; now apply attemptMove_not_playing].
  intros Hst.
  destruct (board_setup st zs Hb) as (Hs & Hlen & e & Hlt & He & Hix).
  fold size in Hs. subst emptyIndex. rewrite Hix. rewrite Nat2Z.id.
  pose proof Hidx as Hidx'. unfold board_index, tileCount in Hidx'. fold size in Hidx'.
  unfold tileCount in Hlen. fold size in Hlen.
  assert (Hcells : isAdjacent tileIndex (Z.of_nat e) size = true <->
                   Spec.adjacent size tileIndex (Z.of_nat e))
    by (apply isAdjacent_cells; lia).
  destruct (isAdjacent tileIndex (Z.of_nat e) size) eqn:Hadj.
  - assert (Hnew : tiles (state_of r) =
                   map JS.Num (Spec.swapped zs (Z.to_nat tileIndex) e))
      by (subst r; now apply attemptMove_tiles).
    assert (Hne : Z.to_nat tileIndex <> e).
    { intros <-. rewrite Z2Nat.id, isAdjacent_irrefl in Hadj by lia. discriminate. }
    repeat split.
    + intros _. now apply Hcells.
    + intros _. rewrite Hnew. destruct Hb as [-> Hb]. intros E.
      apply (swapped_differs zs (Z.to_nat tileIndex) e);
        [eapply board_NoDup; eauto | lia | assumption | assumption |].
      now apply map_Num_inj.
    + intros _. exact Hnew.
    + intros Hn. exfalso. apply Hn. now apply Hcells.
  - assert (Hsame : r = (st, w, [])).
    { subst r. apply attemptMove_rejects; [assumption|]. now rewrite Hix. }
    repeat split.
    + intros Hch. exfalso. apply Hch. now rewrite Hsame.
    + intros Ha. apply Hcells in Ha. discriminate.
    + intros Ha. apply Hcells in Ha. discriminate.
    + intros _. exact Hsame.
Qed.

End MoveValidator.

Section SessionBoards.

Variable P : Platform.
Hypothesis sort_ok : sort_rearranges P.

Lemma find_difficulty_In (targetId : option string) (d : DifficultyOption.t) :
  find_difficulty targetId = Some d -> In d difficulties.
Proof.
  unfold find_difficulty. destruct targetId as [i|]; [|discriminate].
  intros H. now apply find_some in H.
Qed.

Lemma activeDifficulty_In (st : App) : In (activeDifficulty st) difficulties.
Proof.
  destruct (activeDifficulty_cases st) as [-> | [-> | ->]]; simpl; auto.
Qed.

Lemma find_difficulty_id (d : DifficultyOption.t) :
  In d difficulties -> find_difficulty (Some (DifficultyOption.id d)) = Some d.
Proof.
  intros [<- | [<- | [<- | []]]]; reflexivity.
Qed.

Lemma startPuzzle_holds_board (fuel : nat) (st : App) (options : StartOptions)
      (w : World) (st' : App) (w' : World) (effects : list effect) :
  startPuzzle P fuel st options w = Finished (st', w', effects) ->
  exists zs, Spec.holds_board st' zs.
Proof.
  unfold startPuzzle.
  set (target := match find_difficulty (targetDifficultyId options) with
                 | Some entry => entry
                 | None => activeDifficulty st
                 end).
  assert (Hin : In target difficulties).
  { subst target. destruct (find_difficulty (targetDifficultyId options)) eqn:E.
    - eapply find_difficulty_In; eauto.
    - apply activeDifficulty_In. }
  destruct (match randomImage options with
            | Some true => _
            | _ => _
            end) as [[[image|] w1]|m]; try discriminate.
  destruct (shuffleBoard P fuel w1 (DifficultyOption.size target))
    as [[board w2]|] eqn:Es; [|discriminate].
  intros H. injection H as <- _ _.
  assert (Hs : 0 < DifficultyOption.size target)
    by (destruct Hin as [<- | [<- | [<- | []]]]; simpl; lia).
  destruct (shuffleBoard_exit P fuel w1 w2 _ board sort_ok Hs Es) as [[zs [-> Hb]] _].
  exists zs. unfold Spec.holds_board, activeDifficulty. cbn [tiles difficultyId].
  rewrite (find_difficulty_id target Hin). now split.
Qed.

Lemma attemptMove_difficultyId (st : App) (tileIndex : Z) (w : World) :
  difficultyId (state_of (attemptMove P st tileIndex w)) = difficultyId st.
Proof.
  unfold attemptMove. destruct (status st); try reflexivity.
  destruct (negb _); [reflexivity|].
  destruct (isSolved _); [|reflexivity].
  destruct (persistRanking _ _ _ _) as [[ranking w'] stored]. reflexivity.
Qed.

Lemma activeDifficulty_ext (st st' : App) :
  difficultyId st' = difficultyId st -> activeDifficulty st' = activeDifficulty st.
Proof.
  intros H. unfold activeDifficulty. now rewrite H.
Qed.

Lemma attemptMove_holds_board (st : App) (zs : list Z) (tileIndex : Z) (w : World) :
  Spec.holds_board st zs ->
  board_index st tileIndex ->
  exists zs', Spec.holds_board (state_of (attemptMove P st tileIndex w)) zs'.
Proof.
  intros Hb Hidx.
  destruct (status st) eqn:Hst;
    try (rewrite attemptMove_not_playing by congruence; now exists zs).
  destruct (board_setup st zs Hb) as (Hs & Hlen & e & Hlt & He & Hix).
  destruct (isAdjacent tileIndex (Z.of_nat e)
                       (DifficultyOption.size (activeDifficulty st))) eqn:Hadj.
  - exists (Spec.swapped zs (Z.to_nat tileIndex) e). split.
    + now apply attemptMove_tiles.
    + rewrite (activeDifficulty_ext st) by apply attemptMove_difficultyId.
      destruct Hb as [_ Hb]. unfold board_index in Hidx.
      apply swapped_board; [assumption|lia|assumption].
  - rewrite attemptMove_rejects by (try rewrite Hix; assumption). now exists zs.
Qed.

(** C6, as the code has it.  The board left by [startPuzzle], and every
    board that calls of [attemptMove] with indices of cells of the board
    make of it, is a permutation of [0 .. size² - 1]. *)
Theorem session_boards_are_permutations (st : App) :
  reachable P board_index st ->
  exists zs,
    tiles st = map JS.Num zs /\
    Permutation zs (Spec.solved_numbers (DifficultyOption.size (activeDifficulty st))).
Proof.
  induction 1 as [fuel st options w st' w' effects Hstart
                 |st tileIndex w Hreach [zs IH] Hidx].
  - eapply startPuzzle_holds_board; eauto.
  - eapply attemptMove_holds_board; eauto.
Qed.

End SessionBoards.

Section Session.

Variable P : Platform.

Lemma new_entry_moves (st : App) (moves : Z) (w : World) :
  ScoreEntry.moves (fst (new_entry P st moves w)) = moves.
Proof.
  unfold new_entry. destruct (createId P w) as [entryId w1].
  destruct (Date_now w1) as [now w2]. reflexivity.
Qed.

(** C8.  While the session is playing, a move that the validator accepts
    adds exactly one to the move counter and a move that it refuses leaves
    the whole state as it was; when the accepted move solves the board, the
    entry that is recorded carries the new value of the counter.  On a
    board, for the index of a cell, the validator accepts exactly the
    cells orthogonally adjacent to the blank. *)
Theorem move_counter_counts_accepted_moves (st : App) (tileIndex : Z) (w : World) :
  status st = playing ->
  let size := DifficultyOption.size (activeDifficulty st) in
  let emptyIndex := JS.indexOf (tiles st) (blankValue st) in
  let accepted := isAdjacent tileIndex emptyIndex size in
  let r := attemptMove P st tileIndex w in
  (accepted = false -> r = (st, w, [])) /\
  (accepted = true ->
   moveCount (state_of r) = moveCount st + 1 /\
   (isSolved (tiles (state_of r)) = false ->
    status (state_of r) = playing /\
    rankings (state_of r) = rankings st /\
    effects_of r = []) /\
   (isSolved (tiles (state_of r)) = true ->
    status (state_of r) = solved /\
    exists entry,
      ScoreEntry.moves entry = moveCount (state_of r) /\
      rankings (state_of r) = recordResult (rankings st) entry /\
      effects_of r = storeRankings (rankings (state_of r)))) /\
  (forall zs,
      Spec.holds_board st zs -> board_index st tileIndex ->
      (accepted = true <-> Spec.adjacent size tileIndex emptyIndex)).
Proof.
  intros Hst size emptyIndex accepted r. split; [|split].
  - intros Hacc. subst r. now apply attemptMove_rejects.
  - intros Hacc. subst r.
    rewrite (attemptMove_accepts P st tileIndex w Hst Hacc).
    fold emptyIndex.
    destruct (isSolved (swap (JS.spread (tiles st)) tileIndex emptyIndex)) eqn:Hdone;
      unfold state_of, effects_of; cbn [fst snd tiles moveCount status rankings];
      rewrite Hdone.
    + split; [reflexivity|]. split; [discriminate|]. intros _.
      split; [reflexivity|].
      exists (fst (new_entry P st (moveCount st + 1) w)).
      rewrite new_entry_moves. repeat split.
    + split; [reflexivity|]. split; [|discriminate]. intros _. repeat split.
  - intros zs Hb Hidx.
    destruct (board_setup st zs Hb) as (Hs & Hlen & e & Hlt & He & Hix).
    unfold board_index, tileCount in Hidx. unfold tileCount in Hlen.
    subst accepted emptyIndex. rewrite Hix.
    apply isAdjacent_cells; fold size in Hs, Hlen, Hidx; lia.
Qed.

Lemma handleKeyDown_not_playing (fuel : nat) (st : App) (key : string) (w : World) :
  status st <> playing -> handleKeyDown P fuel st key w = Finished (st, w, []).
Proof.
  intros Hst. unfold handleKeyDown. destruct (status st); congruence.
Qed.

Lemma startPuzzle_restarts (fuel : nat) (st : App) (options : StartOptions)
      (w : World) (st' : App) (w' : World) (effects : list effect) :
  startPuzzle P fuel st options w = Finished (st', w', effects) ->
  status st' = playing /\ moveCount st' = 0 /\ rankings st' = rankings st.
Proof.
  unfold startPuzzle.
  destruct (match randomImage options with
            | Some true => _
            | _ => _
            end) as [[[image|] w1]|m]; try discriminate.
  destruct (shuffleBoard _ _ _ _) as [[board w2]|]; [|discriminate].
  intros H. injection H as <- _ _. repeat split.
Qed.

(** C7.  In the solved state a move is a no-op, whether it comes from a
    tile or from a key: the board, the move counter, the status and the
    ranking list stay as they are, and nothing is written.  An event that
    does change a solved session is a request for a new puzzle, and it
    leaves the session playing with the counter at zero. *)
Theorem solved_session_ignores_moves (fuel : nat) (st : App) (w : World) :
  status st = solved ->
  (forall tileIndex, attemptMove P st tileIndex w = (st, w, [])) /\
  (forall index, handle P fuel st (TileClick index) w = Finished (st, w, [])) /\
  (forall key, handle P fuel st (KeyDown key) w = Finished (st, w, [])) /\
  (forall e st' w' effects,
      handle P fuel st e w = Finished (st', w', effects) ->
      st' <> st ->
      ((exists targetId, e = DifficultyChange targetId) \/ e = RandomClick) /\
      status st' = playing /\ moveCount st' = 0 /\ rankings st' = rankings st).
Proof.
  intros Hst.
  assert (Hmove : forall tileIndex, attemptMove P st tileIndex w = (st, w, []))
    by (intros; apply attemptMove_not_playing; congruence).
  assert (Hkey : forall key, handleKeyDown P fuel st key w = Finished (st, w, []))
    by (intros; apply handleKeyDown_not_playing; congruence).
  split; [exact Hmove|]. split; [|split; [exact Hkey|]].
  - intros index. simpl. unfold handleTileClick. now rewrite Hmove.
  - intros e st' w' effects Hrun Hchanged.
    destruct e as [index|key|targetId|]; simpl in Hrun.
    + unfold handleTileClick in Hrun. rewrite Hmove in Hrun. congruence.
    + rewrite Hkey in Hrun. congruence.
    + split; [left; now exists targetId|]. now apply startPuzzle_restarts in Hrun.
    + split; [now right|]. now apply startPuzzle_restarts in Hrun.
Qed.

End Session.

Section Reversal.

Variable P : Platform.

Lemma attemptMove_status (st : App) (tileIndex : Z) (w : World) :
  status st = playing ->
  isAdjacent tileIndex (JS.indexOf (tiles st) (blankValue st))
             (DifficultyOption.size (activeDifficulty st)) = true ->
  status (state_of (attemptMove P st tileIndex w)) =
  if isSolved (tiles (state_of (attemptMove P st tileIndex w)))
  then solved else playing.
Proof.
  intros Hst Hadj. rewrite (attemptMove_accepts P st tileIndex w Hst Hadj).
  destruct (isSolved (swap _ _ _)) eqn:E; unfold state_of; cbn [fst tiles status];
    now rewrite E.
Qed.

(** C10, as the code has it.  On a board, a legal move at the cell [i]
    followed by a move at the cell [e] that the blank has left gives the
    first board back, provided the first move has not solved the puzzle;
    when it has, the session is solved and the second call changes
    nothing.  [isAdjacent] is symmetric in its two indices. *)
Theorem legal_move_is_undone_by_the_move_back
        (st : App) (zs : list Z) (tileIndex : Z) (w w2 : World) :
  status st = playing ->
  Spec.holds_board st zs ->
  board_index st tileIndex ->
  let size := DifficultyOption.size (activeDifficulty st) in
  let emptyIndex := JS.indexOf (tiles st) (blankValue st) in
  isAdjacent tileIndex emptyIndex size = true ->
  let st1 := state_of (attemptMove P st tileIndex w) in
  isAdjacent emptyIndex tileIndex size = true /\
  JS.indexOf (tiles st1) (blankValue st1) = tileIndex /\
  (isSolved (tiles st1) = false ->
   tiles (state_of (attemptMove P st1 emptyIndex w2)) = tiles st) /\
  (isSolved (tiles st1) = true ->
   status st1 = solved /\ attemptMove P st1 emptyIndex w2 = (st1, w2, [])).
Proof.
  intros Hst Hb Hidx size emptyIndex Hadj st1.
  destruct (board_setup st zs Hb) as (Hs & Hlen & e & Hlt & He & Hix).
  pose proof Hidx as Hidx'. unfold board_index in Hidx'.
  assert (Hback : isAdjacent emptyIndex tileIndex size = true)
    by now rewrite isAdjacent_sym.
  assert (Hstatus : status st1 = if isSolved (tiles st1) then solved else playing)
    by (subst st1; now apply attemptMove_status).
  assert (Htiles : tiles st1 = map JS.Num (Spec.swapped zs (Z.to_nat tileIndex) e)).
  { subst st1. apply attemptMove_tiles; try assumption.
    subst emptyIndex. now rewrite <- Hix. }
  assert (Hdiff : activeDifficulty st1 = activeDifficulty st)
    by (apply activeDifficulty_ext, attemptMove_difficultyId).
  assert (Hblank : blankValue st1 = blankValue st)
    by (unfold blankValue, tileCount; now rewrite Hdiff).
  assert (Hb1 : Spec.holds_board st1 (Spec.swapped zs (Z.to_nat tileIndex) e)).
  { split; [exact Htiles|]. rewrite Hdiff. destruct Hb as [_ Hb].
    apply swapped_board; [assumption|lia|assumption]. }
  assert (Hpos : nth_error (Spec.swapped zs (Z.to_nat tileIndex) e) (Z.to_nat tileIndex)
                 = Some (blankValue st)).
  { rewrite (nth_error_nth' _ 0) by (rewrite swapped_length; lia).
    rewrite nth_swapped, Nat.eqb_refl by lia.
    rewrite <- He. symmetry. now apply nth_error_nth'. }
  assert (Hix1 : JS.indexOf (tiles st1) (blankValue st1) = tileIndex).
  { rewrite Htiles, Hblank.
    rewrite (indexOf_numbers _ _ (Z.to_nat tileIndex)); [lia| |exact Hpos].
    destruct Hb1 as [_ Hb1]. eapply board_NoDup; eauto. }
  split; [exact Hback|]. split; [exact Hix1|]. split.
  - intros Hnot. rewrite Hnot in Hstatus.
    assert (Hidx1 : board_index st1 emptyIndex).
    { unfold board_index, tileCount. rewrite Hdiff. fold (tileCount st).
      subst emptyIndex. rewrite Hix. lia. }
    rewrite (attemptMove_tiles P st1 _ emptyIndex w2 (Z.to_nat tileIndex)
               Hstatus Hb1 Hidx1).
    + subst emptyIndex. rewrite Hix, Nat2Z.id.
      rewrite swapped_involutive by lia. destruct Hb as [-> _]. reflexivity.
    + rewrite Hix1. lia.
    + rewrite swapped_length. lia.
    + rewrite Hdiff, Z2Nat.id by lia. exact Hback.
  - intros Hdone. rewrite Hdone in Hstatus. split; [exact Hstatus|].
    apply attemptMove_not_playing. congruence.
Qed.

End Reversal.

Section Ranking.

Lemma sort_by_moves_snoc (l : list ScoreEntry.t) (e : ScoreEntry.t) :
  sort_by_moves (l ++ [e]) = insert_by_moves e (sort_by_moves l).
Proof.
  unfold sort_by_moves. now rewrite fold_left_app.
Qed.

Lemma insert_by_moves_Permutation (e : ScoreEntry.t) (s : list ScoreEntry.t) :
  Permutation (insert_by_moves e s) (e :: s).
Proof.
  induction s as [|x s IH]; simpl; [reflexivity|].
  destruct (ScoreEntry.moves e - ScoreEntry.moves x <? 0); [reflexivity|].
  rewrite IH. apply perm_swap.
Qed.

Lemma insert_by_moves_sorted (e : ScoreEntry.t) (s : list ScoreEntry.t) :
  StronglySorted Spec.by_moves s -> StronglySorted Spec.by_moves (insert_by_moves e s).
Proof.
  induction 1 as [|x s Hs IH Hx]; simpl.
  - repeat constructor.
  - destruct (Z.ltb_spec (ScoreEntry.moves e - ScoreEntry.moves x) 0) as [Hlt|Hge].
    + constructor; [now constructor|].
      constructor; [unfold Spec.by_moves; lia|].
      eapply Forall_impl; [|exact Hx]. unfold Spec.by_moves. intros y Hy. lia.
    + constructor; [assumption|].
      apply Forall_forall. intros y Hy.
      apply (Permutation_in _ (insert_by_moves_Permutation e s)) in Hy as [<-|Hy].
      * unfold Spec.by_moves. lia.
      * rewrite Forall_forall in Hx. now apply Hx.
Qed.

Lemma sort_by_moves_sorted (l : list ScoreEntry.t) :
  StronglySorted Spec.by_moves (sort_by_moves l).
Proof.
  induction l as [|e l IH] using rev_ind.
  - constructor.
  - rewrite sort_by_moves_snoc. now apply insert_by_moves_sorted.
Qed.

Lemma sort_by_moves_Permutation (l : list ScoreEntry.t) :
  Permutation (sort_by_moves l) l.
Proof.
  induction l as [|e l IH] using rev_ind.
  - reflexivity.
  - rewrite sort_by_moves_snoc, insert_by_moves_Permutation, IH.
    apply Permutation_cons_append.
Qed.

Lemma insert_by_moves_filter (m : Z) (e : ScoreEntry.t) (s : list ScoreEntry.t) :
  StronglySorted Spec.by_moves s ->
  filter (Spec.has_moves m) (insert_by_moves e s) =
  filter (Spec.has_moves m) s ++ filter (Spec.has_moves m) [e].
Proof.
  induction 1 as [|x s Hs IH Hx].
  - reflexivity.
  - cbn [insert_by_moves].
    destruct (Z.ltb_spec (ScoreEntry.moves e - ScoreEntry.moves x) 0) as [Hlt|Hge].
    + assert (Hnone : Spec.has_moves m e = true ->
                      filter (Spec.has_moves m) (x :: s) = []).
      { intros Hm. apply Z.eqb_eq in Hm.
        apply filter_none. intros y [<-|Hy]; unfold Spec.has_moves.
        - apply Z.eqb_neq. lia.
        - rewrite Forall_forall in Hx. specialize (Hx y Hy).
          unfold Spec.by_moves in Hx. apply Z.eqb_neq. lia. }
      remember (x :: s) as xs eqn:Exs. cbn [filter].
      destruct (Spec.has_moves m e).
      * now rewrite Hnone.
      * now rewrite app_nil_r.
    + cbn [filter]. rewrite IH.
      destruct (Spec.has_moves m x); reflexivity.
Qed.

Lemma sort_by_moves_filter (m : Z) (l : list ScoreEntry.t) :
  filter (Spec.has_moves m) (sort_by_moves l) = filter (Spec.has_moves m) l.
Proof.
  induction l as [|e l IH] using rev_ind.
  - reflexivity.
  - rewrite sort_by_moves_snoc, insert_by_moves_filter by apply sort_by_moves_sorted.
    now rewrite IH, filter_app.
Qed.

Lemma StronglySorted_app_inv (l1 l2 : list ScoreEntry.t) :
  StronglySorted Spec.by_moves (l1 ++ l2) ->
  StronglySorted Spec.by_moves l1 /\
  (forall x y, In x l1 -> In y l2 -> Spec.by_moves x y).
Proof.
  induction l1 as [|a l1 IH]; simpl; intros H.
  - split; [constructor|]. intros x y [].
  - apply StronglySorted_inv in H as [H Ha]. destruct (IH H) as [Hs Hc].
    split.
    + constructor; [assumption|]. apply Forall_app in Ha. tauto.
    + intros x y [<-|Hx] Hy.
      * rewrite Forall_forall in Ha. apply Ha, in_or_app. now right.
      * now apply Hc.
Qed.

Lemma insert_by_moves_last (e : ScoreEntry.t) (s : list ScoreEntry.t) :
  (forall x, In x s -> Spec.by_moves x e) -> insert_by_moves e s = s ++ [e].
Proof.
  induction s as [|x s IH]; intros H; simpl; [reflexivity|].
  pose proof (H x (or_introl eq_refl)) as Hx. unfold Spec.by_moves in Hx.
  destruct (Z.ltb_spec (ScoreEntry.moves e - ScoreEntry.moves x) 0); [lia|].
  rewrite IH; [reflexivity|]. intros y Hy. apply H. now right.
Qed.

Lemma sort_by_moves_of_sorted (s : list ScoreEntry.t) :
  StronglySorted Spec.by_moves s -> sort_by_moves s = s.
Proof.
  induction s as [|e s IH] using rev_ind; intros H; [reflexivity|].
  apply StronglySorted_app_inv in H as [Hs Hc].
  rewrite sort_by_moves_snoc, IH by assumption.
  apply insert_by_moves_last. intros x Hx. apply Hc; [assumption|now left].
Qed.

(** Cutting the list before the insertion does not change what the cut
    list holds after it. *)
Lemma firstn_insert_by_moves (n : nat) (e : ScoreEntry.t) (s : list ScoreEntry.t) :
  firstn n (insert_by_moves e (firstn n s)) = firstn n (insert_by_moves e s).
Proof.
  revert n. induction s as [|x s IH]; intros n.
  - now rewrite firstn_nil.
  - destruct n as [|n]; [reflexivity|].
    rewrite (firstn_cons n x s). cbn [insert_by_moves].
    destruct (ScoreEntry.moves e - ScoreEntry.moves x <? 0).
    + rewrite !(firstn_cons n e). f_equal.
      destruct n as [|n]; [reflexivity|].
      rewrite !(firstn_cons n x). f_equal.
      rewrite firstn_firstn. f_equal. lia.
    + rewrite !(firstn_cons n x). f_equal. apply IH.
Qed.

Lemma recordResult_after_cut (l : list ScoreEntry.t) (e : ScoreEntry.t) :
  recordResult (firstn 8 (sort_by_moves l)) e = firstn 8 (sort_by_moves (l ++ [e])).
Proof.
  unfold recordResult. rewrite !sort_by_moves_snoc.
  rewrite sort_by_moves_of_sorted.
  - apply firstn_insert_by_moves.
  - pose proof (sort_by_moves_sorted l) as H.
    rewrite <- (firstn_skipn 8 (sort_by_moves l)) in H.
    now apply StronglySorted_app_inv in H.
Qed.

Lemma record_all_after_cut (es l : list ScoreEntry.t) :
  fold_left recordResult es (firstn 8 (sort_by_moves l)) =
  firstn 8 (sort_by_moves (l ++ es)).
Proof.
  revert l. induction es as [|e es IH]; intros l; cbn [fold_left].
  - now rewrite app_nil_r.
  - rewrite recordResult_after_cut, IH, <- app_assoc. reflexivity.
Qed.

Lemma cut_keeps_lowest (all : list ScoreEntry.t) :
  Spec.keeps_lowest all (firstn 8 (sort_by_moves all)).
Proof.
  pose proof (sort_by_moves_sorted all) as Hs.
  rewrite <- (firstn_skipn 8 (sort_by_moves all)) in Hs.
  apply StronglySorted_app_inv in Hs as [Hs Hc].
  repeat split.
  - now rewrite length_firstn, (Permutation_length (sort_by_moves_Permutation all)).
  - exact Hs.
  - exists (skipn 8 (sort_by_moves all)). split.
    + rewrite firstn_skipn. apply sort_by_moves_Permutation.
    + exact Hc.
  - intros m. exists (filter (Spec.has_moves m) (skipn 8 (sort_by_moves all))).
    now rewrite <- filter_app, firstn_skipn, sort_by_moves_filter.
Qed.

(** C4.  [recordResult] appends the entry, orders the list by ascending
    moves, the results with equal moves staying in the order in which they
    were recorded, and cuts the list to its first eight entries.  After
    any number of results, recorded one after the other from any list, the
    ranking holds the eight results with the fewest moves (all of them
    while there are at most eight), in ascending order. *)
Theorem recordResult_keeps_lowest_eight :
  (forall previous entry,
      recordResult previous entry =
      firstn 8 (insert_by_moves entry (sort_by_moves previous)) /\
      Spec.keeps_lowest (previous ++ [entry]) (recordResult previous entry)) /\
  (forall previous results,
      results <> [] ->
      Spec.keeps_lowest (previous ++ results) (fold_left recordResult results previous) /\
      ((8 < List.length results)%nat ->
       List.length (fold_left recordResult results previous) = 8%nat)).
Proof.
  split.
  - intros previous entry. split.
    + unfold recordResult. now rewrite sort_by_moves_snoc.
    + apply cut_keeps_lowest.
  - intros previous [|e es] Hne; [contradiction|].
    assert (E : fold_left recordResult (e :: es) previous =
                firstn 8 (sort_by_moves (previous ++ e :: es))).
    { cbn [fold_left]. unfold recordResult at 2.
      rewrite record_all_after_cut, <- app_assoc. reflexivity. }
    rewrite E. split; [apply cut_keeps_lowest|].
    intros Hlen. rewrite length_firstn,
      (Permutation_length (sort_by_moves_Permutation _)), length_app.
    lia.
Qed.

End Ranking.

Section Loading.

Variable P : Platform.

(** What [loadRankings] does, case by case.  It never throws.  It returns
    the empty list when there is no window, when reading the store throws,
    when the key is missing or holds the empty text, when the text is not
    JSON, and when it is JSON but not an array; when the text is a JSON
    array it returns that array without a look at its elements. *)
Theorem loadRankings_recovers_or_returns_the_array (B : Browser) :
  (exists items log, loadRankings P B = Normal (items, log)) /\
  (has_window B = false -> loadRankings P B = Normal ([], [])) /\
  (has_window B = true ->
   (forall m, getItem B SCORE_KEY = Throw m ->
              loadRankings P B = Normal ([], parse_warning)) /\
   (getItem B SCORE_KEY = Normal None -> loadRankings P B = Normal ([], [])) /\
   (getItem B SCORE_KEY = Normal (Some EmptyString) ->
    loadRankings P B = Normal ([], [])) /\
   (forall text,
       text <> EmptyString ->
       getItem B SCORE_KEY = Normal (Some text) ->
       (forall m, JSON_parse P text = Throw m ->
                  loadRankings P B = Normal ([], parse_warning)) /\
       (forall v, JSON_parse P text = Normal v ->
                  (forall items, v <> JSON.Array items) ->
                  loadRankings P B = Normal ([], [])) /\
       (forall items, JSON_parse P text = Normal (JSON.Array items) ->
                      loadRankings P B = Normal (items, [])))).
Proof.
  unfold loadRankings. split; [|split].
  - destruct (has_window B); simpl; [|now eexists; eexists].
    destruct (getItem B SCORE_KEY) as [[[|c text]|]|m]; simpl;
      try (now eexists; eexists).
    destruct (JSON_parse P (String c text)) as [[]|m]; simpl; now eexists; eexists.
  - now intros ->.
  - intros ->. simpl. split; [|split; [|split]].
    + now intros m ->.
    + now intros ->.
    + now intros ->.
    + intros text Hne Hget. rewrite Hget.
      destruct text as [|c text]; [contradiction|]. simpl. split; [|split].
      * intros m Hp. now rewrite Hp.
      * intros v Hp Hv. rewrite Hp. destruct v; try reflexivity.
        exfalso. now apply (Hv items).
      * intros items Hp. now rewrite Hp.
Qed.

End Loading.

Section Selection.

Local Open Scope Q_scope.

Lemma draw_bounds (d : Draw) : 0 <= draw_value d /\ draw_value d < 1.
Proof.
  pose proof (draw_range d) as H. apply andb_true_iff in H as [H0 H1].
  split; [now apply Qle_bool_iff|].
  apply Qnot_le_lt. intros Hle. apply Qle_bool_iff in Hle.
  rewrite Hle in H1. discriminate.
Qed.



Lemma floor_scaled_range (r : Q) (n : Z) :
  0 <= r -> r < 1 -> (0 < n)%Z ->
  (0 <= Qfloor (r * inject_Z n) < n)%Z.
Proof.
  intros H0 H1 Hn.
  assert (HnQ : 0 < inject_Z n) by (change 0 with (inject_Z 0); now rewrite <- Zlt_Qlt).
  split.
  - rewrite <- (Qfloor_Z 0). apply Qfloor_resp_le.
    apply Qmult_le_0_compat; [assumption|now apply Qlt_le_weak].
  - rewrite Zlt_Qlt. eapply Qle_lt_trans; [apply Qfloor_le|].
    setoid_replace (inject_Z n) with (1 * inject_Z n) at 2 by ring.
    now apply Qmult_lt_compat_r.
Qed.







End Selection.

(** ** The reference platform is a platform *)

Section ReferenceSort.

Lemma insert_random_Permutation (before : list JS.elem) :
  forall (w : World) (element : JS.elem),
    Permutation (fst (Reference.insert_random w element before)) (element :: before).
Proof.
  induction before as [|tmp rest IH]; intros w element; simpl; [reflexivity|].
  destruct (Qlt_le_dec _ _); simpl; [|reflexivity].
  specialize (IH {| randoms := fun n => randoms w (S n); clock := clock w |} element).
  destruct (Reference.insert_random _ element rest) as [rest' w'']. simpl in *.
  rewrite IH. apply perm_swap.
Qed.

Lemma insertion_sort_random_Permutation (pending : list JS.elem) :
  forall (w : World) (before : list JS.elem),
    Permutation (fst (Reference.insertion_sort_random w pending before))
                (before ++ pending).
Proof.
  induction pending as [|element rest IH]; intros w before; simpl.
  - rewrite app_nil_r. symmetry. apply Permutation_rev.
  - pose proof (insert_random_Permutation before w element) as Hins.
    destruct (Reference.insert_random w element before) as [before' w']. simpl in Hins.
    rewrite IH, Hins. simpl. apply Permutation_middle.
Qed.

Lemma elements_by_kind (a : JS.array) :
  Permutation (filter Reference.is_number a
               ++ filter Reference.is_undefined a ++ filter Reference.is_hole a) a.
Proof.
  induction a as [|v a IH]; [reflexivity|].
  destruct v; simpl.
  - now constructor.
  - symmetry. apply Permutation_cons_app. now symmetry.
  - symmetry. rewrite app_assoc. apply Permutation_cons_app.
    rewrite <- app_assoc. now symmetry.
Qed.

Lemma reference_sort_rearranges : sort_rearranges Reference.platform.
Proof.
  intros w a. simpl. unfold Reference.sort_random.
  pose proof (insertion_sort_random_Permutation (filter Reference.is_number a) w [])
    as Hsort.
  destruct (Reference.insertion_sort_random w (filter Reference.is_number a) [])
    as [numbers w']. simpl in *.
  rewrite Hsort. apply elements_by_kind.
Qed.

End ReferenceSort.

(** ** Closed instances *)

(** The generator, run on the reference platform for the size 3, returns
    a board with the four properties of C1. *)
Lemma shuffleBoard_returns_playable_board_witness :
  exists board w',
    shuffleBoard Reference.platform 10 Reference.sample_world 3 = Some (board, w') /\
    (exists zs, board = map JS.Num zs /\ Spec.board 3 zs) /\
    isSolvable board 3 = true /\
    isSolved board = false /\
    board <> createSolvedBoard 3 /\
    JS.get board 0 <> JS.Num (3 * 3 - 1).
Proof.
  destruct (shuffleBoard Reference.platform 10 Reference.sample_world 3) as [[board w']|] eqn:E;
    [|vm_compute in E; discriminate].
  exists board, w'. split; [reflexivity|].
  apply (shuffleBoard_returns_playable_board Reference.platform 10 Reference.sample_world w' 3 board);
    [apply reference_sort_rearranges | simpl; auto | exact E].
Defined.

(** The board 1 0 3 / 4 5 6 / 7 _ 2 has ten inversions and its blank in
    the first row from the bottom. *)
Lemma isSolvable_parity_rule_witness :
  isSolvable (map JS.Num [1; 0; 3; 4; 5; 6; 7; 8; 2]) 3 = true <->
  Spec.parity_rule 3 (Spec.inversions [1; 0; 3; 4; 5; 6; 7; 8; 2] (3 * 3 - 1))
                   (3 - Z.of_nat 7 / 3).
Proof.
  apply (isSolvable_parity_rule 3 [1; 0; 3; 4; 5; 6; 7; 8; 2] 7);
    [lia | apply is_board_sound; [lia | reflexivity] | reflexivity].
Defined.

Lemma sample_session_holds : Spec.holds_board Reference.sample_session [1; 0; 3; 4; 5; 6; 7; 8; 2].
Proof.
  split; [reflexivity|]. apply is_board_sound; [vm_compute; discriminate|reflexivity].
Qed.

(** The tile above the blank of 1 0 3 / 4 5 6 / 7 _ 2 is moved. *)
Lemma attemptMove_swaps_iff_adjacent_while_playing_witness :
  let st := Reference.sample_session in
  let emptyIndex := JS.indexOf (tiles st) (blankValue st) in
  let r := attemptMove Reference.platform st 4 Reference.sample_world in
  Spec.adjacent 3 4 emptyIndex /\
  tiles (state_of r) = map JS.Num [1; 0; 3; 4; 8; 6; 7; 5; 2] /\
  tiles (state_of r) <> tiles st.
Proof.
  intros st emptyIndex r.
  destruct (attemptMove_swaps_iff_adjacent_while_playing
              Reference.platform st [1; 0; 3; 4; 5; 6; 7; 8; 2] 4
              Reference.sample_world sample_session_holds
              ltac:(unfold board_index; vm_compute; split; [discriminate | reflexivity]))
    as [Hplaying _].
  destruct (Hplaying eq_refl) as (Hiff & Hswap & _).
  assert (Hadj : Spec.adjacent 3 4 emptyIndex).
  { exists 1, 1, 2, 1. vm_compute. repeat split; try discriminate. now right. }
  split; [exact Hadj|]. split; [exact (Hswap Hadj)|]. now apply Hiff.
Defined.

(** C3 fails as stated, at two inputs.  In the solved state of a 3 × 3
    session the tile at index 7 is adjacent to the blank at index 8, and
    [attemptMove] leaves the board as it is.  In a playing session with the
    blank at index 7, the index 10 is no cell of the board, and
    [attemptMove] changes the board: the array grows to eleven elements,
    with [undefined] where the blank was, which is not the board with two
    of its positions exchanged. *)
Lemma attemptMove_is_gated_by_status_and_takes_any_index :
  (let st := Reference.session easy [0; 1; 2; 3; 4; 5; 6; 7; 8] solved in
   Spec.adjacent 3 7 (JS.indexOf (tiles st) (blankValue st)) /\
   tiles (state_of (attemptMove Reference.platform st 7 Reference.sample_world)) = tiles st) /\
  (let st := Reference.sample_session in
   ~ Spec.adjacent 3 10 (JS.indexOf (tiles st) (blankValue st)) /\
   isAdjacent 10 (JS.indexOf (tiles st) (blankValue st)) 3 = true /\
   tiles (state_of (attemptMove Reference.platform st 10 Reference.sample_world)) =
   [JS.Num 1; JS.Num 0; JS.Num 3; JS.Num 4; JS.Num 5; JS.Num 6; JS.Num 7;
    JS.Undefined; JS.Num 2; JS.Hole; JS.Num 8] /\
   tiles (state_of (attemptMove Reference.platform st 10 Reference.sample_world)) <> tiles st /\
   forall i j,
     tiles (state_of (attemptMove Reference.platform st 10 Reference.sample_world)) <>
     map JS.Num (Spec.swapped [1; 0; 3; 4; 5; 6; 7; 8; 2] i j)).
Proof.
  split.
  - split; [|reflexivity].
    exists 2, 1, 2, 2. vm_compute. repeat split; try discriminate. now left.
  - assert (E : tiles (state_of (attemptMove Reference.platform Reference.sample_session 10 Reference.sample_world)) =
                [JS.Num 1; JS.Num 0; JS.Num 3; JS.Num 4; JS.Num 5; JS.Num 6; JS.Num 7;
                 JS.Undefined; JS.Num 2; JS.Hole; JS.Num 8]) by reflexivity.
    split; [|split; [reflexivity|split; [exact E|split]]].
    + intros H. apply adjacent_in_range in H. lia.
    + rewrite E. discriminate.
    + intros i j H. rewrite E in H.
      apply (f_equal (@List.length JS.elem)) in H.
      rewrite length_map, swapped_length in H. discriminate.
Qed.

(** Nine results recorded one after the other from the empty ranking: the
    eight with the fewest moves stay, the two of 30 moves in the order in
    which they came. *)
Lemma recordResult_keeps_lowest_eight_witness :
  let results : list ScoreEntry.t :=
    map (fun '(name, m) => Reference.result name m 0)
        [("a", 30); ("b", 12); ("c", 45); ("d", 30); ("e", 7);
         ("f", 99); ("g", 21); ("h", 64); ("i", 18)]%string in
  map ScoreEntry.id (fold_left recordResult results []) =
  ["e"; "b"; "i"; "g"; "a"; "d"; "c"; "h"]%string /\
  Spec.keeps_lowest ([] ++ results) (fold_left recordResult results []) /\
  List.length (fold_left recordResult results []) = 8%nat.
Proof.
  intros results. split; [reflexivity|].
  destruct recordResult_keeps_lowest_eight as [_ H].
  destruct (H [] results ltac:(discriminate)) as [Hk Hl].
  split; [exact Hk|]. apply Hl. vm_compute. reflexivity.
Defined.

(** The scenario of the specification: the store holds [not json]. *)
Lemma loadRankings_recovers_or_returns_the_array_witness :
  loadRankings Reference.platform (Reference.browser_with "not json")
  = Normal ([], parse_warning).
Proof.
  destruct (loadRankings_recovers_or_returns_the_array
              Reference.platform (Reference.browser_with "not json")) as (_ & _ & H).
  destruct (H eq_refl) as (_ & _ & _ & Htext).
  destruct (Htext "not json"%string ltac:(discriminate) eq_refl) as (Hthrow & _ & _).
  apply (Hthrow "SyntaxError"%string). reflexivity.
Defined.

(** C5.  The code at the failing input.  The stored text [[null]] parses
    to an array that holds no score entry: a malformed payload, for which
    C5 asks for the empty list, as [loadRankings] gives for every other
    malformed payload.  [loadRankings] returns the array that holds
    [null]. *)
Lemma loadRankings_returns_an_array_of_anything :
  JSON_parse Reference.platform "[null]" = Normal (JSON.Array [JSON.Null]) /\
  Spec.well_formed_payload (JSON.Array [JSON.Null]) = false /\
  loadRankings Reference.platform (Reference.browser_with "[null]")
  = Normal ([JSON.Null], []) /\
  loadRankings Reference.platform (Reference.browser_with "[null]")
  <> Normal ([], []).
Proof.
  repeat split; discriminate.
Qed.

(** The session started on the reference platform, and a legal move. *)
Lemma session_boards_are_permutations_witness :
  exists st,
    reachable Reference.platform board_index st /\
    exists zs,
      tiles st = map JS.Num zs /\
      Permutation zs (Spec.solved_numbers (DifficultyOption.size (activeDifficulty st))).
Proof.
  destruct (startPuzzle Reference.platform 10 (initialApp []) no_options
                        Reference.sample_world)
    as [[[st w'] effects]| |] eqn:E;
    try (exfalso; vm_compute in E; discriminate).
  assert (Hst : st = Reference.sample_session).
  { assert (G : match startPuzzle Reference.platform 10 (initialApp []) no_options
                      Reference.sample_world with
                | Finished r => state_of r
                | _ => initialApp []
                end = Reference.sample_session) by (vm_compute; reflexivity).
    rewrite E in G. exact G. }
  assert (R : reachable Reference.platform board_index
                        (state_of (attemptMove Reference.platform st 4 w'))).
  { apply reach_move; [eapply reach_start; exact E|].
    rewrite Hst. unfold board_index. vm_compute. split; [discriminate|reflexivity]. }
  exists (state_of (attemptMove Reference.platform st 4 w')). split; [exact R|].
  apply (session_boards_are_permutations Reference.platform reference_sort_rearranges).
  exact R.
Defined.

(** C6 fails as stated for an index outside the board.  The session
    started on the reference platform has the board 1 0 3 / 4 5 6 / 7 _ 2;
    [attemptMove] at the index 10 leaves an array of eleven elements with
    [undefined] at index 7 and a hole at index 9. *)
Lemma attemptMove_outside_the_board_breaks_the_permutation :
  sort_rearranges Reference.platform /\
  exists st,
    reachable Reference.platform any_index st /\
    tiles st = [JS.Num 1; JS.Num 0; JS.Num 3; JS.Num 4; JS.Num 5; JS.Num 6; JS.Num 7;
                JS.Undefined; JS.Num 2; JS.Hole; JS.Num 8] /\
    ~ (exists zs,
          tiles st = map JS.Num zs /\
          Permutation zs (Spec.solved_numbers
                            (DifficultyOption.size (activeDifficulty st)))).
Proof.
  split; [apply reference_sort_rearranges|].
  destruct (startPuzzle Reference.platform 10 (initialApp []) no_options
                        Reference.sample_world)
    as [[[st w'] effects]| |] eqn:E;
    try (exfalso; vm_compute in E; discriminate).
  assert (Hst : st = Reference.sample_session).
  { assert (G : match startPuzzle Reference.platform 10 (initialApp []) no_options
                      Reference.sample_world with
                | Finished r => state_of r
                | _ => initialApp []
                end = Reference.sample_session) by (vm_compute; reflexivity).
    rewrite E in G. exact G. }
  exists (state_of (attemptMove Reference.platform st 10 w')).
  assert (Ht : tiles (state_of (attemptMove Reference.platform st 10 w')) =
               [JS.Num 1; JS.Num 0; JS.Num 3; JS.Num 4; JS.Num 5; JS.Num 6; JS.Num 7;
                JS.Undefined; JS.Num 2; JS.Hole; JS.Num 8])
    by (rewrite Hst; reflexivity).
  split; [|split; [exact Ht|]].
  - apply reach_move; [eapply reach_start; exact E|exact I].
  - intros [zs [Hz _]]. rewrite Ht in Hz.
    do 8 (destruct zs as [|? zs]; [discriminate|]). discriminate.
Qed.

(** A solved 3 × 3 session: clicks and keys change nothing. *)
Lemma solved_session_ignores_moves_witness :
  let st := Reference.session easy [0; 1; 2; 3; 4; 5; 6; 7; 8] solved in
  attemptMove Reference.platform st 7 Reference.sample_world
  = (st, Reference.sample_world, []) /\
  handle Reference.platform 10 st (KeyDown "ArrowDown") Reference.sample_world
  = Finished (st, Reference.sample_world, []) /\
  handle Reference.platform 10 st (KeyDown "Enter") Reference.sample_world
  = Finished (st, Reference.sample_world, []).
Proof.
  intros st.
  destruct (solved_session_ignores_moves Reference.platform 10 st
              Reference.sample_world eq_refl) as (Hmove & _ & Hkey & _).
  split; [apply Hmove|]. split; apply Hkey.
Defined.

(** On 1 0 3 / 4 5 6 / 7 _ 2 the move at index 4 counts, the move at
    index 0 does not. *)
Lemma move_counter_counts_accepted_moves_witness :
  moveCount (state_of (attemptMove Reference.platform Reference.sample_session 4
                                   Reference.sample_world)) = 0 + 1 /\
  attemptMove Reference.platform Reference.sample_session 0 Reference.sample_world
  = (Reference.sample_session, Reference.sample_world, []).
Proof.
  split.
  - destruct (move_counter_counts_accepted_moves
                Reference.platform Reference.sample_session 4 Reference.sample_world
                eq_refl) as (_ & H & _).
    apply (H eq_refl).
  - destruct (move_counter_counts_accepted_moves
                Reference.platform Reference.sample_session 0 Reference.sample_world
                eq_refl) as (H & _).
    apply (H eq_refl).
Defined.



(** On 1 0 3 / 4 5 6 / 7 _ 2, the move at index 4 and then the move at
    index 7 give the board back. *)
Lemma legal_move_is_undone_by_the_move_back_witness :
  tiles (state_of
           (attemptMove Reference.platform
              (state_of (attemptMove Reference.platform Reference.sample_session 4
                                     Reference.sample_world))
              (JS.indexOf (tiles Reference.sample_session)
                          (blankValue Reference.sample_session))
              Reference.sample_world))
  = tiles Reference.sample_session.
Proof.
  destruct (legal_move_is_undone_by_the_move_back
              Reference.platform Reference.sample_session
              [1; 0; 3; 4; 5; 6; 7; 8; 2] 4
              Reference.sample_world Reference.sample_world
              eq_refl sample_session_holds
              ltac:(unfold board_index; vm_compute; split; [discriminate | reflexivity])
              eq_refl) as (_ & _ & Hback & _).
  apply Hback. reflexivity.
Defined.

(** C10 fails as stated when the first move solves the puzzle.  On
    0 1 2 / 3 4 5 / 6 _ 7 the tile at index 8 is adjacent to the blank at
    index 7; the move at 8 gives the solved board and the status solved,
    and the move at 7 that follows is refused: the board stays solved. *)
Lemma move_back_is_refused_after_the_solving_move :
  let st := Reference.session easy [0; 1; 2; 3; 4; 5; 6; 8; 7] playing in
  let e := JS.indexOf (tiles st) (blankValue st) in
  let st1 := state_of (attemptMove Reference.platform st 8 Reference.sample_world) in
  Spec.holds_board st [0; 1; 2; 3; 4; 5; 6; 8; 7] /\
  e = 7 /\
  isAdjacent 8 e (DifficultyOption.size (activeDifficulty st)) = true /\
  tiles st1 = createSolvedBoard 3 /\
  status st1 = solved /\
  tiles (state_of (attemptMove Reference.platform st1 e Reference.sample_world))
  = createSolvedBoard 3 /\
  tiles (state_of (attemptMove Reference.platform st1 e Reference.sample_world))
  <> tiles st.
Proof.
  intros st e st1.
  split; [split; [reflexivity|apply is_board_sound; [vm_compute; discriminate|reflexivity]]|].
  split; [reflexivity|]. split; [reflexivity|]. split; [reflexivity|].
  split; [reflexivity|]. split; [reflexivity|]. discriminate.
Qed.

(** ** Further properties of the board functions *)

Section SolveDetector.

Lemma every_from_ascending (a : JS.array) :
  ~ In JS.Hole a ->
  forall k,
    JS.every_from (fun value index => JS.strict_eq value index) a (Z.of_nat k) = true <->
    a = ascending_from k (List.length a).
Proof.
  unfold ascending_from.
  induction a as [|v a IH]; intros Hh k; simpl; [tauto|].
  assert (Hh' : ~ In JS.Hole a) by (intros H; apply Hh; now right).
  specialize (IH Hh' (S k)).
  replace (Z.of_nat k + 1) with (Z.of_nat (S k)) by lia.
  destruct v as [n| |]; simpl.
  - rewrite andb_true_iff, IH, Z.eqb_eq. split.
    + intros [-> <-]. reflexivity.
    + intros E. injection E as -> E. now split.
  - split; [discriminate|]. intros E. discriminate.
  - exfalso. apply Hh. now left.
Qed.

Lemma createSolvedBoard_ascending (size : Z) :
  createSolvedBoard size = ascending_from 0 (Z.to_nat (size * size)).
Proof. reflexivity. Qed.

(** X1.  [isSolved] holds of the board that [createSolvedBoard] makes, for
    every size; and an array without holes that has [size * size] elements
    passes [isSolved] only if it is that board: one element away from the
    ascending order makes the test fail. *)
Theorem isSolved_iff_createSolvedBoard :
  (forall size, isSolved (createSolvedBoard size) = true) /\
  (forall size a,
      ~ In JS.Hole a ->
      JS.length a = size * size ->
      isSolved a = true <-> a = createSolvedBoard size).
Proof.
  split.
  - intros size. unfold isSolved, JS.every. change 0 with (Z.of_nat 0).
    apply every_from_ascending.
    + rewrite createSolvedBoard_ascending. unfold ascending_from.
      intros H. apply in_map_iff in H as [i [E _]]. discriminate.
    + rewrite createSolvedBoard_ascending at 1. unfold ascending_from.
      f_equal. f_equal. unfold createSolvedBoard.
      now rewrite length_map, length_seq.
  - intros size a Hh Hlen. unfold isSolved, JS.every. change 0 with (Z.of_nat 0).
    rewrite (every_from_ascending a Hh 0). rewrite createSolvedBoard_ascending.
    unfold JS.length in Hlen. rewrite <- Hlen, Nat2Z.id. reflexivity.
Qed.

End SolveDetector.

Section SolvedIsSolvable.

Lemma nth_solved_numbers (size : Z) (k : nat) :
  (k < Z.to_nat (size * size))%nat ->
  nth k (Spec.solved_numbers size) 0 = Z.of_nat k.
Proof.
  intros Hk. unfold Spec.solved_numbers.
  change 0 with (Z.of_nat 0). rewrite map_nth, seq_nth by assumption. reflexivity.
Qed.

Lemma inversions_solved (size blank : Z) :
  Spec.inversions (Spec.solved_numbers size) blank = 0%nat.
Proof.
  unfold Spec.inversions. rewrite filter_none; [reflexivity|].
  intros [i j] Hin. apply in_prod_iff in Hin as [Hi Hj].
  apply in_seq in Hi. apply in_seq in Hj.
  unfold Spec.solved_numbers in Hi, Hj. rewrite length_map, length_seq in Hi, Hj.
  unfold Spec.is_inversion. rewrite !nth_solved_numbers by lia.
  destruct (Nat.ltb_spec i j) as [Hlt|_]; [|reflexivity].
  replace (Z.of_nat j <? Z.of_nat i) with false by (symmetry; apply Z.ltb_ge; lia).
  now rewrite andb_false_r.
Qed.

(** X2.  The solved board passes [isSolvable], for every size above zero:
    it has no inversion and its blank is in the first row from the
    bottom. *)
Theorem isSolvable_createSolvedBoard (size : Z) :
  0 < size -> isSolvable (createSolvedBoard size) size = true.
Proof.
  intros Hs. rewrite createSolvedBoard_numbers. unfold isSolvable, JS.length.
  rewrite length_map, solved_numbers_length by lia.
  rewrite countInversions_numbers, inversions_solved.
  assert (Hlast : nth_error (Spec.solved_numbers size) (Z.to_nat (size * size - 1))
                  = Some (size * size - 1)).
  { rewrite (nth_error_nth' _ 0)
      by (unfold Spec.solved_numbers; rewrite length_map, length_seq; nia).
    rewrite nth_solved_numbers by nia. f_equal. nia. }
  rewrite (indexOf_numbers _ _ _ (solved_numbers_NoDup size) Hlast).
  rewrite Z2Nat.id by nia.
  assert (Hrow : (size * size - 1) / size = size - 1)
    by (symmetry; apply (Z.div_unique _ size (size - 1) (size - 1)); lia).
  rewrite Hrow. replace (size - (size - 1)) with 1 by lia.
  change (Z.rem 1 2 =? 0) with false. change (Z.rem (Z.of_nat 0) 2 =? 0) with true.
  now destruct (Z.rem size 2 =? 1).
Qed.

End SolvedIsSolvable.

Section Adjacency.

Lemma isAdjacent_distance (a b size : Z) :
  0 < size -> 0 <= a -> 0 <= b ->
  isAdjacent a b size = true <->
  Z.abs (a - b) = size \/ (Z.abs (a - b) = 1 /\ a / size = b / size).
Proof.
  intros Hs Ha Hb.
  unfold isAdjacent. rewrite !Z.rem_mod_nonneg by lia.
  pose proof (Z.div_mod a size ltac:(lia)) as Ea.
  pose proof (Z.div_mod b size ltac:(lia)) as Eb.
  pose proof (Z.mod_pos_bound a size Hs) as Ra.
  pose proof (Z.mod_pos_bound b size Hs) as Rb.
  set (qa := a / size) in *. set (qb := b / size) in *.
  set (ra := a mod size) in *. set (rb := b mod size) in *.
  rewrite orb_true_iff, !andb_true_iff, !Z.eqb_eq. split.
  - intros [[Hq Hr]|[Hr Hq]].
    + right. split; [|exact Hq]. rewrite Ea, Eb, Hq.
      replace (size * qb + ra - (size * qb + rb)) with (ra - rb) by ring. exact Hr.
    + left. rewrite Ea, Eb, Hr.
      replace (size * qa + rb - (size * qb + rb)) with (size * (qa - qb)) by ring.
      rewrite Z.abs_mul, Hq. rewrite Z.abs_eq by lia. lia.
  - intros [Hd|[Hd Hq]].
    + right.
      assert (Hq : qa - qb = 1 \/ qa - qb = -1 \/ qa - qb = 0 \/ 2 <= qa - qb \/ qa - qb <= -2)
        by lia.
      destruct Hq as [Hq|[Hq|[Hq|[Hq|Hq]]]]; try nia.
    + left. split; [exact Hq|]. rewrite Ea, Eb, Hq in Hd.
      replace (size * qb + ra - (size * qb + rb)) with (ra - rb) in Hd by ring. exact Hd.
Qed.

(** X3.  For indices that are not negative, [isAdjacent] holds exactly of
    two indices that are [size] apart, or one apart in the same row: the
    last cell of a row and the first cell of the next are not adjacent.
    It is symmetric, and no index is adjacent to itself. *)
Theorem isAdjacent_by_distance (a b size : Z) :
  0 < size -> 0 <= a -> 0 <= b ->
  (isAdjacent a b size = true <->
   Z.abs (a - b) = size \/ (Z.abs (a - b) = 1 /\ a / size = b / size)) /\
  isAdjacent a b size = isAdjacent b a size /\
  isAdjacent a a size = false.
Proof.
  intros Hs Ha Hb. split; [now apply isAdjacent_distance|].
  split; [apply isAdjacent_sym|apply isAdjacent_irrefl].
Qed.

End Adjacency.

Section Degenerate.

(** X4.  On a board of at most one cell the loop of [shuffleBoard] never
    leaves: the only arrangement is the solved one, which the loop
    rejects. *)
Theorem shuffleBoard_spins_on_one_cell (P : Platform) (fuel : nat) (w : World) (size : Z) :
  sort_rearranges P ->
  size * size <= 1 ->
  shuffleBoard P fuel w size = None.
Proof.
  intros Hsort Hsize. unfold shuffleBoard.
  set (solved := createSolvedBoard size).
  assert (Hsolved : solved = [] \/ solved = [JS.Num 0]).
  { subst solved. unfold createSolvedBoard.
    assert (H : Z.to_nat (size * size) = 0%nat \/ Z.to_nat (size * size) = 1%nat) by lia.
    destruct H as [-> | ->]; [now left|now right]. }
  assert (Hagain : forall w0,
             shuffle_again (fst (sort_random P w0 (JS.spread solved))) solved size
                           (JS.length solved - 1) = true).
  { intros w0. pose proof (Hsort w0 (JS.spread solved)) as Hp.
    destruct Hsolved as [-> | ->]; unfold JS.spread in *; cbn [map] in *.
    - apply Permutation_sym, Permutation_nil in Hp. rewrite Hp. unfold shuffle_again.
      simpl. now rewrite orb_true_r.
    - apply Permutation_sym, Permutation_length_1_inv in Hp. rewrite Hp.
      unfold shuffle_again.
      simpl. now rewrite orb_true_r. }
  revert w. induction fuel as [|fuel IH]; intros w; simpl; [reflexivity|].
  specialize (Hagain w).
  destruct (sort_random P w (JS.spread solved)) as [c w1]. simpl in Hagain.
  rewrite Hagain. apply IH.
Qed.

End Degenerate.

Section RandomChoice.

Lemma picked_index_in_range (w : World) (n : nat) :
  (0 < n)%nat -> (picked_index w n < n)%nat.
Proof.
  intros Hn. unfold picked_index, Math_random. cbn [fst].
  destruct (draw_bounds (randoms w 0%nat)) as [H0 H1].
  pose proof (floor_scaled_range _ (Z.of_nat n) H0 H1 ltac:(lia)). lia.
Qed.

(** The list from which [randomFrom] draws. *)
Lemma randomFrom_unfold {T : Type} (getId : T -> option string) (items : list T)
      (excludeId : option string) (w : World) :
  items <> [] ->
  exists filtered,
    randomFrom getId items excludeId w =
    Normal (nth_error filtered (picked_index w (List.length filtered)),
            snd (Math_random w)) /\
    incl filtered items /\
    ((excludeId = None \/ excludeId = Some EmptyString \/ List.length items = 1%nat) ->
     filtered = items) /\
    (forall c s image,
        excludeId = Some (String c s) -> (1 < List.length items)%nat ->
        In image filtered -> getId image <> Some (String c s)).
Proof.
  intros Hne. unfold randomFrom, picked_index.
  destruct (Z.eqb_spec (Z.of_nat (List.length items)) 0) as [E|_];
    [destruct items; [contradiction|discriminate]|].
  destruct excludeId as [[|c s]|].
  - exists items. repeat split; auto using incl_refl; intros; discriminate.
  - destruct (Z.ltb_spec 1 (Z.of_nat (List.length items))) as [Hlt|Hge].
    + eexists. split; [reflexivity|]. split; [apply incl_filter|]. split.
      * intros [H|[H|H]]; [discriminate|discriminate|lia].
      * intros c' s' image E _ Hin. injection E as <- <-.
        apply filter_In in Hin as [_ Hid].
        destruct (getId image) as [i|]; [|discriminate].
        intros E. injection E as ->. now rewrite String.eqb_refl in Hid.
    + exists items. repeat split; auto using incl_refl. intros; lia.
  - exists items. repeat split; auto using incl_refl; intros; discriminate.
Qed.

Lemma filter_empty {A : Type} (f : A -> bool) (l : list A) :
  filter f l = [] <-> forall x, In x l -> f x = false.
Proof.
  induction l as [|a l IH]; simpl.
  - split; [intros _ x []|reflexivity].
  - destruct (f a) eqn:E.
    + split; [discriminate|]. intros H. specialize (H a (or_introl eq_refl)). congruence.
    + rewrite IH. split.
      * intros H x [<-|Hx]; [exact E|now apply H].
      * intros H x Hx. apply H. now right.
Qed.

(** When [randomFrom] gives [undefined]: every element carries the
    identifier that is excluded. *)
Lemma randomFrom_undefined {T : Type} (getId : T -> option string) (items : list T)
      (excludeId : option string) (w : World) :
  items <> [] ->
  randomFrom getId items excludeId w = Normal (None, snd (Math_random w)) <->
  exists c s,
    excludeId = Some (String c s) /\ (1 < List.length items)%nat /\
    forall item, In item items -> getId item = Some (String c s).
Proof.
  intros Hne.
  assert (Hpos : (0 < List.length items)%nat)
    by (destruct items; [contradiction|simpl; lia]).
  assert (Whole :
    nth_error items (picked_index w (List.length items)) = None -> False).
  { intros E. apply nth_error_None in E.
    pose proof (picked_index_in_range w _ Hpos). lia. }
  unfold randomFrom. fold (picked_index w).
  destruct (Z.eqb_spec (Z.of_nat (List.length items)) 0) as [E|_]; [lia|].
  assert (Plain :
    (exists c s,
        excludeId = Some (String c s) /\ (1 < List.length items)%nat /\
        forall item, In item items -> getId item = Some (String c s)) ->
    exists c s, excludeId = Some (String c s) /\ (1 < List.length items)%nat)
    by (intros (c & s & H1 & H2 & _); eauto).
  destruct excludeId as [[|c s]|].
  - unfold Math_random, picked_index in *. cbn [fst snd] in *. split.
    + intros E. injection E as E. now apply Whole in E.
    + intros H. apply Plain in H as (c & s & H & _). discriminate.
  - destruct (Z.ltb_spec 1 (Z.of_nat (List.length items))) as [Hlt|Hge].
    + set (keep := fun entry : T =>
                     match getId entry with
                     | Some i => negb (String.eqb i (String c s))
                     | None => true
                     end).
      assert (Hall : filter keep items = [] <->
                     forall item, In item items -> getId item = Some (String c s)).
      { rewrite filter_empty. split; intros H item Hin; specialize (H item Hin).
        - unfold keep in H. destruct (getId item) as [i|]; [|discriminate].
          apply negb_false_iff, String.eqb_eq in H. now subst i.
        - unfold keep. rewrite H. now rewrite String.eqb_refl. }
      unfold Math_random, picked_index in *. cbn [fst snd] in *. split.
      * intros E. injection E as E. exists c, s. split; [reflexivity|].
        split; [lia|]. apply Hall.
        destruct (filter keep items) as [|x rest] eqn:Ef; [reflexivity|].
        exfalso. apply nth_error_None in E.
        pose proof (picked_index_in_range w (List.length (x :: rest)) ltac:(simpl; lia)) as Hr.
        exact (Nat.lt_irrefl _ (Nat.lt_le_trans _ _ _ Hr E)).
      * intros (c' & s' & E & _ & H). injection E as <- <-.
        apply Hall in H. fold keep. rewrite H.
        f_equal. f_equal. apply nth_error_None. simpl. lia.
    + unfold Math_random, picked_index in *. cbn [fst snd] in *. split.
      * intros E. injection E as E. now apply Whole in E.
      * intros (c' & s' & _ & Hl & _). lia.
  - unfold Math_random, picked_index in *. cbn [fst snd] in *. split.
    + intros E. injection E as E. now apply Whole in E.
    + intros H. apply Plain in H as (c & s & H & _). discriminate.
Qed.

(** X5.  What [randomFrom] does.  It throws on the empty array and on no
    other.  On an array that is not empty it takes one draw and returns
    either an element of the array or [undefined].  An element returned
    is a member of the array and, when an identifier is excluded from an
    array of more than one element, has another identifier.  [undefined]
    is returned exactly when an identifier is excluded from an array of
    more than one element all of whose elements carry it: nothing is left
    to choose from, and the read at index 0 finds nothing. *)
Theorem randomFrom_outcome
        {T : Type} (getId : T -> option string) (items : list T)
        (excludeId : option string) (w : World) :
  (items = [] ->
   randomFrom getId items excludeId w = Throw "Cannot select from an empty array") /\
  (items <> [] ->
   exists x,
     randomFrom getId items excludeId w = Normal (x, snd (Math_random w)) /\
     (forall image,
         x = Some image ->
         In image items /\
         (forall c s, excludeId = Some (String c s) -> (1 < List.length items)%nat ->
                      getId image <> Some (String c s))) /\
     (x = None <->
      exists c s,
        excludeId = Some (String c s) /\ (1 < List.length items)%nat /\
        forall item, In item items -> getId item = Some (String c s))).
Proof.
  split.
  - intros ->. reflexivity.
  - intros Hne.
    destruct (randomFrom_unfold getId items excludeId w Hne)
      as (filtered & Hrun & Hincl & Hall & Hother).
    eexists. split; [exact Hrun|]. split.
    + intros image Hx. apply nth_error_In in Hx. split; [now apply Hincl|].
      intros c s Hex Hlen. now apply (Hother c s image Hex Hlen).
    + rewrite <- (randomFrom_undefined getId items excludeId w Hne). rewrite Hrun.
      split; [now intros ->|]. intros E. now injection E.
Qed.

End RandomChoice.

Section Leaderboard.

Lemma insert_by_moves_split (e : ScoreEntry.t) (s : list ScoreEntry.t) :
  exists s1 s2,
    s = s1 ++ s2 /\
    insert_by_moves e s = s1 ++ e :: s2 /\
    (forall y, In y s1 -> ScoreEntry.moves y <= ScoreEntry.moves e).
Proof.
  induction s as [|x s (s1 & s2 & Hs & Hi & Hle)]; simpl.
  - exists [], []. repeat split. intros y [].
  - destruct (Z.ltb_spec (ScoreEntry.moves e - ScoreEntry.moves x) 0) as [Hlt|Hge].
    + exists [], (x :: s). repeat split. intros y [].
    + exists (x :: s1), s2. subst s. rewrite Hi. repeat split.
      intros y [<-|Hy]; [lia|now apply Hle].
Qed.

(** X6.  When a result enters a ranking that is in order.  With fewer
    than eight entries the result is inserted and nothing is dropped.
    With eight entries, a result that has at least as many moves as each
    of them leaves the ranking as it is (a tie with the last place does
    not enter), and a result with fewer moves than one of them enters,
    the ranking keeping eight entries. *)
Theorem recordResult_on_a_ranking (previous : list ScoreEntry.t) (entry : ScoreEntry.t) :
  StronglySorted Spec.by_moves previous ->
  ((List.length previous < 8)%nat ->
   recordResult previous entry = insert_by_moves entry previous /\
   Permutation (recordResult previous entry) (entry :: previous)) /\
  (List.length previous = 8%nat ->
   (forall x, In x previous -> ScoreEntry.moves x <= ScoreEntry.moves entry) ->
   recordResult previous entry = previous) /\
  (List.length previous = 8%nat ->
   (exists x, In x previous /\ ScoreEntry.moves entry < ScoreEntry.moves x) ->
   In entry (recordResult previous entry) /\
   List.length (recordResult previous entry) = 8%nat).
Proof.
  intros Hsorted.
  assert (E : recordResult previous entry = firstn 8 (insert_by_moves entry previous)).
  { unfold recordResult. now rewrite sort_by_moves_snoc, sort_by_moves_of_sorted. }
  pose proof (Permutation_length (insert_by_moves_Permutation entry previous)) as Hlen.
  simpl in Hlen.
  split; [|split].
  - intros Hlt. rewrite E, firstn_all2 by lia.
    split; [reflexivity|apply insert_by_moves_Permutation].
  - intros H8 Hall. rewrite E, insert_by_moves_last by exact Hall.
    rewrite firstn_app, <- H8, firstn_all, Nat.sub_diag. simpl. apply app_nil_r.
  - intros H8 [x [Hx Hlt]]. rewrite E.
    destruct (insert_by_moves_split entry previous) as (s1 & s2 & Hs & Hi & Hle).
    assert (Hs1 : (List.length s1 < 8)%nat).
    { destruct s2 as [|y s2].
      - exfalso. rewrite app_nil_r in Hs. subst s1. specialize (Hle x Hx). lia.
      - rewrite Hs, length_app in H8. simpl in H8. lia. }
    split.
    + rewrite Hi, firstn_app. apply in_or_app. right.
      destruct (8 - List.length s1)%nat as [|n] eqn:En; [lia|]. now left.
    + rewrite length_firstn. lia.
Qed.

End Leaderboard.

(** ** The parity of the inversions under a move *)

Section InversionCount.

Variable blank : Z.

Lemma length_filter_map {A B} (f : B -> bool) (g : A -> B) (l : list A) :
  List.length (filter f (map g l)) = List.length (filter (fun a => f (g a)) l).
Proof.
  induction l as [|a l IH]; simpl; [reflexivity|].
  destruct (f (g a)); simpl; now rewrite IH.
Qed.

Lemma length_filter_by_index (p : Z -> bool) (l : list Z) :
  List.length (filter (fun j => p (nth j l 0)) (seq 0 (List.length l))) =
  List.length (filter p l).
Proof.
  induction l as [|x l IH]; [reflexivity|].
  cbn [List.length seq]. rewrite <- seq_shift. cbn [filter nth].
  destruct (p x); cbn [List.length]; rewrite length_filter_map; cbn [nth];
    now rewrite IH.
Qed.

Lemma inversions_by_rows (zs : list Z) :
  Spec.inversions zs blank =
  list_sum (map (fun i => List.length
                            (filter (fun j => Spec.is_inversion zs blank (i, j))
                                    (seq 0 (List.length zs))))
                (seq 0 (List.length zs))).
Proof.
  unfold Spec.inversions. apply length_filter_list_prod.
Qed.

Lemma inversions_row_head (x : Z) (zs : list Z) :
  List.length (filter (fun j => Spec.is_inversion (x :: zs) blank (0%nat, j))
                      (seq 0 (S (List.length zs)))) =
  smaller blank x zs.
Proof.
  cbn [seq]. rewrite <- seq_shift. cbn [filter Spec.is_inversion Nat.ltb Nat.leb andb].
  rewrite length_filter_map. unfold smaller. cbn [nth Nat.ltb Nat.leb andb].
  destruct (x =? blank); cbn [negb andb].
  - now rewrite filter_none by reflexivity.
  - now rewrite <- (length_filter_by_index
                      (fun y => negb (y =? blank) && (y <? x)) zs).
Qed.

Lemma inversions_row_tail (x : Z) (zs : list Z) (i : nat) :
  List.length (filter (fun j => Spec.is_inversion (x :: zs) blank (S i, j))
                      (seq 0 (S (List.length zs)))) =
  List.length (filter (fun j => Spec.is_inversion zs blank (i, j))
                      (seq 0 (List.length zs))).
Proof.
  cbn [seq]. rewrite <- seq_shift. cbn [filter Spec.is_inversion Nat.ltb Nat.leb andb].
  now rewrite length_filter_map.
Qed.

Lemma inversions_structural (zs : list Z) :
  Spec.inversions zs blank = inversions_of blank zs.
Proof.
  rewrite inversions_by_rows.
  induction zs as [|x zs IH]; [reflexivity|].
  cbn [inversions_of]. rewrite <- IH.
  change (List.length (x :: zs)) with (S (List.length zs)).
  change (seq 0 (S (List.length zs))) with (0%nat :: seq 1 (List.length zs)) at 2.
  rewrite <- seq_shift. cbn [map]. rewrite map_map.
  change (list_sum (?a :: ?l)) with (a + list_sum l)%nat.
  rewrite inversions_row_head. f_equal. f_equal.
  apply map_ext. intros i. apply inversions_row_tail.
Qed.

Lemma smaller_app (x : Z) (l1 l2 : list Z) :
  smaller blank x (l1 ++ l2) = (smaller blank x l1 + smaller blank x l2)%nat.
Proof.
  unfold smaller. destruct (x =? blank); [reflexivity|].
  now rewrite filter_app, length_app.
Qed.

Lemma inversions_of_app (l1 l2 : list Z) :
  inversions_of blank (l1 ++ l2) =
  (inversions_of blank l1 + inversions_across blank l1 l2 + inversions_of blank l2)%nat.
Proof.
  induction l1 as [|x l1 IH]; simpl; [reflexivity|].
  rewrite smaller_app, IH. lia.
Qed.

Lemma length_filter_Permutation {A} (f : A -> bool) (l l' : list A) :
  Permutation l l' -> List.length (filter f l) = List.length (filter f l').
Proof.
  induction 1 as [|a l l' _ IH|a b l|l l' l'' _ IH1 _ IH2]; simpl.
  - reflexivity.
  - destruct (f a); simpl; now rewrite IH.
  - destruct (f a), (f b); reflexivity.
  - now rewrite IH1.
Qed.

Lemma inversions_across_Permutation (front back back' : list Z) :
  Permutation back back' ->
  inversions_across blank front back = inversions_across blank front back'.
Proof.
  intros Hp. induction front as [|x front IH]; simpl; [reflexivity|].
  rewrite IH. f_equal. unfold smaller. destruct (x =? blank); [reflexivity|].
  now apply length_filter_Permutation.
Qed.

Lemma smaller_blank_behind (x : Z) (l : list Z) :
  smaller blank x (blank :: l) = smaller blank x l.
Proof.
  unfold smaller. destruct (x =? blank); [reflexivity|].
  cbn [filter]. now rewrite Z.eqb_refl.
Qed.

Lemma inversions_across_blank (front back : list Z) :
  inversions_across blank front (blank :: back) = inversions_across blank front back.
Proof.
  induction front as [|x front IH]; simpl; [reflexivity|].
  now rewrite smaller_blank_behind, IH.
Qed.

Lemma inversions_across_tile (t : Z) (front back : list Z) :
  t <> blank ->
  inversions_across blank front (t :: back) =
  (greater blank t front + inversions_across blank front back)%nat.
Proof.
  intros Ht. unfold greater.
  induction front as [|x front IH]; [reflexivity|].
  cbn [inversions_across filter]. rewrite IH. unfold smaller.
  destruct (Z.eqb_spec x blank) as [->|Hx]; cbn [negb andb]; [lia|].
  cbn [filter]. destruct (Z.eqb_spec t blank); [contradiction|]. cbn [negb andb].
  destruct (t <? x); cbn [List.length]; lia.
Qed.

Lemma smaller_plus_greater (t : Z) (l : list Z) :
  t <> blank -> ~ In blank l -> ~ In t l ->
  (smaller blank t l + greater blank t l)%nat = List.length l.
Proof.
  intros Ht Hb Hin. unfold smaller, greater.
  destruct (Z.eqb_spec t blank); [contradiction|].
  induction l as [|x l IH]; [reflexivity|].
  assert (Hx : x <> blank) by (intros ->; apply Hb; now left).
  assert (Hxt : x <> t) by (intros ->; apply Hin; now left).
  specialize (IH ltac:(intros H; apply Hb; now right) ltac:(intros H; apply Hin; now right)).
  cbn [filter]. destruct (Z.eqb_spec x blank); [contradiction|]. cbn [negb andb].
  destruct (Z.ltb_spec x t), (Z.ltb_spec t x); cbn [List.length]; lia.
Qed.

Lemma inversions_of_blank_head (l : list Z) :
  inversions_of blank (blank :: l) = inversions_of blank l.
Proof.
  cbn [inversions_of]. unfold smaller. now rewrite Z.eqb_refl.
Qed.

(** The blank and a tile change places over the tiles [m]: the count of
    the inversions moves by the tiles of [m] on one side of the tile and
    by those on the other. *)
Lemma inversions_of_exchange (t : Z) (m back : list Z) :
  t <> blank ->
  (inversions_of blank (t :: m ++ blank :: back) + greater blank t m)%nat =
  (inversions_of blank (blank :: m ++ t :: back) + smaller blank t m)%nat.
Proof.
  intros Ht. rewrite inversions_of_blank_head.
  change (inversions_of blank (t :: m ++ blank :: back))
    with (smaller blank t (m ++ blank :: back)
          + inversions_of blank (m ++ blank :: back))%nat.
  rewrite !inversions_of_app, smaller_app, smaller_blank_behind.
  rewrite inversions_of_blank_head.
  rewrite inversions_across_blank, (inversions_across_tile t m back Ht).
  change (inversions_of blank (t :: back))
    with (smaller blank t back + inversions_of blank back)%nat.
  lia.
Qed.

End InversionCount.

Section ParityInvariant.

Lemma nth_outside_pair (l1 m l3 : list Z) (a b a' b' : Z) :
  forall k,
    k <> List.length l1 -> k <> (List.length l1 + S (List.length m))%nat ->
    nth k (l1 ++ a :: m ++ b :: l3) 0 = nth k (l1 ++ a' :: m ++ b' :: l3) 0.
Proof.
  induction l1 as [|c l1 IH]; intros k H1 H2.
  - destruct k as [|k]; [contradiction|]. cbn [app nth]. cbn [List.length] in H2.
    assert (Hk : k <> List.length m) by lia. clear H1 H2.
    revert k Hk. induction m as [|c m IHm]; intros k Hk.
    + destruct k as [|k]; [contradiction|reflexivity].
    + destruct k as [|k]; [reflexivity|]. cbn [app nth]. apply IHm.
      cbn [List.length] in Hk. lia.
  - destruct k as [|k]; [reflexivity|]. cbn [app nth]. apply IH.
    + cbn [List.length] in H1. lia.
    + cbn [List.length] in H2. lia.
Qed.

Lemma nth_second_of_pair (l1 m l3 : list Z) (a b : Z) :
  nth (List.length l1 + S (List.length m)) (l1 ++ a :: m ++ b :: l3) 0 = b.
Proof.
  replace (l1 ++ a :: m ++ b :: l3) with ((l1 ++ a :: m) ++ b :: l3)
    by now rewrite <- app_assoc.
  replace (List.length l1 + S (List.length m))%nat with (List.length (l1 ++ a :: m))
    by (rewrite length_app; reflexivity).
  apply nth_middle.
Qed.

Lemma swapped_pair (l1 m l3 : list Z) (a b : Z) :
  Spec.swapped (l1 ++ a :: m ++ b :: l3)
               (List.length l1) (List.length l1 + S (List.length m)) =
  l1 ++ b :: m ++ a :: l3.
Proof.
  assert (Hlen : forall x y, List.length (l1 ++ x :: m ++ y :: l3) =
                             (List.length l1 + S (List.length m + S (List.length l3)))%nat).
  { intros x y. rewrite length_app. cbn [List.length]. rewrite length_app. reflexivity. }
  apply (nth_ext _ _ 0 0).
  - now rewrite swapped_length, !Hlen.
  - intros k Hk. rewrite swapped_length in Hk. rewrite nth_swapped by exact Hk.
    destruct (Nat.eqb_spec k (List.length l1)) as [->|H1].
    + now rewrite nth_second_of_pair, nth_middle.
    + destruct (Nat.eqb_spec k (List.length l1 + S (List.length m))) as [->|H2].
      * now rewrite nth_second_of_pair, nth_middle.
      * now apply nth_outside_pair.
Qed.

Lemma swapped_sym (zs : list Z) (i j : nat) :
  Spec.swapped zs i j = Spec.swapped zs j i.
Proof.
  unfold Spec.swapped. apply map_ext. intros k.
  destruct (Nat.eqb_spec k i) as [Hi|Hi], (Nat.eqb_spec k j) as [Hj|Hj];
    subst; reflexivity.
Qed.

Lemma split_at_pair (zs : list Z) (i j : nat) :
  (i < j)%nat -> (j < List.length zs)%nat ->
  exists l1 m l3,
    zs = l1 ++ nth i zs 0 :: m ++ nth j zs 0 :: l3 /\
    List.length l1 = i /\ j = (i + S (List.length m))%nat.
Proof.
  intros Hij Hj.
  destruct (nth_split zs 0 Hj) as (front & l3 & Hzs & Hfront).
  assert (Hi : (i < List.length front)%nat) by lia.
  destruct (nth_split front 0 Hi) as (l1 & m & Hf & Hl1).
  assert (Hx : nth i front 0 = nth i zs 0).
  { rewrite Hzs at 1. now rewrite app_nth1. }
  exists l1, m, l3. split; [|split].
  - rewrite Hzs at 1. rewrite Hf, Hx, <- app_assoc. reflexivity.
  - exact Hl1.
  - rewrite <- Hfront, Hf, length_app. cbn [List.length]. lia.
Qed.

Lemma even_rem2 (x : Z) :
  0 <= x -> (Z.rem x 2 =? 0) = Z.even x /\ (Z.rem x 2 =? 1) = negb (Z.even x).
Proof.
  intros Hx. rewrite Z.rem_mod_nonneg, Zmod_even by lia.
  destruct (Z.even x); split; reflexivity.
Qed.

(** What [isSolvable] computes on a board. *)
Lemma isSolvable_numbers (size : Z) (zs : list Z) (e : nat) :
  0 < size -> Spec.board size zs ->
  nth_error zs e = Some (size * size - 1) ->
  isSolvable (map JS.Num zs) size =
  solvable_by size (Z.of_nat (inversions_of (size * size - 1) zs)) (Z.of_nat e).
Proof.
  intros Hs Hb He. unfold isSolvable, solvable_by, JS.length.
  rewrite length_map, (board_length size zs ltac:(lia) Hb).
  rewrite countInversions_numbers, inversions_structural.
  now rewrite (indexOf_numbers zs _ e (board_NoDup size zs Hb) He).
Qed.

(** The inversions of a board before and after the blank at [e] and the
    tile at [t] change places: the two counts differ by [g] one way and by
    [s] the other, [g] and [s] being the tiles between the two places on
    either side of the tile that moves. *)
Lemma inversions_after_swap (blank : Z) (zs : list Z) (t e : nat) :
  NoDup zs ->
  (t < List.length zs)%nat ->
  nth_error zs e = Some blank ->
  t <> e ->
  exists g s : nat,
    (Z.of_nat g + Z.of_nat s = Z.abs (Z.of_nat t - Z.of_nat e) - 1) /\
    (inversions_of blank zs + g = inversions_of blank (Spec.swapped zs t e) + s)%nat.
Proof.
  intros Hnd Ht He Hne.
  assert (Hel : (e < List.length zs)%nat) by (apply nth_error_Some; congruence).
  assert (Hblank : nth e zs 0 = blank).
  { rewrite (nth_error_nth' zs 0 Hel) in He. congruence. }
  assert (Htile : nth t zs 0 <> blank).
  { rewrite <- Hblank. intros E. apply Hne.
    apply (proj1 (NoDup_nth zs 0) Hnd); assumption. }
  assert (Core : forall i j l1 m l3,
             (i < j)%nat ->
             zs = l1 ++ nth i zs 0 :: m ++ nth j zs 0 :: l3 ->
             List.length l1 = i -> j = (i + S (List.length m))%nat ->
             forall tile,
               ((nth i zs 0 = tile /\ nth j zs 0 = blank) \/
                (nth i zs 0 = blank /\ nth j zs 0 = tile)) ->
               tile <> blank ->
               (Z.of_nat (greater blank tile m) + Z.of_nat (smaller blank tile m)
                = Z.of_nat j - Z.of_nat i - 1) /\
               (inversions_of blank (l1 ++ tile :: m ++ blank :: l3)
                + greater blank tile m =
                inversions_of blank (l1 ++ blank :: m ++ tile :: l3)
                + smaller blank tile m)%nat).
  { intros i j l1 m l3 Hij Hzs Hl1 Hjm tile Hwhich Htl.
    assert (Hnd' : NoDup (l1 ++ nth i zs 0 :: m ++ nth j zs 0 :: l3))
      by now rewrite <- Hzs.
    apply NoDup_remove in Hnd' as [Hnd1 Hni].
    apply NoDup_app_remove_l in Hnd1.
    apply NoDup_remove in Hnd1 as [_ Hnj].
    assert (Him : ~ In (nth i zs 0) m)
      by (intros H; apply Hni, in_or_app; right; apply in_or_app; now left).
    assert (Hjm' : ~ In (nth j zs 0) m)
      by (intros H; apply Hnj, in_or_app; now left).
    assert (Hbm : ~ In blank m) by (destruct Hwhich as [[_ <-]|[<- _]]; assumption).
    assert (Htm : ~ In tile m) by (destruct Hwhich as [[<- _]|[_ <-]]; assumption).
    split.
    - pose proof (smaller_plus_greater blank tile m Htl Hbm Htm). lia.
    - rewrite !inversions_of_app.
      rewrite (inversions_across_Permutation blank l1
                 (tile :: m ++ blank :: l3) (blank :: m ++ tile :: l3)).
      + pose proof (inversions_of_exchange blank tile m l3 Htl). lia.
      + rewrite !app_comm_cons.
        change (tile :: m ++ blank :: l3) with ((tile :: m) ++ blank :: l3).
        change (blank :: m ++ tile :: l3) with ((blank :: m) ++ tile :: l3).
        rewrite <- !Permutation_middle. apply perm_swap. }
  destruct (Nat.lt_total t e) as [Hlt|[Heq|Hgt]]; [|contradiction|].
  - destruct (split_at_pair zs t e Hlt Hel) as (l1 & m & l3 & Hzs & Hl1 & Hjm).
    destruct (Core t e l1 m l3 Hlt Hzs Hl1 Hjm (nth t zs 0)
                   ltac:(left; now split) Htile) as [Hcount Hinv].
    exists (greater blank (nth t zs 0) m), (smaller blank (nth t zs 0) m).
    split; [lia|].
    assert (Hsw : Spec.swapped zs t e = l1 ++ blank :: m ++ nth t zs 0 :: l3).
    { rewrite Hzs at 1. rewrite <- Hl1 at 1. rewrite Hjm, <- Hl1.
      rewrite swapped_pair. now rewrite Hl1, <- Hjm, Hblank. }
    rewrite Hsw. rewrite Hzs at 1. rewrite Hblank. exact Hinv.
  - destruct (split_at_pair zs e t Hgt Ht) as (l1 & m & l3 & Hzs & Hl1 & Hjm).
    destruct (Core e t l1 m l3 Hgt Hzs Hl1 Hjm (nth t zs 0)
                   ltac:(right; now split) Htile) as [Hcount Hinv].
    exists (smaller blank (nth t zs 0) m), (greater blank (nth t zs 0) m).
    split; [lia|].
    assert (Hsw : Spec.swapped zs t e = l1 ++ nth t zs 0 :: m ++ blank :: l3).
    { rewrite swapped_sym. rewrite Hzs at 1. rewrite <- Hl1 at 1. rewrite Hjm, <- Hl1.
      rewrite swapped_pair. now rewrite Hl1, <- Hjm, Hblank. }
    rewrite Hsw. rewrite Hzs at 1. rewrite Hblank. symmetry. exact Hinv.
Qed.

Lemma solvable_by_after_move (size inv inv' e t g s : Z) :
  0 < size ->
  0 <= e < size * size -> 0 <= t < size * size ->
  0 <= inv -> 0 <= inv' -> 0 <= g -> 0 <= s ->
  g + s = Z.abs (t - e) - 1 ->
  inv + g = inv' + s ->
  isAdjacent t e size = true ->
  solvable_by size inv' t = solvable_by size inv e.
Proof.
  intros Hs He Ht Hi Hi' Hg Hs' Hcount Hinv Hadj.
  apply isAdjacent_distance in Hadj; [|lia|lia|lia].
  assert (Hrow : forall x, 0 <= x < size * size -> 0 <= x / size < size).
  { intros x Hx. split; [apply Z.div_pos; lia|apply Z.div_lt_upper_bound; lia]. }
  pose proof (Hrow e He) as Hre. pose proof (Hrow t Ht) as Hrt.
  unfold solvable_by.
  destruct (even_rem2 size ltac:(lia)) as [_ ->].
  destruct (even_rem2 inv Hi) as [-> ->].
  destruct (even_rem2 inv' Hi') as [-> ->].
  destruct (even_rem2 (size - e / size) ltac:(lia)) as [-> _].
  destruct (even_rem2 (size - t / size) ltac:(lia)) as [-> _].
  assert (Epar : Z.even (inv + g) = Z.even (inv' + s)) by now rewrite Hinv.
  rewrite !Z.even_add in Epar.
  destruct Hadj as [Hd|[Hd Hq]].
  - assert (Hq : t / size = e / size + 1 \/ t / size = e / size - 1).
    { destruct (Z.abs_spec (t - e)) as [[_ E]|[_ E]].
      - left. replace t with (e + 1 * size) by lia. apply Z.div_add. lia.
      - right. replace t with (e + (-1) * size) by lia.
        rewrite Z.div_add by lia. lia. }
    assert (Egs : Z.even (g + s) = Z.even (size - 1)) by (f_equal; lia).
    rewrite Z.even_add, Z.even_sub in Egs. change (Z.even 1) with false in Egs.
    rewrite !Z.even_sub.
    destruct Hq as [-> | ->]; rewrite ?Z.even_add, ?Z.even_sub;
      change (Z.even 1) with false;
      destruct (Z.even size), (Z.even (e / size)), (Z.even inv), (Z.even inv'),
               (Z.even g), (Z.even s); simpl in *; congruence.
  - rewrite Hq.
    assert (Egs : Z.even (g + s) = true) by (replace (g + s) with 0 by lia; reflexivity).
    rewrite Z.even_add in Egs.
    destruct (Z.even size), (Z.even (size - e / size)), (Z.even inv), (Z.even inv'),
             (Z.even g), (Z.even s); simpl in *; congruence.
Qed.

Lemma attemptMove_isSolvable
      (P : Platform) (st : App) (zs : list Z) (tileIndex : Z) (w : World) :
  status st = playing ->
  Spec.holds_board st zs ->
  board_index st tileIndex ->
  isAdjacent tileIndex (JS.indexOf (tiles st) (blankValue st))
             (DifficultyOption.size (activeDifficulty st)) = true ->
  isSolvable (tiles (state_of (attemptMove P st tileIndex w)))
             (DifficultyOption.size (activeDifficulty st)) =
  isSolvable (tiles st) (DifficultyOption.size (activeDifficulty st)).
Proof.
  intros Hst Hb Hidx Hadj.
  destruct (board_setup st zs Hb) as (Hs & Hlen & e & Hlt & He & Hix).
  set (size := DifficultyOption.size (activeDifficulty st)) in *.
  unfold board_index in Hidx. unfold tileCount in Hlen, Hidx. fold size in Hlen, Hidx.
  unfold blankValue, tileCount in He. fold size in He.
  rewrite Hix in Hadj.
  rewrite (attemptMove_tiles P st zs tileIndex w e Hst Hb
             ltac:(unfold board_index, tileCount; fold size; lia) Hix Hlt Hadj).
  destruct Hb as [Ht Hb]. rewrite Ht.
  assert (Htlt : (Z.to_nat tileIndex < List.length zs)%nat) by lia.
  assert (Hne : Z.to_nat tileIndex <> e).
  { intros <-. rewrite Z2Nat.id, isAdjacent_irrefl in Hadj by lia. discriminate. }
  assert (Hpos : nth_error (Spec.swapped zs (Z.to_nat tileIndex) e) (Z.to_nat tileIndex)
                 = Some (size * size - 1)).
  { rewrite (nth_error_nth' _ 0) by (rewrite swapped_length; lia).
    rewrite nth_swapped, Nat.eqb_refl by lia.
    rewrite <- He. symmetry. now apply nth_error_nth'. }
  rewrite (isSolvable_numbers size _ (Z.to_nat tileIndex) Hs
             (swapped_board size zs _ e Hb Htlt Hlt) Hpos).
  rewrite (isSolvable_numbers size zs e Hs Hb He).
  destruct (inversions_after_swap (size * size - 1) zs (Z.to_nat tileIndex) e
              (board_NoDup size zs Hb) Htlt He Hne) as (g & s & Hcount & Hinv).
  rewrite Z2Nat.id in * by lia.
  apply (solvable_by_after_move size _ _ _ _ (Z.of_nat g) (Z.of_nat s)); try lia.
  exact Hadj.
Qed.

(** X7.  A legal move keeps the answer of [isSolvable]: while the session
    is playing, on a board and for the index of a cell that the validator
    accepts, the board after [attemptMove] passes [isSolvable] exactly if
    the board before does. *)
Theorem legal_move_keeps_isSolvable
        (P : Platform) (st : App) (zs : list Z) (tileIndex : Z) (w : World) :
  status st = playing ->
  Spec.holds_board st zs ->
  board_index st tileIndex ->
  isAdjacent tileIndex (JS.indexOf (tiles st) (blankValue st))
             (DifficultyOption.size (activeDifficulty st)) = true ->
  isSolvable (tiles (state_of (attemptMove P st tileIndex w)))
             (DifficultyOption.size (activeDifficulty st)) =
  isSolvable (tiles st) (DifficultyOption.size (activeDifficulty st)).
Proof.
  apply attemptMove_isSolvable.
Qed.

End ParityInvariant.

(** ** The session *)

Section SessionInvariant.

Variable P : Platform.
Hypothesis sort_ok : sort_rearranges P.

Lemma others_in_catalog (e : string) :
  (2 <= List.length
          (filter (fun entry => negb (String.eqb (DemonImage.id entry) e)) demonImages))%nat.
Proof.
  unfold demonImages. cbn [filter].
  destruct (String.eqb_spec (DemonImage.id starlit_reaper) e) as [E1|E1];
    destruct (String.eqb_spec (DemonImage.id midnight_sigil) e) as [E2|E2];
    destruct (String.eqb_spec (DemonImage.id crimson_halo) e) as [E3|E3];
    cbn [negb List.length]; try lia; exfalso; subst e; discriminate.
Qed.

Lemma randomFrom_demonImages (current : DemonImage.t) (w : World) :
  exists image,
    randomFrom image_id demonImages (Some (DemonImage.id current)) w
    = Normal (Some image, snd (Math_random w)) /\
    In image demonImages.
Proof.
  assert (G : exists filtered,
             randomFrom image_id demonImages (Some (DemonImage.id current)) w =
             Normal (nth_error filtered (picked_index w (List.length filtered)),
                     snd (Math_random w)) /\
             incl filtered demonImages /\ (2 <= List.length filtered)%nat).
  { unfold randomFrom, picked_index.
    destruct (DemonImage.id current) as [|c s].
    - exists demonImages. split; [reflexivity|]. split; [apply incl_refl|simpl; lia].
    - exists (filter (fun entry => negb (String.eqb (DemonImage.id entry) (String c s)))
                     demonImages).
      split; [reflexivity|]. split; [apply incl_filter|apply others_in_catalog]. }
  destruct G as (filtered & Hrun & Hincl & Hlen).
  pose proof (picked_index_in_range w (List.length filtered) ltac:(lia)) as Hlt.
  destruct (nth_error filtered (picked_index w (List.length filtered))) as [image|] eqn:E;
    [|apply nth_error_None in E; lia].
  exists image. split; [exact Hrun|]. apply Hincl. eapply nth_error_In; eauto.
Qed.

Lemma targetDifficulty_In (st : App) (options : StartOptions) :
  In (targetDifficulty st options) difficulties.
Proof.
  unfold targetDifficulty.
  destruct (find_difficulty (targetDifficultyId options)) eqn:E.
  - eapply find_difficulty_In; eauto.
  - apply activeDifficulty_In.
Qed.

Lemma startPuzzle_outcome (fuel : nat) (st : App) (options : StartOptions) (w : World)
      (st' : App) (w' : World) (effects : list effect) :
  startPuzzle P fuel st options w = Finished (st', w', effects) ->
  activeDifficulty st' = targetDifficulty st options /\
  moveCount st' = 0 /\
  status st' = playing /\
  rankings st' = rankings st /\
  effects = focusBoard /\
  (exists zs, Spec.holds_board st' zs) /\
  isSolvable (tiles st') (DifficultyOption.size (activeDifficulty st')) = true /\
  isSolved (tiles st') = false /\
  JS.get (tiles st') 0 <> JS.Num (blankValue st') /\
  (randomImage options <> Some true -> currentImage st' = currentImage st) /\
  (randomImage options = Some true -> In (currentImage st') demonImages).
Proof.
  intros Hrun. pose proof Hrun as Hrun'. unfold startPuzzle in Hrun.
  fold (targetDifficulty st options) in Hrun.
  pose proof (targetDifficulty_In st options) as Hin.
  set (target := targetDifficulty st options) in *.
  assert (Hs : 0 < DifficultyOption.size target)
    by (destruct Hin as [<- | [<- | [<- | []]]]; simpl; lia).
  assert (Himage :
    exists image w1,
      (match randomImage options with
       | Some true =>
           randomFrom image_id demonImages (Some (DemonImage.id (currentImage st))) w
       | _ => Normal (Some (currentImage st), w)
       end) = Normal (Some image, w1) /\
      (randomImage options <> Some true -> image = currentImage st) /\
      (randomImage options = Some true -> In image demonImages)).
  { destruct (randomImage options) as [[|]|].
    - destruct (randomFrom_demonImages (currentImage st) w) as (image & E & Him).
      exists image, (snd (Math_random w)). split; [exact E|]. split; [congruence|auto].
    - exists (currentImage st), w. repeat split; congruence.
    - exists (currentImage st), w. repeat split; congruence. }
  destruct Himage as (image & w1 & Epick & Hkeep & Hcat).
  rewrite Epick in Hrun.
  destruct (shuffleBoard P fuel w1 (DifficultyOption.size target))
    as [[board w2]|] eqn:Es; [|discriminate].
  injection Hrun as <- <- <-.
  destruct (shuffleBoard_exit P fuel w1 w2 _ board sort_ok Hs Es)
    as ([zs [Hb Hzs]] & Hsolv & Hnot & _ & Hfirst).
  assert (Hact : activeDifficulty
                   {| difficultyId := DifficultyOption.id target;
                      currentImage := image; tiles := board; moveCount := 0;
                      status := playing; rankings := rankings st |} = target).
  { unfold activeDifficulty. cbn [difficultyId].
    now rewrite (find_difficulty_id target Hin). }
  rewrite Hact. cbn [moveCount status rankings tiles currentImage].
  repeat split; try assumption; try reflexivity.
  - exists zs. split; [exact Hb|]. now rewrite Hact.
  - unfold blankValue, tileCount. now rewrite Hact.
Qed.

Lemma attemptMove_fields (st : App) (tileIndex : Z) (w : World) :
  currentImage (state_of (attemptMove P st tileIndex w)) = currentImage st /\
  moveCount st <= moveCount (state_of (attemptMove P st tileIndex w)) <= moveCount st + 1.
Proof.
  unfold attemptMove, state_of.
  destruct (status st); try (split; [reflexivity|simpl; lia]).
  destruct (negb _); [split; [reflexivity|simpl; lia]|].
  destruct (isSolved _); [|split; [reflexivity|simpl; lia]].
  destruct (persistRanking _ _ _ _) as [[ranking w'] stored].
  split; [reflexivity|simpl; lia].
Qed.

Lemma rendered_board_index (st : App) (zs : list Z) (index : Z) :
  Spec.holds_board st zs -> rendered st index -> board_index st index.
Proof.
  intros Hb Hr. destruct (board_setup st zs Hb) as (_ & Hlen & _).
  destruct Hb as [Ht _]. unfold rendered, JS.length in Hr.
  rewrite Ht, length_map in Hr. unfold board_index. lia.
Qed.

Lemma attemptMove_keeps_invariant (st : App) (tileIndex : Z) (w : World) :
  session_invariant st ->
  board_index st tileIndex ->
  session_invariant (state_of (attemptMove P st tileIndex w)).
Proof.
  intros Hinv Hidx. pose proof Hinv as ([zs Hb] & Hsolv & Hdone & Hidle & Him & Hcount).
  destruct (status st) eqn:Hst;
    try (rewrite attemptMove_not_playing by congruence; exact Hinv).
  destruct (isAdjacent tileIndex (JS.indexOf (tiles st) (blankValue st))
                       (DifficultyOption.size (activeDifficulty st))) eqn:Hadj;
    [|rewrite attemptMove_rejects by assumption; exact Hinv].
  pose proof (attemptMove_fields st tileIndex w) as [Himg Hmc].
  pose proof (attemptMove_status P st tileIndex w Hst Hadj) as Hstatus.
  pose proof (attemptMove_isSolvable P st zs tileIndex w Hst Hb Hidx Hadj) as Hkeep.
  assert (Hdiff : activeDifficulty (state_of (attemptMove P st tileIndex w))
                  = activeDifficulty st)
    by apply activeDifficulty_ext, attemptMove_difficultyId.
  unfold session_invariant. rewrite Hdiff, Himg, Hkeep.
  split; [|split; [exact Hsolv|split; [|split; [|split; [exact Him|lia]]]]].
  - destruct (attemptMove_holds_board P st zs tileIndex w Hb Hidx) as [zs' Hb'].
    now exists zs'.
  - rewrite Hstatus.
    destruct (isSolved (tiles (state_of (attemptMove P st tileIndex w))));
      split; congruence.
  - rewrite Hstatus.
    destruct (isSolved (tiles (state_of (attemptMove P st tileIndex w)))); discriminate.
Qed.

Lemma startPuzzle_gives_invariant (fuel : nat) (st : App) (options : StartOptions)
      (w : World) (st' : App) (w' : World) (effects : list effect) :
  In (currentImage st) demonImages ->
  startPuzzle P fuel st options w = Finished (st', w', effects) ->
  session_invariant st'.
Proof.
  intros Him Hrun.
  destruct (startPuzzle_outcome fuel st options w st' w' effects Hrun)
    as (_ & Hmc & Hst & _ & _ & Hb & Hsolv & Hnot & _ & Hkeep & Hcat).
  unfold session_invariant. rewrite Hst, Hnot, Hmc.
  split; [exact Hb|]. split; [exact Hsolv|].
  split; [split; discriminate|]. split; [discriminate|]. split; [|lia].
  destruct (randomImage options) as [[|]|] eqn:E.
  - now apply Hcat.
  - rewrite Hkeep by discriminate. exact Him.
  - rewrite Hkeep by discriminate. exact Him.
Qed.

Lemma handleKeyDown_cases (fuel : nat) (st : App) (key : string) (w : World) :
  status st = playing ->
  let emptyIndex := JS.indexOf (tiles st) (blankValue st) in
  let size := DifficultyOption.size (activeDifficulty st) in
  let target := key_target (key_action_of key) emptyIndex size in
  (key_action_of key = Restart /\
   handleKeyDown P fuel st key w =
   match startPuzzle P fuel st no_options w with
   | Finished (st', w', effects) => Finished (st', w', PreventDefault :: effects)
   | other => other
   end) \/
  (key_action_of key = Ignored /\ handleKeyDown P fuel st key w = Finished (st, w, [])) \/
  (key_action_of key <> Restart /\ key_action_of key <> Ignored /\ target < 0 /\
   handleKeyDown P fuel st key w = Finished (st, w, [])) \/
  (key_action_of key <> Restart /\ key_action_of key <> Ignored /\ 0 <= target /\
   handleKeyDown P fuel st key w =
   Finished (state_of (attemptMove P st target w),
             world_of (attemptMove P st target w),
             PreventDefault :: effects_of (attemptMove P st target w))).
Proof.
  intros Hst emptyIndex size target. unfold handleKeyDown. rewrite Hst. cbv zeta.
  fold emptyIndex size. subst target.
  assert (Slide : forall action,
             action <> Restart -> action <> Ignored ->
             (key_target action emptyIndex size < 0 /\
              (if 0 <=? key_target action emptyIndex size
               then let '(st', w', effects) :=
                      attemptMove P st (key_target action emptyIndex size) w in
                    Finished (st', w', PreventDefault :: effects)
               else Finished (st, w, [])) = Finished (st, w, [])) \/
             (0 <= key_target action emptyIndex size /\
              (if 0 <=? key_target action emptyIndex size
               then let '(st', w', effects) :=
                      attemptMove P st (key_target action emptyIndex size) w in
                    Finished (st', w', PreventDefault :: effects)
               else Finished (st, w, [])) =
              Finished (state_of (attemptMove P st (key_target action emptyIndex size) w),
                        world_of (attemptMove P st (key_target action emptyIndex size) w),
                        PreventDefault
                          :: effects_of (attemptMove P st (key_target action emptyIndex size) w)))).
  { intros action _ _.
    destruct (Z.leb_spec 0 (key_target action emptyIndex size)) as [Hge|Hlt].
    - right. split; [assumption|].
      destruct (attemptMove P st (key_target action emptyIndex size) w)
        as [[st1 w1] effects1]. reflexivity.
    - left. split; [assumption|reflexivity]. }
  destruct (key_action_of key) eqn:Ek.
  - destruct (Slide SlideUp ltac:(discriminate) ltac:(discriminate)) as [[H E]|[H E]];
      [right; right; left|right; right; right];
      (split; [discriminate|split; [discriminate|split; [exact H|exact E]]]).
  - destruct (Slide SlideDown ltac:(discriminate) ltac:(discriminate)) as [[H E]|[H E]];
      [right; right; left|right; right; right];
      (split; [discriminate|split; [discriminate|split; [exact H|exact E]]]).
  - destruct (Slide SlideLeft ltac:(discriminate) ltac:(discriminate)) as [[H E]|[H E]];
      [right; right; left|right; right; right];
      (split; [discriminate|split; [discriminate|split; [exact H|exact E]]]).
  - destruct (Slide SlideRight ltac:(discriminate) ltac:(discriminate)) as [[H E]|[H E]];
      [right; right; left|right; right; right];
      (split; [discriminate|split; [discriminate|split; [exact H|exact E]]]).
  - left. split; reflexivity.
  - right. left. split; reflexivity.
Qed.

Lemma handle_keeps_invariant (fuel : nat) (st : App) (e : event) (w : World)
      (st' : App) (w' : World) (effects : list effect) :
  session_invariant st ->
  possible st e ->
  handle P fuel st e w = Finished (st', w', effects) ->
  session_invariant st'.
Proof.
  intros Hinv Hposs Hrun.
  pose proof Hinv as ([zs Hb] & _ & _ & Hidle & Him & _).
  destruct e as [index|key|targetId|]; simpl in Hrun.
  - unfold handleTileClick in Hrun.
    assert (E : st' = state_of (attemptMove P st index w))
      by (injection Hrun as Hrun; now rewrite Hrun).
    rewrite E. apply attemptMove_keeps_invariant; [assumption|].
    eapply rendered_board_index; eauto.
  - destruct (status st) eqn:Hst;
      try (rewrite handleKeyDown_not_playing in Hrun by congruence;
           injection Hrun as <- _ _; exact Hinv).
    destruct (handleKeyDown_cases fuel st key w Hst)
      as [[Hk E]|[[Hk E]|[(_ & _ & Hneg & E)|(Hk1 & Hk2 & Hge & E)]]];
      rewrite E in Hrun.
    + destruct (startPuzzle P fuel st no_options w) as [[[st1 w1] eff1]| |] eqn:Es;
        try discriminate.
      injection Hrun as <- _ _. eapply startPuzzle_gives_invariant; eauto.
    + injection Hrun as <- _ _. exact Hinv.
    + injection Hrun as <- _ _. exact Hinv.
    + injection Hrun as <- _ _. apply attemptMove_keeps_invariant; [assumption|].
      exact (proj2 (key_target_adjacent st zs (key_action_of key) Hb Hge)).
  - eapply startPuzzle_gives_invariant; eauto.
  - eapply startPuzzle_gives_invariant; eauto.
Qed.

Lemma in_session_invariant (loaded : list ScoreEntry.t) (st : App) :
  in_session P loaded st -> session_invariant st.
Proof.
  induction 1 as [fuel w st' w' effects Hrun
                 |fuel st e w st' w' effects _ IH Hposs Hrun].
  - eapply startPuzzle_gives_invariant; [|exact Hrun]. simpl. now left.
  - eapply handle_keeps_invariant; eauto.
Qed.

End SessionInvariant.

Section SessionProperties.

Variable P : Platform.

(** X8.  Every board of a session is a permutation of [0 .. size² - 1]
    that passes [isSolvable], whatever the user does: clicks on tiles,
    keys, changes of difficulty, new random puzzles. *)
Theorem session_boards_stay_solvable (loaded : list ScoreEntry.t) (st : App) :
  sort_rearranges P ->
  in_session P loaded st ->
  (exists zs,
      tiles st = map JS.Num zs /\
      Permutation zs (Spec.solved_numbers (DifficultyOption.size (activeDifficulty st)))) /\
  isSolvable (tiles st) (DifficultyOption.size (activeDifficulty st)) = true.
Proof.
  intros Hsort Hs.
  destruct (in_session_invariant P Hsort loaded st Hs) as (Hb & Hsolv & _).
  split; assumption.
Qed.

(** X9.  In a session the status is solved exactly when the board passes
    [isSolved]; it is never idle again; the image shown is one of the
    catalog; the move counter is not negative. *)
Theorem session_status_tracks_the_board (loaded : list ScoreEntry.t) (st : App) :
  sort_rearranges P ->
  in_session P loaded st ->
  (status st = solved <-> isSolved (tiles st) = true) /\
  status st <> idle /\
  In (currentImage st) demonImages /\
  0 <= moveCount st.
Proof.
  intros Hsort Hs.
  destruct (in_session_invariant P Hsort loaded st Hs) as (_ & _ & H).
  exact H.
Qed.

Lemma startPuzzle_never_raises (fuel : nat) (st : App) (options : StartOptions) (w : World) :
  (forall m, startPuzzle P fuel st options w <> Raised m) /\
  (startPuzzle P fuel st options w = Unfinished ->
   exists w1 size, In size [3; 4; 5] /\ shuffleBoard P fuel w1 size = None).
Proof.
  unfold startPuzzle. fold (targetDifficulty st options).
  assert (Hsize : In (DifficultyOption.size (targetDifficulty st options)) [3; 4; 5]).
  { destruct (targetDifficulty_In st options) as [<- | [<- | [<- | []]]]; simpl; auto. }
  assert (Himage :
    exists image w1,
      (match randomImage options with
       | Some true =>
           randomFrom image_id demonImages (Some (DemonImage.id (currentImage st))) w
       | _ => Normal (Some (currentImage st), w)
       end) = Normal (Some image, w1)).
  { destruct (randomImage options) as [[|]|]; try (now eexists; eexists).
    destruct (randomFrom_demonImages (currentImage st) w) as (image & E & _).
    now exists image, (snd (Math_random w)). }
  destruct Himage as (image & w1 & ->).
  destruct (shuffleBoard P fuel w1 _) as [[board w2]|] eqn:Es.
  - split; [discriminate|discriminate].
  - split; [discriminate|]. intros _. eauto.
Qed.

Lemma randomFrom_demonImages_other (current : DemonImage.t) (w : World)
      (x : option DemonImage.t) (w1 : World) :
  randomFrom image_id demonImages (Some (DemonImage.id current)) w = Normal (x, w1) ->
  exists image,
    x = Some image /\ In image demonImages /\
    DemonImage.id image <> DemonImage.id current.
Proof.
  intros E.
  destruct (randomFrom_demonImages current w) as (image & E1 & Hin).
  rewrite E1 in E. injection E as <- <-.
  exists image. split; [reflexivity|]. split; [exact Hin|].
  destruct (DemonImage.id current) as [|c s] eqn:Eid.
  - destruct Hin as [<-|[<-|[<-|[]]]]; discriminate.
  - destruct (randomFrom_unfold image_id demonImages (Some (String c s)) w
                                ltac:(discriminate))
      as (filtered & Hrun & _ & _ & Hother).
    rewrite E1 in Hrun. injection Hrun as Hrun. symmetry in Hrun.
    apply nth_error_In in Hrun.
    intros Hid. apply (Hother c s image eq_refl ltac:(simpl; lia) Hrun).
    unfold image_id. now rewrite Hid.
Qed.

Lemma startPuzzle_random_image (fuel : nat) (st : App) (w : World)
      (st' : App) (w' : World) (effects : list effect) :
  startPuzzle P fuel st {| randomImage := Some true; targetDifficultyId := None |} w
  = Finished (st', w', effects) ->
  In (currentImage st') demonImages /\
  DemonImage.id (currentImage st') <> DemonImage.id (currentImage st).
Proof.
  unfold startPuzzle. cbn [randomImage].
  destruct (randomFrom image_id demonImages (Some (DemonImage.id (currentImage st))) w)
    as [[x w1]|m] eqn:E; [|discriminate].
  apply randomFrom_demonImages_other in E as (image & -> & Hin & Hid).
  destruct (shuffleBoard _ _ _ _) as [[board w2]|]; [|discriminate].
  intros H. injection H as <- _ _. cbn [currentImage]. now split.
Qed.

Lemma startPuzzle_effects (fuel : nat) (st : App) (options : StartOptions) (w : World)
      (st' : App) (w' : World) (effects : list effect) :
  startPuzzle P fuel st options w = Finished (st', w', effects) ->
  effects = focusBoard /\ status st' = playing /\ rankings st' = rankings st.
Proof.
  unfold startPuzzle.
  destruct (match randomImage options with
            | Some true => _
            | _ => _
            end) as [[[image|] w1]|m]; try discriminate.
  destruct (shuffleBoard _ _ _ _) as [[board w2]|]; [|discriminate].
  intros H. injection H as <- _ <-. repeat split.
Qed.

(** X10.  Starting a puzzle never throws.  For the keys that restart, the
    choice of a difficulty and the button "Random Demon Hunter", in any
    state: the [throw] of [randomFrom] is not reached and it never gives
    [undefined], the catalog holding images of distinct identifiers, so
    that the image chosen by the button is an image of the catalog other
    than the one shown; no write to the store is asked for and the
    rankings stay; and the handler finishes unless the shuffle loop has
    not left within the rounds allowed. *)
Theorem puzzle_start_never_throws (fuel : nat) (st : App) (e : event) (w : World) :
  starts_puzzle e ->
  (forall m, handle P fuel st e w <> Raised m) /\
  (handle P fuel st e w = Unfinished ->
   exists w1 size, In size [3; 4; 5] /\ shuffleBoard P fuel w1 size = None) /\
  (forall st' w' effects,
      handle P fuel st e w = Finished (st', w', effects) ->
      stored effects = [] /\
      rankings st' = rankings st /\
      (e = RandomClick ->
       In (currentImage st') demonImages /\
       DemonImage.id (currentImage st') <> DemonImage.id (currentImage st))).
Proof.
  intros Hstart.
  assert (Start : forall options st' w' effects,
             startPuzzle P fuel st options w = Finished (st', w', effects) ->
             stored effects = [] /\ rankings st' = rankings st).
  { intros options st' w' effects Hs.
    apply startPuzzle_effects in Hs as (-> & _ & Hr). now split. }
  destruct e as [index|key|targetId|]; cbn [starts_puzzle handle] in *.
  - contradiction.
  - assert (Hc : status st = playing \/ status st <> playing)
      by (destruct (status st); [right|left|right]; congruence).
    destruct Hc as [Hst|Hst].
    + destruct (handleKeyDown_cases P fuel st key w Hst)
        as [[_ E]|[[Hk _]|[(Hk & _)|(Hk & _)]]]; try congruence.
      rewrite E.
      destruct (startPuzzle_never_raises fuel st no_options w) as [Hr Hu].
      destruct (startPuzzle P fuel st no_options w) as [[[st1 w1] eff1]|m|] eqn:Es.
      * split; [discriminate|]. split; [discriminate|].
        intros st' w' effects H. injection H as <- _ <-.
        destruct (Start _ _ _ _ Es) as [Hs Hk]. cbn [stored flat_map app] in *.
        split; [exact Hs|]. split; [exact Hk|discriminate].
      * exfalso. now apply (Hr m).
      * split; [discriminate|]. split; [intros _; now apply Hu|discriminate].
    + rewrite (handleKeyDown_not_playing P fuel st key w Hst).
      split; [discriminate|]. split; [discriminate|].
      intros st' w' effects H. injection H as <- _ <-.
      split; [reflexivity|]. split; [reflexivity|discriminate].
  - unfold onDifficultyChange.
    destruct (startPuzzle_never_raises
                fuel st {| randomImage := None; targetDifficultyId := Some targetId |} w)
      as [Hr Hu].
    split; [exact Hr|]. split; [exact Hu|].
    intros st' w' effects H. destruct (Start _ _ _ _ H) as [Hs Hk].
    split; [exact Hs|]. split; [exact Hk|discriminate].
  - unfold onRandomClick.
    destruct (startPuzzle_never_raises
                fuel st {| randomImage := Some true; targetDifficultyId := None |} w)
      as [Hr Hu].
    split; [exact Hr|]. split; [exact Hu|].
    intros st' w' effects H. destruct (Start _ _ _ _ H) as [Hs Hk].
    split; [exact Hs|]. split; [exact Hk|]. intros _.
    now apply (startPuzzle_random_image fuel st w st' w' effects).
Qed.

Lemma attemptMove_blank_index (st : App) (zs : list Z) (tileIndex : Z) (w : World) :
  status st = playing ->
  Spec.holds_board st zs ->
  board_index st tileIndex ->
  isAdjacent tileIndex (JS.indexOf (tiles st) (blankValue st))
             (DifficultyOption.size (activeDifficulty st)) = true ->
  let st1 := state_of (attemptMove P st tileIndex w) in
  JS.indexOf (tiles st1) (blankValue st1) = tileIndex /\
  tiles st1 = map JS.Num (Spec.swapped zs (Z.to_nat tileIndex)
                                       (Z.to_nat (JS.indexOf (tiles st) (blankValue st)))) /\
  moveCount st1 = moveCount st + 1.
Proof.
  intros Hst Hb Hidx Hadj st1.
  destruct (board_setup st zs Hb) as (Hs & Hlen & e & Hlt & He & Hix).
  pose proof Hidx as Hidx'. unfold board_index in Hidx'.
  assert (Htiles : tiles st1 = map JS.Num (Spec.swapped zs (Z.to_nat tileIndex) e)).
  { subst st1. apply attemptMove_tiles; try assumption. now rewrite <- Hix. }
  assert (Hdiff : activeDifficulty st1 = activeDifficulty st)
    by (apply activeDifficulty_ext, attemptMove_difficultyId).
  assert (Hblank : blankValue st1 = blankValue st)
    by (unfold blankValue, tileCount; now rewrite Hdiff).
  assert (Hpos : nth_error (Spec.swapped zs (Z.to_nat tileIndex) e) (Z.to_nat tileIndex)
                 = Some (blankValue st)).
  { rewrite (nth_error_nth' _ 0) by (rewrite swapped_length; lia).
    rewrite nth_swapped, Nat.eqb_refl by lia.
    rewrite <- He. symmetry. now apply nth_error_nth'. }
  split; [|split].
  - rewrite Htiles, Hblank.
    rewrite (indexOf_numbers _ _ (Z.to_nat tileIndex)); [lia| |exact Hpos].
    destruct Hb as [_ Hb]. eapply board_NoDup.
    apply (swapped_board _ zs (Z.to_nat tileIndex) e Hb); lia.
  - now rewrite Hix, Nat2Z.id.
  - subst st1. rewrite (attemptMove_accepts P st tileIndex w Hst Hadj).
    destruct (isSolved _); reflexivity.
Qed.

(** X11.  A key that slides, pressed while the session is playing on a
    board.  When the blank is at the edge that the key needs, nothing
    changes and the default action of the key is not prevented.
    Otherwise the key moves the tile on the far side of the blank: the
    target is a cell of the board adjacent to the blank ([size] further
    for up, [size] nearer for down, the next cell for left, the previous
    one for right), the move is accepted and counted, and the blank is at
    the target afterwards. *)
Theorem slide_key_moves_a_neighbour_or_nothing
        (fuel : nat) (st : App) (zs : list Z) (key : string) (w : World) :
  status st = playing ->
  Spec.holds_board st zs ->
  slides (key_action_of key) ->
  let size := DifficultyOption.size (activeDifficulty st) in
  let emptyIndex := JS.indexOf (tiles st) (blankValue st) in
  let target := key_target (key_action_of key) emptyIndex size in
  let r := attemptMove P st target w in
  (target < 0 -> handleKeyDown P fuel st key w = Finished (st, w, [])) /\
  (0 <= target ->
   Spec.adjacent size target emptyIndex /\
   handleKeyDown P fuel st key w
   = Finished (state_of r, world_of r, PreventDefault :: effects_of r) /\
   moveCount (state_of r) = moveCount st + 1 /\
   tiles (state_of r)
   = map JS.Num (Spec.swapped zs (Z.to_nat target) (Z.to_nat emptyIndex)) /\
   JS.indexOf (tiles (state_of r)) (blankValue (state_of r)) = target /\
   (key_action_of key = SlideUp -> target = emptyIndex + size) /\
   (key_action_of key = SlideDown -> target = emptyIndex - size) /\
   (key_action_of key = SlideLeft -> target = emptyIndex + 1) /\
   (key_action_of key = SlideRight -> target = emptyIndex - 1)).
Proof.
  intros Hst Hb Hslides size emptyIndex target r.
  assert (Hk1 : key_action_of key <> Restart)
    by (destruct Hslides as [E|[E|[E|E]]]; rewrite E; discriminate).
  assert (Hk2 : key_action_of key <> Ignored)
    by (destruct Hslides as [E|[E|[E|E]]]; rewrite E; discriminate).
  destruct (handleKeyDown_cases P fuel st key w Hst)
    as [[Hk E]|[[Hk E]|[(_ & _ & Hneg & E)|(_ & _ & Hge & E)]]];
    try contradiction.
  - fold emptyIndex size target in Hneg. split; [intros _; exact E|lia].
  - fold emptyIndex size target in Hge, E. fold r in E. split; [lia|]. intros _.
    destruct (key_target_adjacent st zs (key_action_of key) Hb Hge) as [Hadj Hidx].
    fold size emptyIndex target in Hadj, Hidx.
    destruct (board_setup st zs Hb) as (Hs & Hlen & e & Hlt & He & Hix).
    assert (Hacc : isAdjacent target emptyIndex size = true).
    { pose proof (adjacent_in_range _ _ _ Hadj) as Hrange.
      apply isAdjacent_cells; [exact Hs|tauto|tauto|exact Hadj]. }
    destruct (attemptMove_blank_index st zs target w Hst Hb Hidx Hacc)
      as (Hnew & Htiles & Hcount).
    split; [exact Hadj|]. split; [exact E|]. split; [exact Hcount|].
    split; [exact Htiles|]. split; [exact Hnew|].
    subst target. unfold key_target in *.
    repeat split; intros Ea; rewrite Ea in *.
    + destruct (emptyIndex / size <? size - 1); [reflexivity|lia].
    + destruct (0 <? emptyIndex / size); [reflexivity|lia].
    + destruct (Z.rem emptyIndex size <? size - 1); [reflexivity|lia].
    + destruct (0 <? Z.rem emptyIndex size); [reflexivity|lia].
Qed.

(** X12.  What [startPuzzle] leaves when it returns.  The difficulty is
    the one asked for when its identifier is in the catalog, and the one
    in force otherwise.  The board has [size * size] tiles for that
    difficulty, passes [isSolvable], is not solved, and does not begin
    with the blank.  The counter is zero and the status playing; the
    rankings are untouched; the focus of the board is requested; and the
    image stays unless a random one is asked for. *)
Theorem startPuzzle_starts_a_fresh_puzzle
        (fuel : nat) (st : App) (options : StartOptions) (w : World)
        (st' : App) (w' : World) (effects : list effect) :
  sort_rearranges P ->
  startPuzzle P fuel st options w = Finished (st', w', effects) ->
  (forall d, In d difficulties ->
             targetDifficultyId options = Some (DifficultyOption.id d) ->
             activeDifficulty st' = d) /\
  ((forall d, In d difficulties ->
              targetDifficultyId options <> Some (DifficultyOption.id d)) ->
   activeDifficulty st' = activeDifficulty st) /\
  JS.length (tiles st') = tileCount st' /\
  isSolvable (tiles st') (DifficultyOption.size (activeDifficulty st')) = true /\
  isSolved (tiles st') = false /\
  JS.get (tiles st') 0 <> JS.Num (blankValue st') /\
  moveCount st' = 0 /\
  status st' = playing /\
  rankings st' = rankings st /\
  effects = focusBoard /\
  (randomImage options <> Some true -> currentImage st' = currentImage st).
Proof.
  intros Hsort Hrun.
  destruct (startPuzzle_outcome P Hsort fuel st options w st' w' effects Hrun)
    as (Hact & Hmc & Hst & Hrk & Heff & [zs Hb] & Hsolv & Hnot & Hfirst & Hkeep & _).
  split; [|split; [|split]].
  - intros d Hd Ht. rewrite Hact. unfold targetDifficulty.
    now rewrite Ht, (find_difficulty_id d Hd).
  - intros Hnone. rewrite Hact. unfold targetDifficulty.
    destruct (find_difficulty (targetDifficultyId options)) as [d|] eqn:E; [|reflexivity].
    exfalso. unfold find_difficulty in E.
    destruct (targetDifficultyId options) as [i|] eqn:Et; [|discriminate].
    apply find_some in E as [Hd Hid]. apply String.eqb_eq in Hid.
    apply (Hnone d Hd). now rewrite Hid.
  - destruct (board_setup st' zs Hb) as (_ & Hlen & _).
    destruct Hb as [Ht _]. unfold JS.length. now rewrite Ht, length_map.
  - repeat split; assumption.
Qed.

Lemma attemptMove_store (st : App) (tileIndex : Z) (w : World) :
  let r := attemptMove P st tileIndex w in
  (rankings (state_of r) = rankings st /\ stored (effects_of r) = [] /\
   ~ (status st = playing /\ status (state_of r) = solved)) \/
  (status st = playing /\ status (state_of r) = solved /\
   stored (effects_of r) = [rankings (state_of r)] /\
   exists entry,
     rankings (state_of r) = recordResult (rankings st) entry /\
     ScoreEntry.moves entry = moveCount (state_of r) /\
     moveCount (state_of r) = moveCount st + 1).
Proof.
  intros r. subst r.
  destruct (status st) eqn:Hst.
  - rewrite attemptMove_not_playing by congruence.
    left. split; [reflexivity|]. split; [reflexivity|]. intros [H _]. discriminate.
  - destruct (isAdjacent tileIndex (JS.indexOf (tiles st) (blankValue st))
                         (DifficultyOption.size (activeDifficulty st))) eqn:Hadj.
    + rewrite (attemptMove_accepts P st tileIndex w Hst Hadj).
      destruct (isSolved _).
      * right. unfold state_of, effects_of. cbn [fst snd status rankings moveCount].
        split; [reflexivity|]. split; [reflexivity|]. split; [reflexivity|].
        eexists. split; [reflexivity|]. split; [apply new_entry_moves|reflexivity].
      * left. unfold state_of, effects_of. cbn [fst snd status rankings].
        split; [reflexivity|]. split; [reflexivity|]. intros [_ H]. discriminate.
    + rewrite attemptMove_rejects by assumption.
      left. split; [reflexivity|]. split; [reflexivity|].
      unfold state_of. cbn [fst]. rewrite Hst. intros [_ H]. discriminate.
  - rewrite attemptMove_not_playing by congruence.
    left. split; [reflexivity|]. split; [reflexivity|]. intros [H _]. discriminate.
Qed.

Lemma handle_store (fuel : nat) (st : App) (e : event) (w : World)
      (st' : App) (w' : World) (effects : list effect) :
  handle P fuel st e w = Finished (st', w', effects) ->
  (rankings st' = rankings st /\ stored effects = [] /\
   ~ (status st = playing /\ status st' = solved)) \/
  (status st = playing /\ status st' = solved /\
   stored effects = [rankings st'] /\
   exists entry,
     rankings st' = recordResult (rankings st) entry /\
     ScoreEntry.moves entry = moveCount st' /\
     moveCount st' = moveCount st + 1).
Proof.
  intros Hrun.
  assert (Start : forall options,
             startPuzzle P fuel st options w = Finished (st', w', effects) ->
             rankings st' = rankings st /\ stored effects = [] /\
             ~ (status st = playing /\ status st' = solved)).
  { intros options Hs. apply startPuzzle_effects in Hs as (-> & Hp & Hr).
    split; [exact Hr|]. split; [reflexivity|]. intros [_ H]. congruence. }
  assert (Same : st' = st -> stored effects = [] ->
                 rankings st' = rankings st /\ stored effects = [] /\
                 ~ (status st = playing /\ status st' = solved)).
  { intros -> Hs. split; [reflexivity|]. split; [exact Hs|]. intros [H1 H2]. congruence. }
  destruct e as [index|key|targetId|]; simpl in Hrun.
  - unfold handleTileClick in Hrun.
    pose proof (attemptMove_store st index w) as H. cbv zeta in H.
    destruct (attemptMove P st index w) as [[st1 w1] eff1].
    injection Hrun as <- <- <-. exact H.
  - assert (Hc : status st = playing \/ status st <> playing)
      by (destruct (status st); [right|left|right]; congruence).
    destruct Hc as [Hst|Hst].
    2:{ rewrite handleKeyDown_not_playing in Hrun by exact Hst.
        injection Hrun as <- _ <-. left. now apply Same. }
    destruct (handleKeyDown_cases P fuel st key w Hst)
      as [[Hk E]|[[Hk E]|[(_ & _ & Hneg & E)|(Hk1 & Hk2 & Hge & E)]]];
      rewrite E in Hrun.
    + destruct (startPuzzle P fuel st no_options w) as [[[st1 w1] eff1]| |] eqn:Es;
        try discriminate.
      injection Hrun as <- <- <-.
      apply startPuzzle_effects in Es as (-> & Hp & Hr).
      left. split; [exact Hr|]. split; [reflexivity|]. intros [_ H]. congruence.
    + injection Hrun as <- _ <-. left. now apply Same.
    + injection Hrun as <- _ <-. left. now apply Same.
    + clear Start Same. injection Hrun as <- _ <-.
      apply (attemptMove_store st _ w).
  - left. eapply Start; eauto.
  - left. eapply Start; eauto.
Qed.

(** X13.  In a browser the store is written exactly when an event solves
    the puzzle:
    then one list is written, the new ranking, which is the old one with
    one result recorded whose moves are the final count; for every other
    event nothing is written and the ranking is unchanged. *)
Theorem store_is_written_when_the_puzzle_is_solved
        (fuel : nat) (st : App) (e : event) (w : World)
        (st' : App) (w' : World) (effects : list effect) :
  handle P fuel st e w = Finished (st', w', effects) ->
  (status st = playing /\ status st' = solved ->
   stored effects = [rankings st'] /\
   exists entry,
     rankings st' = recordResult (rankings st) entry /\
     ScoreEntry.moves entry = moveCount st' /\
     moveCount st' = moveCount st + 1) /\
  (~ (status st = playing /\ status st' = solved) ->
   stored effects = [] /\ rankings st' = rankings st).
Proof.
  intros Hrun.
  destruct (handle_store fuel st e w st' w' effects Hrun)
    as [(Hr & Hs & Hn)|(Hp & Hd & Hs & He)].
  - split; [intros H; contradiction|]. intros _. now split.
  - split; [intros _; now split|]. intros Hn. exfalso. apply Hn. now split.
Qed.

Lemma entry_value_is_score_entry (entry : ScoreEntry.t) :
  Spec.is_score_entry (entry_value entry) = true.
Proof. reflexivity. Qed.

(** What [loads] asks of the store: its payload is well formed. *)
Lemma loads_well_formed (B : Browser) (loaded : list ScoreEntry.t) :
  loads P B loaded ->
  exists items log,
    loadRankings P B = Normal (items, log) /\
    Spec.well_formed_payload (JSON.Array items) = true.
Proof.
  intros [log Hload]. exists (map entry_value loaded), log. split; [exact Hload|].
  unfold Spec.well_formed_payload. apply forallb_forall.
  intros v Hv. apply in_map_iff in Hv as (entry & <- & _).
  apply entry_value_is_score_entry.
Qed.

(** X14.  The rankings of a session in a browser whose store holds score
    entries, or nothing that can be read: [loadRankings] gives the array
    of the entries [loaded], the empty one included.  The ranking is that
    list until a puzzle is solved; from then on it is in ascending order
    of moves and has at most eight entries.  (A store that holds
    something else is outside this statement: [loadRankings] returns its
    array as it is.) *)
Theorem session_ranking_is_ordered_and_bounded
        (B : Browser) (loaded : list ScoreEntry.t) (st : App) :
  loads P B loaded ->
  in_session P loaded st ->
  rankings st = loaded \/
  (StronglySorted Spec.by_moves (rankings st) /\ (List.length (rankings st) <= 8)%nat).
Proof.
  intros _.
  induction 1 as [fuel w st' w' effects Hrun
                 |fuel st e w st' w' effects _ IH Hposs Hrun].
  - left. apply startPuzzle_effects in Hrun as (_ & _ & Hr). exact Hr.
  - destruct (handle_store fuel st e w st' w' effects Hrun)
      as [(Hr & _ & _)|(_ & _ & _ & entry & Hr & _)].
    + now rewrite Hr.
    + right. rewrite Hr.
      destruct (cut_keeps_lowest (rankings st ++ [entry])) as (Hlen & Hsorted & _).
      fold (recordResult (rankings st) entry) in Hlen, Hsorted.
      split; [exact Hsorted|]. rewrite Hlen. lia.
Qed.

Lemma board_values (size : Z) (zs : list Z) (value : Z) :
  0 < size -> Spec.board size zs -> In value zs -> 0 <= value < size * size.
Proof.
  intros Hs Hb Hin.
  apply (Permutation_in _ Hb) in Hin. unfold Spec.solved_numbers in Hin.
  apply in_map_iff in Hin as (k & <- & Hk). apply in_seq in Hk. nia.
Qed.

Lemma tileView_cell (st : App) (value : Z) :
  0 <= value < tileCount st ->
  Spec.cell (DifficultyOption.size (activeDifficulty st)) value
            (solvedRow (tileView st value)) (solvedCol (tileView st value)).
Proof.
  intros Hv. unfold tileCount in Hv. cbn [tileView solvedRow solvedCol].
  apply cell_of_index; [|exact Hv].
  destruct (activeDifficulty_size st) as [<- | [<- | [<- | []]]]; lia.
Qed.

Lemma renderTiles_numbers (st : App) (zs : list Z) (k : nat) :
  tiles st = map JS.Num zs ->
  (k < List.length zs)%nat ->
  nth_error (renderTiles st) k = Some (Some (tileView st (nth k zs 0))).
Proof.
  intros Ht Hk. unfold renderTiles. rewrite Ht, map_map.
  rewrite (nth_error_nth' _ (Some (tileView st 0))) by (now rewrite length_map).
  now rewrite (map_nth (fun value => Some (tileView st value))).
Qed.

(** X15.  What the board shows in a session.  There is a button for each
    cell.  The button of a rendered index holds a number of the board, and
    its piece of the image is the cell of that number: a row and a column
    of the grid.  One button is the empty space, the one at the index of
    the blank.  When the status is solved each button holds the number of
    its own index, so each piece is in its place.  No two buttons show the
    same piece. *)
Theorem session_tiles_show_the_image (loaded : list ScoreEntry.t) (st : App) :
  sort_rearranges P ->
  in_session P loaded st ->
  let size := DifficultyOption.size (activeDifficulty st) in
  let emptyIndex := JS.indexOf (tiles st) (blankValue st) in
  Z.of_nat (List.length (renderTiles st)) = size * size /\
  rendered st emptyIndex /\
  (forall index,
      rendered st index ->
      exists value,
        JS.get (tiles st) index = JS.Num value /\
        nth_error (renderTiles st) (Z.to_nat index) = Some (Some (tileView st value)) /\
        Spec.cell size value (solvedRow (tileView st value))
                  (solvedCol (tileView st value)) /\
        (isBlank (tileView st value) = true <-> index = emptyIndex) /\
        (status st = solved -> value = index)) /\
  (forall i j view,
      nth_error (renderTiles st) i = Some (Some view) ->
      nth_error (renderTiles st) j = Some (Some view) ->
      i = j).
Proof.
  intros Hsort Hs size emptyIndex.
  destruct (in_session_invariant P Hsort loaded st Hs)
    as ([zs Hb] & _ & Hsolved & _).
  destruct (board_setup st zs Hb) as (Hsize & Hlen & e & Hlt & He & Hix).
  pose proof Hb as [Ht Hboard].
  pose proof (board_NoDup _ _ Hboard) as Hnd.
  assert (Hrl : List.length (renderTiles st) = List.length zs)
    by (unfold renderTiles; now rewrite Ht, !length_map).
  assert (Hvalues : forall k, (k < List.length zs)%nat -> 0 <= nth k zs 0 < tileCount st).
  { intros k Hk. apply (board_values _ zs _ Hsize Hboard). now apply nth_In. }
  split; [|split; [|split]].
  - rewrite Hrl, Hlen. reflexivity.
  - unfold rendered, emptyIndex, JS.length. rewrite Hix, Ht, length_map. lia.
  - intros index Hidx. unfold rendered, JS.length in Hidx.
    rewrite Ht, length_map in Hidx.
    assert (Hk : (Z.to_nat index < List.length zs)%nat) by lia.
    exists (nth (Z.to_nat index) zs 0).
    split; [|split; [|split; [|split]]].
    + rewrite Ht. rewrite <- (Z2Nat.id index) at 1 by lia. now apply get_numbers.
    + now apply renderTiles_numbers.
    + apply tileView_cell. now apply Hvalues.
    + cbn [tileView isBlank]. unfold emptyIndex. rewrite Hix, Z.eqb_eq.
      apply nth_error_nth with (d := 0) in He. split.
      * intros E. rewrite <- He in E.
        apply (proj1 (NoDup_nth zs 0) Hnd) in E; [lia|assumption|assumption].
      * intros E. rewrite <- He. f_equal. lia.
    + intros Hst. apply Hsolved in Hst. unfold isSolved, JS.every in Hst.
      change 0 with (Z.of_nat 0) in Hst.
      apply every_from_ascending in Hst.
      2:{ rewrite Ht. intros Hin. apply in_map_iff in Hin as (z & E & _). discriminate. }
      rewrite Ht in Hst. unfold ascending_from in Hst.
      rewrite length_map in Hst.
      rewrite <- (map_map Z.of_nat JS.Num) in Hst.
      apply map_Num_inj in Hst. rewrite Hst.
      change 0 with (Z.of_nat 0). rewrite map_nth, seq_nth by assumption. lia.
  - intros i j view Hi Hj.
    assert (Hil : (i < List.length zs)%nat)
      by (rewrite <- Hrl; apply nth_error_Some; congruence).
    assert (Hjl : (j < List.length zs)%nat)
      by (rewrite <- Hrl; apply nth_error_Some; congruence).
    rewrite (renderTiles_numbers st zs i Ht Hil) in Hi.
    rewrite (renderTiles_numbers st zs j Ht Hjl) in Hj.
    injection Hi as Hi. injection Hj as Hj.
    pose proof (tileView_cell st _ (Hvalues i Hil)) as (_ & _ & Ei).
    pose proof (tileView_cell st _ (Hvalues j Hjl)) as (_ & _ & Ej).
    rewrite Hi in Ei. rewrite Hj in Ej.
    apply (proj1 (NoDup_nth zs 0) Hnd); [assumption|assumption|congruence].
Qed.

End SessionProperties.

(** ** Closed instances of the further properties *)

(** The array 0 1 2 3 is the solved board of size 2. *)
Lemma isSolved_iff_createSolvedBoard_witness :
  isSolved (map JS.Num [0; 1; 2; 3]) = true <->
  map JS.Num [0; 1; 2; 3] = createSolvedBoard 2.
Proof.
  destruct isSolved_iff_createSolvedBoard as [_ H].
  apply (H 2 (map JS.Num [0; 1; 2; 3])); [|reflexivity].
  simpl. intuition discriminate.
Defined.

Lemma isSolvable_createSolvedBoard_witness :
  isSolvable (createSolvedBoard 4) 4 = true.
Proof.
  apply (isSolvable_createSolvedBoard 4). lia.
Defined.

(** On a grid of size 3 the cells 2 and 3 are one apart and in different
    rows. *)
Lemma isAdjacent_by_distance_witness :
  (isAdjacent 2 3 3 = true <->
   Z.abs (2 - 3) = 3 \/ (Z.abs (2 - 3) = 1 /\ 2 / 3 = 3 / 3)) /\
  isAdjacent 2 3 3 = isAdjacent 3 2 3 /\
  isAdjacent 2 2 3 = false.
Proof.
  apply (isAdjacent_by_distance 2 3 3); lia.
Defined.

Lemma shuffleBoard_spins_on_one_cell_witness :
  shuffleBoard Reference.platform 10 Reference.sample_world 1 = None.
Proof.
  apply (shuffleBoard_spins_on_one_cell Reference.platform 10 Reference.sample_world 1);
    [apply reference_sort_rearranges | lia].
Defined.

(** With Starlit Reaper excluded from the catalog an image with another
    identifier is returned; from two copies of Starlit Reaper nothing is
    left, and the result is [undefined]. *)
Lemma randomFrom_outcome_witness :
  (exists image,
      randomFrom image_id demonImages (Some (DemonImage.id starlit_reaper))
                 Reference.sample_world
      = Normal (Some image, snd (Math_random Reference.sample_world)) /\
      In image demonImages /\
      image_id image <> Some (DemonImage.id starlit_reaper)) /\
  randomFrom image_id [starlit_reaper; starlit_reaper]
             (Some (DemonImage.id starlit_reaper)) Reference.sample_world
  = Normal (None, snd (Math_random Reference.sample_world)).
Proof.
  split.
  - destruct (randomFrom_outcome image_id demonImages
                (Some (DemonImage.id starlit_reaper)) Reference.sample_world)
      as [_ H].
    destruct (H ltac:(discriminate)) as (x & E & Hsome & _).
    destruct x as [image|] eqn:Ex; [|vm_compute in E; discriminate].
    exists image. split; [exact E|].
    destruct (Hsome image eq_refl) as [Hin Hid].
    split; [exact Hin|]. apply Hid; [reflexivity|simpl; lia].
  - destruct (randomFrom_outcome image_id [starlit_reaper; starlit_reaper]
                (Some (DemonImage.id starlit_reaper)) Reference.sample_world)
      as [_ H].
    destruct (H ltac:(discriminate)) as (x & E & _ & Hnone).
    rewrite E. f_equal. f_equal. apply Hnone.
    eexists. eexists. split; [reflexivity|]. split; [simpl; lia|].
    intros item [<-|[<-|[]]]; reflexivity.
Defined.

(** A result of 15 moves enters between the results of 10 and 20 moves. *)
Lemma recordResult_on_a_ranking_witness :
  let previous := [Reference.result "a" 10 0; Reference.result "b" 20 0] in
  let entry := Reference.result "c" 15 0 in
  recordResult previous entry = insert_by_moves entry previous /\
  Permutation (recordResult previous entry) (entry :: previous).
Proof.
  intros previous entry.
  destruct (recordResult_on_a_ranking previous entry) as [H _].
  - repeat constructor. unfold Spec.by_moves. simpl. lia.
  - apply H. simpl. lia.
Defined.

(** The move at index 4 on 1 0 3 / 4 5 6 / 7 _ 2. *)
Lemma legal_move_keeps_isSolvable_witness :
  isSolvable
    (tiles (state_of (attemptMove Reference.platform Reference.sample_session 4
                                  Reference.sample_world))) 3
  = isSolvable (tiles Reference.sample_session) 3.
Proof.
  apply (legal_move_keeps_isSolvable
           Reference.platform Reference.sample_session
           [1; 0; 3; 4; 5; 6; 7; 8; 2] 4 Reference.sample_world
           eq_refl sample_session_holds
           ltac:(unfold board_index; vm_compute; split; [discriminate | reflexivity])
           eq_refl).
Defined.

(** The first puzzle of a session on the reference platform. *)
Lemma session_boards_stay_solvable_witness :
  exists st,
    in_session Reference.platform [] st /\
    (exists zs,
        tiles st = map JS.Num zs /\
        Permutation zs (Spec.solved_numbers (DifficultyOption.size (activeDifficulty st)))) /\
    isSolvable (tiles st) (DifficultyOption.size (activeDifficulty st)) = true.
Proof.
  destruct (startPuzzle Reference.platform 10 (initialApp []) no_options
                        Reference.sample_world)
    as [[[st w'] effects]| |] eqn:E;
    try (exfalso; vm_compute in E; discriminate).
  assert (S : in_session Reference.platform [] st)
    by (eapply session_mount; exact E).
  exists st. split; [exact S|].
  apply (session_boards_stay_solvable Reference.platform [] st reference_sort_rearranges S).
Defined.

Lemma session_status_tracks_the_board_witness :
  exists st,
    in_session Reference.platform [] st /\
    (status st = solved <-> isSolved (tiles st) = true) /\
    status st <> idle.
Proof.
  destruct (startPuzzle Reference.platform 10 (initialApp []) no_options
                        Reference.sample_world)
    as [[[st w'] effects]| |] eqn:E;
    try (exfalso; vm_compute in E; discriminate).
  assert (S : in_session Reference.platform [] st)
    by (eapply session_mount; exact E).
  exists st. split; [exact S|].
  destruct (session_status_tracks_the_board
              Reference.platform [] st reference_sort_rearranges S) as (H1 & H2 & _).
  split; assumption.
Defined.

(** The button "Random Demon Hunter" with Starlit Reaper shown: the
    handler finishes, with another image of the catalog and nothing
    written. *)
Lemma puzzle_start_never_throws_witness :
  exists st' w' effects,
    handle Reference.platform 10 Reference.sample_session RandomClick
           Reference.sample_world = Finished (st', w', effects) /\
    stored effects = [] /\
    In (currentImage st') demonImages /\
    DemonImage.id (currentImage st') <> DemonImage.id starlit_reaper.
Proof.
  destruct (handle Reference.platform 10 Reference.sample_session RandomClick
                   Reference.sample_world)
    as [[[st' w'] effects]| |] eqn:E;
    try (exfalso; vm_compute in E; discriminate).
  exists st', w', effects. split; [reflexivity|].
  destruct (puzzle_start_never_throws
              Reference.platform 10 Reference.sample_session RandomClick
              Reference.sample_world I) as (_ & _ & H).
  destruct (H st' w' effects E) as (Hs & _ & Hi).
  split; [exact Hs|]. exact (Hi eq_refl).
Defined.

(** On 1 0 3 / 4 5 6 / 7 _ 2 the key down moves the tile at index 4, and
    the key up, with the blank in the last row, moves nothing. *)
Lemma slide_key_moves_a_neighbour_or_nothing_witness :
  handleKeyDown Reference.platform 10 Reference.sample_session "ArrowDown"
                Reference.sample_world
  = Finished
      (state_of (attemptMove Reference.platform Reference.sample_session 4
                             Reference.sample_world),
       world_of (attemptMove Reference.platform Reference.sample_session 4
                             Reference.sample_world),
       PreventDefault
         :: effects_of (attemptMove Reference.platform Reference.sample_session 4
                                    Reference.sample_world)) /\
  handleKeyDown Reference.platform 10 Reference.sample_session "ArrowUp"
                Reference.sample_world
  = Finished (Reference.sample_session, Reference.sample_world, []).
Proof.
  split.
  - destruct (slide_key_moves_a_neighbour_or_nothing
                Reference.platform 10 Reference.sample_session
                [1; 0; 3; 4; 5; 6; 7; 8; 2] "ArrowDown" Reference.sample_world
                eq_refl sample_session_holds (or_intror (or_introl eq_refl)))
      as [_ H].
    destruct (H ltac:(vm_compute; discriminate)) as (_ & E & _).
    exact E.
  - destruct (slide_key_moves_a_neighbour_or_nothing
                Reference.platform 10 Reference.sample_session
                [1; 0; 3; 4; 5; 6; 7; 8; 2] "ArrowUp" Reference.sample_world
                eq_refl sample_session_holds (or_introl eq_refl))
      as [H _].
    apply H. vm_compute. reflexivity.
Defined.

(** The first puzzle on the reference platform. *)
Lemma startPuzzle_starts_a_fresh_puzzle_witness :
  exists st' w' effects,
    startPuzzle Reference.platform 10 (initialApp []) no_options Reference.sample_world
    = Finished (st', w', effects) /\
    isSolved (tiles st') = false /\
    moveCount st' = 0 /\
    status st' = playing /\
    effects = focusBoard.
Proof.
  destruct (startPuzzle Reference.platform 10 (initialApp []) no_options
                        Reference.sample_world)
    as [[[st w'] effects]| |] eqn:E;
    try (exfalso; vm_compute in E; discriminate).
  exists st, w', effects. split; [reflexivity|].
  destruct (startPuzzle_starts_a_fresh_puzzle
              Reference.platform 10 (initialApp []) no_options Reference.sample_world
              st w' effects reference_sort_rearranges E)
    as (_ & _ & _ & _ & H1 & _ & H2 & H3 & _ & H4 & _).
  repeat split; assumption.
Defined.

(** The click at index 8 on 0 1 2 / 3 4 5 / 6 _ 7 solves the puzzle, and
    the new ranking is written. *)
Lemma store_is_written_when_the_puzzle_is_solved_witness :
  exists st' w' effects,
    handle Reference.platform 10
           (Reference.session easy [0; 1; 2; 3; 4; 5; 6; 8; 7] playing)
           (TileClick 8) Reference.sample_world
    = Finished (st', w', effects) /\
    status st' = solved /\
    stored effects = [rankings st'].
Proof.
  destruct (handle Reference.platform 10
                   (Reference.session easy [0; 1; 2; 3; 4; 5; 6; 8; 7] playing)
                   (TileClick 8) Reference.sample_world)
    as [[[st' w'] effects]| |] eqn:E;
    try (exfalso; vm_compute in E; discriminate).
  assert (Hst : status st' = solved).
  { assert (G : match handle Reference.platform 10
                        (Reference.session easy [0; 1; 2; 3; 4; 5; 6; 8; 7] playing)
                        (TileClick 8) Reference.sample_world with
                | Finished r => status (state_of r)
                | _ => idle
                end = solved) by (vm_compute; reflexivity).
    rewrite E in G. exact G. }
  exists st', w', effects. split; [reflexivity|]. split; [exact Hst|].
  destruct (store_is_written_when_the_puzzle_is_solved
              Reference.platform 10
              (Reference.session easy [0; 1; 2; 3; 4; 5; 6; 8; 7] playing)
              (TileClick 8) Reference.sample_world st' w' effects E) as [H _].
  destruct (H (conj eq_refl Hst)) as [Hs _]. exact Hs.
Defined.

(** A store that holds [not json]: the session starts with no ranking.
    The first puzzle is 0 1 2 / 3 4 5 / 6 _ 7, the click at index 8 solves
    it, and the ranking then holds one entry. *)
Lemma session_ranking_is_ordered_and_bounded_witness :
  loads Reference.platform (Reference.browser_with "not json") [] /\
  exists st,
    in_session Reference.platform [] st /\
    status st = solved /\
    List.length (rankings st) = 1%nat /\
    StronglySorted Spec.by_moves (rankings st).
Proof.
  assert (Hloads : loads Reference.platform (Reference.browser_with "not json") [])
    by (exists parse_warning; reflexivity).
  split; [exact Hloads|].
  destruct (startPuzzle Reference.platform 10 (initialApp []) no_options
                        near_solved_world)
    as [[[st0 w0] eff0]| |] eqn:E;
    try (exfalso; vm_compute in E; discriminate).
  assert (Hst0 : st0 = Reference.session easy [0; 1; 2; 3; 4; 5; 6; 8; 7] playing).
  { assert (G : match startPuzzle Reference.platform 10 (initialApp []) no_options
                      near_solved_world with
                | Finished r => state_of r
                | _ => initialApp []
                end = Reference.session easy [0; 1; 2; 3; 4; 5; 6; 8; 7] playing)
      by (vm_compute; reflexivity).
    rewrite E in G. exact G. }
  assert (S0 : in_session Reference.platform [] st0)
    by (eapply session_mount; exact E).
  assert (Hfacts :
    status (state_of (attemptMove Reference.platform st0 8 w0)) = solved /\
    List.length (rankings (state_of (attemptMove Reference.platform st0 8 w0))) = 1%nat)
    by (rewrite Hst0; split; reflexivity).
  destruct (attemptMove Reference.platform st0 8 w0) as [[st1 w1] eff1] eqn:E1.
  destruct Hfacts as [Hs Hl]. unfold state_of in Hs, Hl. cbn [fst] in Hs, Hl.
  assert (S1 : in_session Reference.platform [] st1).
  { apply (session_event Reference.platform [] 10 st0 (TileClick 8) w0 st1 w1 eff1 S0).
    - rewrite Hst0. unfold possible, rendered. vm_compute.
      split; [discriminate|reflexivity].
    - cbn [handle]. unfold handleTileClick. now rewrite E1. }
  exists st1. split; [exact S1|]. split; [exact Hs|]. split; [exact Hl|].
  destruct (session_ranking_is_ordered_and_bounded
              Reference.platform (Reference.browser_with "not json") [] st1 Hloads S1)
    as [Hsame|[Hsorted _]].
  - rewrite Hsame in Hl. discriminate.
  - exact Hsorted.
Defined.

Lemma session_tiles_show_the_image_witness :
  exists st,
    in_session Reference.platform [] st /\
    Z.of_nat (List.length (renderTiles st))
    = DifficultyOption.size (activeDifficulty st) * DifficultyOption.size (activeDifficulty st) /\
    rendered st (JS.indexOf (tiles st) (blankValue st)).
Proof.
  destruct (startPuzzle Reference.platform 10 (initialApp []) no_options
                        Reference.sample_world)
    as [[[st w'] effects]| |] eqn:E;
    try (exfalso; vm_compute in E; discriminate).
  assert (S : in_session Reference.platform [] st)
    by (eapply session_mount; exact E).
  exists st. split; [exact S|].
  destruct (session_tiles_show_the_image
              Reference.platform [] st reference_sort_rearranges S) as (H1 & H2 & _).
  split; assumption.
Defined.
